(** * wlib shared and weak pointers (lib/wlib/wlib/stl/SharedPtr.h)

    A shallow embedding of the reference-counting engine of [wlp]: the
    control block [ReferenceCount], the two handles [SharedCount] and
    [WeakCount], and the facades [shared_ptr] and [weak_ptr].

    Control blocks live in a heap indexed by their address.  Every method is
    a computation in a state-and-fault monad: the state carries the heap, the
    allocator and a trace of the counter updates and disposal actions; a
    fault is a dereference of a null or of a freed control block, which C++
    leaves undefined.  A facade is a value (handle and cached observer); a
    member function that changes [*this] returns the new value of [*this].
    Where the order of the statements of a member function or the identity
    of the objects matters, the statements are separate definitions and the
    objects live in a store of named pointers.

    Left out: the constructors and the assignment from [unique_ptr], whose
    header is not part of the sources at hand, and the [nullptr_t]
    specialisation of [dispose], which no [shared_ptr<T>] instantiates. *)

From stdpp Require Import gmap strings list.

Local Open Scope Z_scope.

(** ** Machine integers *)

(** [ptr_use_count] is [uint16_t]; [static_cast<uint16_t>] keeps the low
    sixteen bits. *)
Definition wrap16 (z : Z) : Z := z mod 65536.

(** [exchange_and_add(mem, val)]: the first component is the returned
    [res], the second the value left in [*mem]. *)
Definition exchange_and_add (mem val : Z) : Z * Z :=
  let res := mem in (res, wrap16 (mem + val)).

Definition exchange_and_sub (mem val : Z) : Z * Z :=
  let res := mem in (res, wrap16 (mem - val)).

(** ** Data *)

(** Address of a pointee; [0] is [nullptr]. *)
Definition pointer : Type := Z.
Definition nullptr : pointer := 0.

(** Address of a heap-allocated control block. *)
Definition loc : Type := positive.

Module ReferenceCount.
Record t : Type := mk {
  m_ptr : pointer;
  m_use_count : Z;
  m_weak_count : Z
}.
End ReferenceCount.

Module SharedCount.
(** [m_pi] is a nullable [ReferenceCount<Ptr> *]. *)
Record t : Type := mk { m_pi : option loc }.
End SharedCount.

Module WeakCount.
Record t : Type := mk { m_pi : option loc }.
End WeakCount.

Module shared_ptr.
Record t : Type := mk {
  m_refcount : SharedCount.t;
  m_ptr : pointer
}.
End shared_ptr.

Module weak_ptr.
Record t : Type := mk {
  m_refcount : WeakCount.t;
  m_ptr : pointer
}.
End weak_ptr.

(** What a run leaves behind: every write to a counter (with the value the
    counter held before it), every [dispose()] and every [destroy()]. *)
Inductive event : Type :=
  | StrongAdd (a : loc) (old : Z)
  | StrongSub (a : loc) (old : Z)
  | StrongReset (a : loc)
  | WeakAdd (a : loc) (old : Z)
  | WeakSub (a : loc) (old : Z)
  | Dispose (a : loc) (p : pointer)
  | Destroy (a : loc).

Global Instance event_eq_dec : EqDecision event.
Proof. solve_decision. Defined.

Record State : Type := mkState {
  heap : gmap loc ReferenceCount.t;
  next : loc;
  trace : list event
}.

Definition init : State := mkState ∅ 1%positive [].

Inductive fault : Type :=
  | NullDeref
  | UseAfterFree.

Inductive outcome (A : Type) : Type :=
  | Ok (a : A) (s : State)
  | Fault (f : fault).
Global Arguments Ok {A} a s.
Global Arguments Fault {A} f.

(** ** The monad *)

Definition M (A : Type) : Type := State → outcome A.

Global Instance M_ret : MRet M := λ A a s, Ok a s.

Global Instance M_bind : MBind M := λ A B f c s,
  match c s with
  | Ok a s' => f a s'
  | Fault e => Fault e
  end.

Definition raise {A} (e : fault) : M A := λ _, Fault e.

(** [*m_pi]: read the control block at [this]. *)
Definition load (this : loc) : M ReferenceCount.t := λ s,
  match heap s !! this with
  | Some r => Ok r s
  | None => Fault UseAfterFree
  end.

Definition store (this : loc) (r : ReferenceCount.t) : M unit := λ s,
  Ok () (mkState (<[this := r]> (heap s)) (next s) (trace s)).

Definition emit (e : event) : M unit := λ s,
  Ok () (mkState (heap s) (next s) (trace s ++ [e])).

(** Modelled from the spec: the allocation primitives [create] and [destroy]
    of the library's memory header, which is not part of the sources at hand
    ("a construct-in-place / destroy-in-place pair used by the control block
    to free the pointee and itself").  [create] returns the address of a new
    block; [destroy] gives a block back. *)
Definition create (r : ReferenceCount.t) : M loc := λ s,
  Ok (next s) (mkState (<[next s := r]> (heap s)) (Pos.succ (next s)) (trace s)).

(** Modelled from the spec: [destroy(this)] on a control block frees it;
    the block is no longer in the heap. *)
Definition destroy_block (this : loc) : M unit := λ s,
  Ok () (mkState (delete this (heap s)) (next s) (trace s)).

(** [m_pi->]: a null handle cannot be dereferenced. *)
Definition deref (m_pi : option loc) : M loc :=
  match m_pi with
  | Some a => mret a
  | None => raise NullDeref
  end.

(** ** [ReferenceCount] *)

Definition set_use_count (r : ReferenceCount.t) (c : Z) : ReferenceCount.t :=
  ReferenceCount.mk (ReferenceCount.m_ptr r) c (ReferenceCount.m_weak_count r).

Definition set_weak_count (r : ReferenceCount.t) (c : Z) : ReferenceCount.t :=
  ReferenceCount.mk (ReferenceCount.m_ptr r) (ReferenceCount.m_use_count r) c.

(** [ReferenceCount(pointer ptr)] *)
Definition ReferenceCount_new (ptr : pointer) : ReferenceCount.t :=
  ReferenceCount.mk ptr 1 1.

(** [dispose()]: [destroy(m_ptr)] frees the pointee, which the trace
    records. *)
Definition ReferenceCount_dispose (this : loc) : M unit :=
  r ← load this;
  emit (Dispose this (ReferenceCount.m_ptr r)).

(** [destroy()]: frees the block itself. *)
Definition ReferenceCount_destroy (this : loc) : M unit :=
  emit (Destroy this);;
  destroy_block this.

(** [++m_use_count] *)
Definition ReferenceCount_add_copied_reference (this : loc) : M unit :=
  r ← load this;
  store this (set_use_count r (wrap16 (ReferenceCount.m_use_count r + 1)));;
  emit (StrongAdd this (ReferenceCount.m_use_count r)).

Definition ReferenceCount_add_locked_reference (this : loc) : M unit :=
  r ← load this;
  let '(res, mem) := exchange_and_add (ReferenceCount.m_use_count r) 1 in
  store this (set_use_count r mem);;
  emit (StrongAdd this res);;
  if res =? 0 then
    r' ← load this;
    store this (set_use_count r' 0);;
    emit (StrongReset this)
  else mret ().

Definition ReferenceCount_release (this : loc) : M unit :=
  r ← load this;
  let '(res, mem) := exchange_and_sub (ReferenceCount.m_use_count r) 1 in
  store this (set_use_count r mem);;
  emit (StrongSub this res);;
  if res =? 1 then
    ReferenceCount_dispose this;;
    r' ← load this;
    let '(wres, wmem) := exchange_and_sub (ReferenceCount.m_weak_count r') 1 in
    store this (set_weak_count r' wmem);;
    emit (WeakSub this wres);;
    if wres =? 1 then ReferenceCount_destroy this else mret ()
  else mret ().

(** [++m_weak_count] *)
Definition ReferenceCount_add_weak_reference (this : loc) : M unit :=
  r ← load this;
  store this (set_weak_count r (wrap16 (ReferenceCount.m_weak_count r + 1)));;
  emit (WeakAdd this (ReferenceCount.m_weak_count r)).

Definition ReferenceCount_weak_release (this : loc) : M unit :=
  r ← load this;
  let '(wres, wmem) := exchange_and_sub (ReferenceCount.m_weak_count r) 1 in
  store this (set_weak_count r wmem);;
  emit (WeakSub this wres);;
  if wres =? 1 then ReferenceCount_destroy this else mret ().

Definition ReferenceCount_use_count (this : loc) : M Z :=
  r ← load this; mret (ReferenceCount.m_use_count r).

Definition ReferenceCount_weak_count (this : loc) : M Z :=
  r ← load this; mret (ReferenceCount.m_weak_count r).

(** ** [SharedCount] and [WeakCount] *)

(** A control-block address as the integer that [<] compares; null is [0]. *)
Definition address (m_pi : option loc) : Z :=
  match m_pi with
  | Some a => Z.pos a
  | None => 0
  end.

(** [constexpr SharedCount()] *)
Definition SharedCount_default : SharedCount.t := SharedCount.mk None.

(** [explicit SharedCount(PtrType ptr)] *)
Definition SharedCount_new (ptr : pointer) : M SharedCount.t :=
  a ← create (ReferenceCount_new ptr);
  mret (SharedCount.mk (Some a)).

(** [explicit SharedCount(const WeakCount<Ptr> &)]: no null test before
    [m_pi->add_locked_reference()]. *)
Definition SharedCount_of_weak (wc : WeakCount.t) : M SharedCount.t :=
  let m_pi := WeakCount.m_pi wc in
  a ← deref m_pi;
  ReferenceCount_add_locked_reference a;;
  mret (SharedCount.mk m_pi).

(** [~SharedCount()] *)
Definition SharedCount_dtor (this : SharedCount.t) : M unit :=
  match SharedCount.m_pi this with
  | Some a => ReferenceCount_release a
  | None => mret ()
  end.

(** [SharedCount(const SharedCount<Ptr> &sc)] *)
Definition SharedCount_copy (sc : SharedCount.t) : M SharedCount.t :=
  let m_pi := SharedCount.m_pi sc in
  match m_pi with
  | Some a => ReferenceCount_add_copied_reference a
  | None => mret ()
  end;;
  mret (SharedCount.mk m_pi).

(** [operator=(const SharedCount<Ptr> &sc)]; the result is the new [*this]. *)
Definition SharedCount_assign (this sc : SharedCount.t) : M SharedCount.t :=
  let tmp := SharedCount.m_pi sc in
  if decide (tmp ≠ SharedCount.m_pi this) then
    match tmp with
    | Some a => ReferenceCount_add_copied_reference a
    | None => mret ()
    end;;
    match SharedCount.m_pi this with
    | Some a => ReferenceCount_release a
    | None => mret ()
    end;;
    mret (SharedCount.mk tmp)
  else mret this.

(** [swap]: the new [*this] and the new [sc]. *)
Definition SharedCount_swap (this sc : SharedCount.t) : SharedCount.t * SharedCount.t :=
  (sc, this).

Definition SharedCount_use_count (this : SharedCount.t) : M Z :=
  match SharedCount.m_pi this with
  | Some a => ReferenceCount_use_count a
  | None => mret 0
  end.

Definition SharedCount_unique (this : SharedCount.t) : M bool :=
  c ← SharedCount_use_count this; mret (c =? 1).

Definition SharedCount_less (this sc : SharedCount.t) : bool :=
  address (SharedCount.m_pi this) <? address (SharedCount.m_pi sc).

Definition SharedCount_less_weak (this : SharedCount.t) (wc : WeakCount.t) : bool :=
  address (SharedCount.m_pi this) <? address (WeakCount.m_pi wc).

Definition SharedCount_eq (sc1 sc2 : SharedCount.t) : bool :=
  bool_decide (SharedCount.m_pi sc1 = SharedCount.m_pi sc2).

(** [constexpr WeakCount()] *)
Definition WeakCount_default : WeakCount.t := WeakCount.mk None.

(** [WeakCount(const SharedCount<Ptr> &sc)] *)
Definition WeakCount_of_shared (sc : SharedCount.t) : M WeakCount.t :=
  let m_pi := SharedCount.m_pi sc in
  match m_pi with
  | Some a => ReferenceCount_add_weak_reference a
  | None => mret ()
  end;;
  mret (WeakCount.mk m_pi).

(** [WeakCount(const WeakCount<Ptr> &wc)] *)
Definition WeakCount_copy (wc : WeakCount.t) : M WeakCount.t :=
  let m_pi := WeakCount.m_pi wc in
  match m_pi with
  | Some a => ReferenceCount_add_weak_reference a
  | None => mret ()
  end;;
  mret (WeakCount.mk m_pi).

(** [~WeakCount()] *)
Definition WeakCount_dtor (this : WeakCount.t) : M unit :=
  match WeakCount.m_pi this with
  | Some a => ReferenceCount_weak_release a
  | None => mret ()
  end.

(** The body shared by both [WeakCount::operator=]: [tmp] is the source's
    [m_pi]. *)
Definition WeakCount_assign_pi (this : WeakCount.t) (tmp : option loc) : M WeakCount.t :=
  match tmp with
  | Some a => ReferenceCount_add_weak_reference a
  | None => mret ()
  end;;
  match WeakCount.m_pi this with
  | Some a => ReferenceCount_weak_release a
  | None => mret ()
  end;;
  mret (WeakCount.mk tmp).

(** [operator=(const SharedCount<Ptr> &sc)] *)
Definition WeakCount_assign_shared (this : WeakCount.t) (sc : SharedCount.t) : M WeakCount.t :=
  WeakCount_assign_pi this (SharedCount.m_pi sc).

(** [operator=(const WeakCount<Ptr> &wc)] *)
Definition WeakCount_assign (this wc : WeakCount.t) : M WeakCount.t :=
  WeakCount_assign_pi this (WeakCount.m_pi wc).

Definition WeakCount_swap (this wc : WeakCount.t) : WeakCount.t * WeakCount.t :=
  (wc, this).

(** [WeakCount::use_count()]: [m_pi->use_count()], no null test. *)
Definition WeakCount_use_count (this : WeakCount.t) : M Z :=
  a ← deref (WeakCount.m_pi this);
  ReferenceCount_use_count a.

Definition WeakCount_less (this wc : WeakCount.t) : bool :=
  address (WeakCount.m_pi this) <? address (WeakCount.m_pi wc).

Definition WeakCount_less_shared (this : WeakCount.t) (sc : SharedCount.t) : bool :=
  address (WeakCount.m_pi this) <? address (SharedCount.m_pi sc).

(** ** [shared_ptr] *)

(** [constexpr shared_ptr()] and [constexpr shared_ptr(nullptr_t)] *)
Definition shared_ptr_default : shared_ptr.t :=
  shared_ptr.mk SharedCount_default nullptr.

(** [explicit shared_ptr(U *ptr)] *)
Definition shared_ptr_new (ptr : pointer) : M shared_ptr.t :=
  rc ← SharedCount_new ptr;
  mret (shared_ptr.mk rc ptr).

(** [shared_ptr(const shared_ptr<U> &sp, T *ptr)], the aliasing form. *)
Definition shared_ptr_alias (sp : shared_ptr.t) (ptr : pointer) : M shared_ptr.t :=
  rc ← SharedCount_copy (shared_ptr.m_refcount sp);
  mret (shared_ptr.mk rc ptr).

(** [shared_ptr(const shared_ptr<U> &sp)] *)
Definition shared_ptr_copy (sp : shared_ptr.t) : M shared_ptr.t :=
  rc ← SharedCount_copy (shared_ptr.m_refcount sp);
  mret (shared_ptr.mk rc (shared_ptr.m_ptr sp)).

(** [shared_ptr(shared_ptr<U> &&sp)]: the new object and what is left in
    [sp]. *)
Definition shared_ptr_move (sp : shared_ptr.t) : shared_ptr.t * shared_ptr.t :=
  let '(rc, src) := SharedCount_swap SharedCount_default (shared_ptr.m_refcount sp) in
  (shared_ptr.mk rc (shared_ptr.m_ptr sp), shared_ptr.mk src nullptr).

(** [explicit shared_ptr(const weak_ptr<U> &wp)] *)
Definition shared_ptr_of_weak (wp : weak_ptr.t) : M shared_ptr.t :=
  rc ← SharedCount_of_weak (weak_ptr.m_refcount wp);
  mret (shared_ptr.mk rc (weak_ptr.m_ptr wp)).

(** [~shared_ptr()] *)
Definition shared_ptr_dtor (this : shared_ptr.t) : M unit :=
  SharedCount_dtor (shared_ptr.m_refcount this).

(** [operator=(const shared_ptr<U> &sp)], statement by statement:
    [m_ptr = sp.m_ptr;] then [m_refcount = sp.m_refcount;]. *)
Definition shared_ptr_assign_observer (this sp : shared_ptr.t) : M shared_ptr.t :=
  mret (shared_ptr.mk (shared_ptr.m_refcount this) (shared_ptr.m_ptr sp)).

Definition shared_ptr_assign_handle (this sp : shared_ptr.t) : M shared_ptr.t :=
  rc ← SharedCount_assign (shared_ptr.m_refcount this) (shared_ptr.m_refcount sp);
  mret (shared_ptr.mk rc (shared_ptr.m_ptr this)).

(** The assignment when [sp] is another object than [*this]. *)
Definition shared_ptr_assign (this sp : shared_ptr.t) : M shared_ptr.t :=
  this1 ← shared_ptr_assign_observer this sp;
  shared_ptr_assign_handle this1 sp.

(** [swap] *)
Definition shared_ptr_swap (this sp : shared_ptr.t) : shared_ptr.t * shared_ptr.t :=
  (sp, this).

(** [reset()]: [shared_ptr().swap( *this)], then the temporary dies with the
    old contents. *)
Definition shared_ptr_reset (this : shared_ptr.t) : M shared_ptr.t :=
  let '(tmp, this') := shared_ptr_swap shared_ptr_default this in
  shared_ptr_dtor tmp;;
  mret this'.

(** [reset(U *ptr)] *)
Definition shared_ptr_reset_to (this : shared_ptr.t) (ptr : pointer) : M shared_ptr.t :=
  fresh ← shared_ptr_new ptr;
  let '(tmp, this') := shared_ptr_swap fresh this in
  shared_ptr_dtor tmp;;
  mret this'.

Definition shared_ptr_get (this : shared_ptr.t) : pointer :=
  shared_ptr.m_ptr this.

(** [explicit operator bool()] *)
Definition shared_ptr_bool (this : shared_ptr.t) : bool :=
  negb (shared_ptr.m_ptr this =? 0).

Definition shared_ptr_unique (this : shared_ptr.t) : M bool :=
  SharedCount_unique (shared_ptr.m_refcount this).

Definition shared_ptr_use_count (this : shared_ptr.t) : M Z :=
  SharedCount_use_count (shared_ptr.m_refcount this).

Definition shared_ptr_owner_before (this sp : shared_ptr.t) : bool :=
  SharedCount_less (shared_ptr.m_refcount this) (shared_ptr.m_refcount sp).

Definition shared_ptr_owner_before_weak (this : shared_ptr.t) (wp : weak_ptr.t) : bool :=
  SharedCount_less_weak (shared_ptr.m_refcount this) (weak_ptr.m_refcount wp).

(** ** [weak_ptr] *)

(** [constexpr weak_ptr()] *)
Definition weak_ptr_default : weak_ptr.t :=
  weak_ptr.mk WeakCount_default nullptr.

(** [weak_ptr(const shared_ptr<U> &sp)] *)
Definition weak_ptr_of_shared (sp : shared_ptr.t) : M weak_ptr.t :=
  rc ← WeakCount_of_shared (shared_ptr.m_refcount sp);
  mret (weak_ptr.mk rc (shared_ptr.m_ptr sp)).

Definition weak_ptr_use_count (this : weak_ptr.t) : M Z :=
  WeakCount_use_count (weak_ptr.m_refcount this).

Definition weak_ptr_expired (this : weak_ptr.t) : M bool :=
  c ← WeakCount_use_count (weak_ptr.m_refcount this);
  mret (c =? 0).

(** [lock()]: [expired() ? shared_ptr<T>() : shared_ptr<T>( *this)].  The
    result is returned by value: the temporary is the result itself, or is
    moved into it by the swapping move constructor, which touches no
    counter. *)
Definition weak_ptr_lock (this : weak_ptr.t) : M shared_ptr.t :=
  e ← weak_ptr_expired this;
  if (e : bool) then mret shared_ptr_default else shared_ptr_of_weak this.

(** [weak_ptr(const weak_ptr<U> &wp)]: the handle is copied in the
    initialiser list; the body locks [wp], reads the observer, and the
    temporary shared pointer dies at the end of the statement. *)
Definition weak_ptr_of_weak (wp : weak_ptr.t) : M weak_ptr.t :=
  rc ← WeakCount_copy (weak_ptr.m_refcount wp);
  tmp ← weak_ptr_lock wp;
  let p := shared_ptr_get tmp in
  shared_ptr_dtor tmp;;
  mret (weak_ptr.mk rc p).

(** The implicit copy constructor of [weak_ptr<T>], member by member. *)
Definition weak_ptr_copy (wp : weak_ptr.t) : M weak_ptr.t :=
  rc ← WeakCount_copy (weak_ptr.m_refcount wp);
  mret (weak_ptr.mk rc (weak_ptr.m_ptr wp)).

(** [~weak_ptr()] *)
Definition weak_ptr_dtor (this : weak_ptr.t) : M unit :=
  WeakCount_dtor (weak_ptr.m_refcount this).

(** [operator=(const weak_ptr<U> &wp)], statement by statement:
    [m_ptr = wp.lock().get();] then [m_refcount = wp.m_refcount;]. *)
Definition weak_ptr_assign_weak_observer (this wp : weak_ptr.t) : M weak_ptr.t :=
  tmp ← weak_ptr_lock wp;
  let this' := weak_ptr.mk (weak_ptr.m_refcount this) (shared_ptr_get tmp) in
  shared_ptr_dtor tmp;;
  mret this'.

Definition weak_ptr_assign_weak_handle (this wp : weak_ptr.t) : M weak_ptr.t :=
  rc ← WeakCount_assign (weak_ptr.m_refcount this) (weak_ptr.m_refcount wp);
  mret (weak_ptr.mk rc (weak_ptr.m_ptr this)).

Definition weak_ptr_assign_weak (this wp : weak_ptr.t) : M weak_ptr.t :=
  this1 ← weak_ptr_assign_weak_observer this wp;
  weak_ptr_assign_weak_handle this1 wp.

(** The implicit copy assignment of [weak_ptr<T>], which overload
    resolution prefers to the template above for a source of the same type:
    member by member in declaration order, [m_refcount] and then [m_ptr]. *)
Definition weak_ptr_assign_copy_observer (this wp : weak_ptr.t) : M weak_ptr.t :=
  mret (weak_ptr.mk (weak_ptr.m_refcount this) (weak_ptr.m_ptr wp)).

Definition weak_ptr_assign_copy (this wp : weak_ptr.t) : M weak_ptr.t :=
  this1 ← weak_ptr_assign_weak_handle this wp;
  weak_ptr_assign_copy_observer this1 wp.

(** [operator=(const shared_ptr<U> &sp)], statement by statement:
    [m_ptr = sp.m_ptr;] then [m_refcount = sp.m_refcount;]. *)
Definition weak_ptr_assign_shared_observer (this : weak_ptr.t) (sp : shared_ptr.t) : M weak_ptr.t :=
  mret (weak_ptr.mk (weak_ptr.m_refcount this) (shared_ptr.m_ptr sp)).

Definition weak_ptr_assign_shared_handle (this : weak_ptr.t) (sp : shared_ptr.t) : M weak_ptr.t :=
  rc ← WeakCount_assign_shared (weak_ptr.m_refcount this) (shared_ptr.m_refcount sp);
  mret (weak_ptr.mk rc (weak_ptr.m_ptr this)).

Definition weak_ptr_assign_shared (this : weak_ptr.t) (sp : shared_ptr.t) : M weak_ptr.t :=
  this1 ← weak_ptr_assign_shared_observer this sp;
  weak_ptr_assign_shared_handle this1 sp.

Definition weak_ptr_swap (this wp : weak_ptr.t) : weak_ptr.t * weak_ptr.t :=
  (wp, this).

(** [reset()]: [weak_ptr().swap( *this)]. *)
Definition weak_ptr_reset (this : weak_ptr.t) : M weak_ptr.t :=
  let '(tmp, this') := weak_ptr_swap weak_ptr_default this in
  weak_ptr_dtor tmp;;
  mret this'.

Definition weak_ptr_owner_before (this wp : weak_ptr.t) : bool :=
  WeakCount_less (weak_ptr.m_refcount this) (weak_ptr.m_refcount wp).

Definition weak_ptr_owner_before_shared (this : weak_ptr.t) (sp : shared_ptr.t) : bool :=
  WeakCount_less_shared (weak_ptr.m_refcount this) (shared_ptr.m_refcount sp).

(** [shared_ptr::weak()] *)
Definition shared_ptr_weak (this : shared_ptr.t) : M weak_ptr.t :=
  weak_ptr_of_shared this.

(** ** The pointer casts *)

Section casts.
(** [dynamic_cast<T *>] on a pointee address: the converted address, or
    null when the runtime type check fails. *)
Variable dynamic_cast : pointer → pointer.
(** [static_cast], [const_cast] and [reinterpret_cast] on an address. *)
Variable static_cast : pointer → pointer.

Definition static_pointer_cast (sp : shared_ptr.t) : M shared_ptr.t :=
  shared_ptr_alias sp (static_cast (shared_ptr_get sp)).

Definition dynamic_pointer_cast (sp : shared_ptr.t) : M shared_ptr.t :=
  let ptr := dynamic_cast (shared_ptr_get sp) in
  if negb (ptr =? 0) then shared_ptr_alias sp ptr
  else mret shared_ptr_default.
End casts.

(** ** Programs over named pointers

    A client program is a sequence of public operations on named
    [shared_ptr] and [weak_ptr] objects.  The objects live in a store, so an
    assignment whose source is the target itself reads the very object it
    writes. *)

Record Machine : Type := mkMachine {
  mem : State;
  shareds : gmap string shared_ptr.t;
  weaks : gmap string weak_ptr.t
}.

Definition boot : Machine := mkMachine init ∅ ∅.

Inductive op : Type :=
  | SharedDefault (x : string)              (* shared_ptr<T> x; *)
  | SharedNew (x : string) (p : pointer)    (* shared_ptr<T> x(p); *)
  | SharedCopy (x y : string)               (* shared_ptr<T> x(y); *)
  | SharedAlias (x y : string) (p : pointer)(* shared_ptr<T> x(y, p); *)
  | SharedOfWeak (x w : string)             (* shared_ptr<T> x(w); *)
  | SharedLock (x w : string)               (* shared_ptr<T> x = w.lock(); *)
  | SharedAssign (x y : string)             (* x = y; *)
  | SharedReset (x : string)                (* x.reset(); *)
  | SharedResetTo (x : string) (p : pointer)(* x.reset(p); *)
  | SharedSwap (x y : string)               (* x.swap(y); *)
  | SharedDestroy (x : string)              (* x leaves its scope *)
  | WeakDefault (w : string)                (* weak_ptr<T> w; *)
  | WeakOfShared (w x : string)             (* weak_ptr<T> w(x); *)
  | WeakCopy (w v : string)                 (* weak_ptr<T> w(v); *)
  | WeakOfWeak (w v : string)               (* weak_ptr<T> w(v), v a weak_ptr<U> *)
  | WeakAssign (w v : string)               (* w = v; *)
  | WeakAssignShared (w x : string)         (* w = x; *)
  | WeakAssignWeak (w v : string)           (* w = v, v a weak_ptr<U> *)
  | WeakReset (w : string)                  (* w.reset(); *)
  | WeakSwap (w v : string)                 (* w.swap(v); *)
  | WeakDestroy (w : string).               (* w leaves its scope *)

Inductive result : Type :=
  | Running (m : Machine)
  | Crashed (f : fault)
  | IllFormed.

Definition exec {A} (c : M A) (m : Machine) (k : A → State → result) : result :=
  match c (mem m) with
  | Ok a s => k a s
  | Fault f => Crashed f
  end.

(** Declaration of a new shared pointer [x] built by [c]. *)
Definition declare_shared (x : string) (c : M shared_ptr.t) (m : Machine) : result :=
  match shareds m !! x with
  | Some _ => IllFormed
  | None => exec c m (λ sp s, Running (mkMachine s (<[x := sp]> (shareds m)) (weaks m)))
  end.

Definition declare_weak (w : string) (c : M weak_ptr.t) (m : Machine) : result :=
  match weaks m !! w with
  | Some _ => IllFormed
  | None => exec c m (λ wp s, Running (mkMachine s (shareds m) (<[w := wp]> (weaks m))))
  end.

(** One statement of a member function of the shared pointer [x]: the
    object is read, the statement runs, the object is written back. *)
Definition update_shared (x : string) (c : shared_ptr.t → M shared_ptr.t) (m : Machine) : result :=
  match shareds m !! x with
  | Some this => exec (c this) m (λ sp s, Running (mkMachine s (<[x := sp]> (shareds m)) (weaks m)))
  | None => IllFormed
  end.

Definition update_weak (w : string) (c : weak_ptr.t → M weak_ptr.t) (m : Machine) : result :=
  match weaks m !! w with
  | Some this => exec (c this) m (λ wp s, Running (mkMachine s (shareds m) (<[w := wp]> (weaks m))))
  | None => IllFormed
  end.

(** A statement that reads the shared pointer [y] by reference. *)
Definition with_shared (y : string) (k : shared_ptr.t → Machine → result) (m : Machine) : result :=
  match shareds m !! y with
  | Some sp => k sp m
  | None => IllFormed
  end.

Definition with_weak (v : string) (k : weak_ptr.t → Machine → result) (m : Machine) : result :=
  match weaks m !! v with
  | Some wp => k wp m
  | None => IllFormed
  end.

Definition and_then (r : result) (k : Machine → result) : result :=
  match r with
  | Running m => k m
  | _ => r
  end.

Definition step (o : op) (m : Machine) : result :=
  match o with
  | SharedDefault x => declare_shared x (mret shared_ptr_default) m
  | SharedNew x p => declare_shared x (shared_ptr_new p) m
  | SharedCopy x y => with_shared y (λ sp, declare_shared x (shared_ptr_copy sp)) m
  | SharedAlias x y p => with_shared y (λ sp, declare_shared x (shared_ptr_alias sp p)) m
  | SharedOfWeak x w => with_weak w (λ wp, declare_shared x (shared_ptr_of_weak wp)) m
  | SharedLock x w => with_weak w (λ wp, declare_shared x (weak_ptr_lock wp)) m
  | SharedAssign x y =>
      and_then
        (with_shared y (λ sp, update_shared x (λ this, shared_ptr_assign_observer this sp)) m)
        (with_shared y (λ sp, update_shared x (λ this, shared_ptr_assign_handle this sp)))
  | SharedReset x => update_shared x shared_ptr_reset m
  | SharedResetTo x p => update_shared x (λ this, shared_ptr_reset_to this p) m
  | SharedSwap x y =>
      match shareds m !! x, shareds m !! y with
      | Some this, Some sp =>
          let '(this', sp') := shared_ptr_swap this sp in
          Running (mkMachine (mem m) (<[y := sp']> (<[x := this']> (shareds m))) (weaks m))
      | _, _ => IllFormed
      end
  | SharedDestroy x =>
      with_shared x (λ this m,
        exec (shared_ptr_dtor this) m
          (λ _ s, Running (mkMachine s (delete x (shareds m)) (weaks m)))) m
  | WeakDefault w => declare_weak w (mret weak_ptr_default) m
  | WeakOfShared w x => with_shared x (λ sp, declare_weak w (weak_ptr_of_shared sp)) m
  | WeakCopy w v => with_weak v (λ wp, declare_weak w (weak_ptr_copy wp)) m
  | WeakOfWeak w v => with_weak v (λ wp, declare_weak w (weak_ptr_of_weak wp)) m
  | WeakAssign w v =>
      and_then
        (with_weak v (λ wp, update_weak w (λ this, weak_ptr_assign_weak_handle this wp)) m)
        (with_weak v (λ wp, update_weak w (λ this, weak_ptr_assign_copy_observer this wp)))
  | WeakAssignShared w x =>
      and_then
        (with_shared x (λ sp, update_weak w (λ this, weak_ptr_assign_shared_observer this sp)) m)
        (with_shared x (λ sp, update_weak w (λ this, weak_ptr_assign_shared_handle this sp)))
  | WeakAssignWeak w v =>
      and_then
        (with_weak v (λ wp, update_weak w (λ this, weak_ptr_assign_weak_observer this wp)) m)
        (with_weak v (λ wp, update_weak w (λ this, weak_ptr_assign_weak_handle this wp)))
  | WeakReset w => update_weak w weak_ptr_reset m
  | WeakSwap w v =>
      match weaks m !! w, weaks m !! v with
      | Some this, Some wp =>
          let '(this', wp') := weak_ptr_swap this wp in
          Running (mkMachine (mem m) (shareds m) (<[v := wp']> (<[w := this']> (weaks m))))
      | _, _ => IllFormed
      end
  | WeakDestroy w =>
      with_weak w (λ this m,
        exec (weak_ptr_dtor this) m
          (λ _ s, Running (mkMachine s (shareds m) (delete w (weaks m))))) m
  end.

Fixpoint run (prog : list op) (m : Machine) : result :=
  match prog with
  | [] => Running m
  | o :: prog' => and_then (step o m) (run prog')
  end.

(** ** Observations *)

(** The strong and the weak count of the block at [a], when it is live. *)
Definition counts (s : State) (a : loc) : option (Z * Z) :=
  r ← heap s !! a;
  Some (ReferenceCount.m_use_count r, ReferenceCount.m_weak_count r).

Definition live (s : State) (a : loc) : bool :=
  bool_decide (is_Some (heap s !! a)).

(** A decrement that was applied to a counter holding [0]. *)
Definition underflow (e : event) : bool :=
  match e with
  | StrongSub _ old | WeakSub _ old => old =? 0
  | _ => false
  end.

Definition is_dispose (a : loc) (e : event) : bool :=
  match e with
  | Dispose b _ => bool_decide (a = b)
  | _ => false
  end.

Definition is_weak_sub (a : loc) (e : event) : bool :=
  match e with
  | WeakSub b _ => bool_decide (a = b)
  | _ => false
  end.

Definition count_events (f : event → bool) (tr : list event) : nat :=
  length (filter (λ e, f e = true) tr).

(** The state a program reaches from [boot], when it neither faults nor is
    ill-formed. *)
Definition final (prog : list op) : option Machine :=
  match run prog boot with
  | Running m => Some m
  | _ => None
  end.

(** [n] copy constructions from [sp], as a client holding that many more
    owners performs them. *)
Fixpoint shared_ptr_copies (n : nat) (sp : shared_ptr.t) : M (list shared_ptr.t) :=
  match n with
  | O => mret []
  | S n' =>
      c ← shared_ptr_copy sp;
      cs ← shared_ptr_copies n' sp;
      mret (c :: cs)
  end.

(** The bodies of the two assignment operators of [weak_ptr], in source
    order, and the run of their first [k] statements. *)
Definition weak_ptr_assign_shared_body : list (weak_ptr.t → shared_ptr.t → M weak_ptr.t) :=
  [weak_ptr_assign_shared_observer; weak_ptr_assign_shared_handle].

Definition weak_ptr_assign_weak_body : list (weak_ptr.t → weak_ptr.t → M weak_ptr.t) :=
  [weak_ptr_assign_weak_observer; weak_ptr_assign_weak_handle].

Definition weak_ptr_assign_copy_body : list (weak_ptr.t → weak_ptr.t → M weak_ptr.t) :=
  [weak_ptr_assign_weak_handle; weak_ptr_assign_copy_observer].

Fixpoint statements {T S : Type} (body : list (T → S → M T)) (this : T) (src : S) : M T :=
  match body with
  | [] => mret this
  | st :: rest => this' ← st this src; statements rest this' src
  end.

(** A client that owns a pointee through [1 + n] shared pointers:
    [shared_ptr<T> A(X)] and [n] copies of [A]. *)
Definition shared_ptr_owners (X : pointer) (n : nat) : M (list shared_ptr.t) :=
  A ← shared_ptr_new X;
  cs ← shared_ptr_copies n A;
  mret (A :: cs).

(** The same client, which then takes a weak pointer from [A]. *)
Definition owners_and_weak (X : pointer) (n : nat) : M weak_ptr.t :=
  A ← shared_ptr_new X;
  shared_ptr_copies n A;;
  weak_ptr_of_shared A.

(** The strong count after [n] copy constructions on a block that held
    [u], and the counter writes they leave in the trace. *)
Fixpoint copied_count (u : Z) (n : nat) : Z :=
  match n with
  | O => u
  | S n' => copied_count (wrap16 (u + 1)) n'
  end.

Fixpoint copied_events (a : loc) (u : Z) (n : nat) : list event :=
  match n with
  | O => []
  | S n' => StrongAdd a u :: copied_events a (wrap16 (u + 1)) n'
  end.

(** The scenario of the specification: [A] over [X], [B] a copy of [A], [W]
    a weak pointer from [A], then [A] and [B] die. *)
Definition scenario (X : pointer) : list op :=
  [SharedNew "A" X; SharedCopy "B" "A"; WeakOfShared "W" "A";
   SharedDestroy "A"; SharedDestroy "B"].

(** The strong and weak count of the first block allocated and the trace,
    once [prog] has run. *)
Definition observe (prog : list op) : option (option (Z * Z) * list event) :=
  (λ m, (counts (mem m) 1%positive, trace (mem m))) <$> final prog.

(** A client that lets the only owner die and then builds a shared pointer
    from the weak pointer that is left. *)
Definition revive : list op :=
  [SharedNew "A" 5; WeakOfShared "W" "A"; SharedDestroy "A"; SharedOfWeak "S" "W"].

(** What the release of a weak reference on the block [old], if any, leaves
    in the trace: one weak decrement, followed by the destruction of the
    block when the decrement was applied to 1. *)
Definition released (old : option loc) (tail : list event) : Prop :=
  match old with
  | None => tail = []
  | Some b => ∃ c, tail = WeakSub b c :: (if c =? 1 then [Destroy b] else [])
  end.

(** ** Guarded programs *)

(** The control-block reference of a facade. *)
Definition shared_pi (sp : shared_ptr.t) : option loc :=
  SharedCount.m_pi (shared_ptr.m_refcount sp).

Definition weak_pi (wp : weak_ptr.t) : option loc :=
  WeakCount.m_pi (weak_ptr.m_refcount wp).

(** The block behind [pi], if any, can take one more strong (weak)
    reference without wrapping its counter. *)
Definition strong_room (s : State) (pi : option loc) : bool :=
  match pi with
  | Some a =>
      match heap s !! a with
      | Some r => ReferenceCount.m_use_count r <? 65535
      | None => true
      end
  | None => true
  end.

Definition weak_room (s : State) (pi : option loc) : bool :=
  match pi with
  | Some a =>
      match heap s !! a with
      | Some r => ReferenceCount.m_weak_count r <? 65535
      | None => true
      end
  | None => true
  end.

(** The block behind [pi], if any, still has an owner. *)
Definition unexpired (s : State) (pi : option loc) : bool :=
  match pi with
  | Some a =>
      match heap s !! a with
      | Some r => negb (ReferenceCount.m_use_count r =? 0)
      | None => true
      end
  | None => true
  end.

(** An operation is guarded in [m] when every counter it increments has
    room, and when it is not the explicit construction of a shared pointer
    from an expired weak pointer. *)
Definition guarded (o : op) (m : Machine) : bool :=
  match o with
  | SharedCopy _ y | SharedAlias _ y _ =>
      match shareds m !! y with
      | Some sp => strong_room (mem m) (shared_pi sp)
      | None => true
      end
  | SharedOfWeak _ w =>
      match weaks m !! w with
      | Some wp => strong_room (mem m) (weak_pi wp) && unexpired (mem m) (weak_pi wp)
      | None => true
      end
  | SharedLock _ w =>
      match weaks m !! w with
      | Some wp => strong_room (mem m) (weak_pi wp)
      | None => true
      end
  | SharedAssign x y =>
      match shareds m !! x, shareds m !! y with
      | Some spx, Some spy =>
          bool_decide (shared_pi spx = shared_pi spy) || strong_room (mem m) (shared_pi spy)
      | _, _ => true
      end
  | WeakOfShared _ x | WeakAssignShared _ x =>
      match shareds m !! x with
      | Some sp => weak_room (mem m) (shared_pi sp)
      | None => true
      end
  | WeakCopy _ v | WeakAssign _ v =>
      match weaks m !! v with
      | Some wp => weak_room (mem m) (weak_pi wp)
      | None => true
      end
  | WeakOfWeak _ v | WeakAssignWeak _ v =>
      match weaks m !! v with
      | Some wp => weak_room (mem m) (weak_pi wp) && strong_room (mem m) (weak_pi wp)
      | None => true
      end
  | _ => true
  end.

Fixpoint guarded_run (prog : list op) (m : Machine) : bool :=
  match prog with
  | [] => true
  | o :: prog' =>
      guarded o m &&
      match step o m with
      | Running m' => guarded_run prog' m'
      | _ => true
      end
  end.

(** ** The ledger of references

    The invariant of the engine relates the counters of every block to the
    number of handles that reference it. *)

Definition ind (o : option loc) (a : loc) : nat :=
  if decide (o = Some a) then 1%nat else 0%nat.

Definition gain (o : option loc) (f : loc → nat) (a : loc) : nat :=
  (f a + ind o a)%nat.

Definition lose (o : option loc) (f : loc → nat) (a : loc) : nat :=
  (f a - ind o a)%nat.

(** The number of objects of a store whose handle references [a]. *)
Definition refs {V : Type} (pi : V → option loc) (m : gmap string V) (a : loc) : nat :=
  size (filter (λ kv : string * V, pi kv.2 = Some a) m).

(** A block referenced by [cs] strong and [cw] weak handles: the strong
    count is [cs], the weak count is [cw] plus the implicit reference held
    while there is an owner, and a block without any handle is gone. *)
Definition block_ok (r : option ReferenceCount.t) (cs cw : nat) : Prop :=
  match r with
  | Some r =>
      ReferenceCount.m_use_count r = Z.of_nat cs ∧
      ReferenceCount.m_weak_count r = Z.of_nat cw + (if decide (cs = 0%nat) then 0 else 1) ∧
      (0 < cs + cw)%nat ∧
      ReferenceCount.m_use_count r ≤ 65535 ∧
      ReferenceCount.m_weak_count r ≤ 65535
  | None => cs = 0%nat ∧ cw = 0%nat
  end.

Definition no_underflow (tr : list event) : Prop :=
  Forall (λ e, underflow e = false) tr.

Definition good (s : State) (cs cw : loc → nat) : Prop :=
  (∀ a, block_ok (heap s !! a) (cs a) (cw a)) ∧
  (∀ a, is_Some (heap s !! a) → (a < next s)%positive) ∧
  no_underflow (trace s).

Definition Inv (m : Machine) : Prop :=
  good (mem m) (refs shared_pi (shareds m)) (refs weak_pi (weaks m)).

(** Outcomes of a guarded computation: a result that satisfies [Q], or the
    dereference of a null handle; never the use of a freed block. *)
Definition post {A : Type} (c : M A) (s : State) (Q : A → State → Prop) : Prop :=
  match c s with
  | Ok a s' => Q a s'
  | Fault f => f = NullDeref
  end.

Definition rpost (r : result) (Q : Machine → Prop) : Prop :=
  match r with
  | Running m => Q m
  | Crashed f => f = NullDeref
  | IllFormed => True
  end.

(** A statement that leaves the handle of the object it updates alone. *)
Definition same_handles (m m1 : Machine) : Prop :=
  Inv m1 ∧
  (∀ z, shared_pi <$> shareds m1 !! z = shared_pi <$> shareds m !! z) ∧
  (∀ z, weak_pi <$> weaks m1 !! z = weak_pi <$> weaks m !! z) ∧
  (∀ a, refs shared_pi (shareds m1) a = refs shared_pi (shareds m) a) ∧
  (∀ a, refs weak_pi (weaks m1) a = refs weak_pi (weaks m) a).

(** ** The life of a block *)

Definition is_destroy (a : loc) (e : event) : bool :=
  match e with
  | Destroy b => bool_decide (a = b)
  | _ => false
  end.

(** How often the pointee of the block at [a] has been disposed, and how
    often the block itself has been freed. *)
Definition disposals (s : State) (a : loc) : nat :=
  count_events (is_dispose a) (trace s).

Definition frees (s : State) (a : loc) : nat :=
  count_events (is_destroy a) (trace s).

(** The life of every block: a live block has not been freed, and its
    pointee has been disposed once if its strong count is 0 and never
    otherwise; a block that was allocated and is gone has seen one disposal
    and one free; an address that was never allocated has seen none. *)
Definition lifecycle (s : State) : Prop :=
  ∀ a,
    match heap s !! a with
    | Some r =>
        disposals s a = (if ReferenceCount.m_use_count r =? 0 then 1%nat else 0%nat) ∧
        frees s a = 0%nat
    | None =>
        disposals s a = (if bool_decide (a < next s)%positive then 1%nat else 0%nat) ∧
        frees s a = (if bool_decide (a < next s)%positive then 1%nat else 0%nat)
    end.

Definition sound (s : State) (cs cw : loc → nat) : Prop :=
  good s cs cw ∧ lifecycle s.

(** ** Statements of the specification that the code does not meet *)

(** No program leaves a decrement applied to a counter that held 0. *)
Definition never_underflows (prog : list op) : Prop :=
  ∀ m, run prog boot = Running m → no_underflow (trace (mem m)).

(** [lock()] as specified: on a live block with a non-zero strong count the
    result shares the block and the strong count is one greater than
    before; with a zero strong count the result is empty and the counts are
    untouched. *)
Definition lock_one_greater (wp : weak_ptr.t) (s : State) : Prop :=
  ∀ a r,
    WeakCount.m_pi (weak_ptr.m_refcount wp) = Some a →
    heap s !! a = Some r →
    (ReferenceCount.m_use_count r ≠ 0 →
       ∃ sp s', weak_ptr_lock wp s = Ok sp s' ∧
         SharedCount.m_pi (shared_ptr.m_refcount sp) = Some a ∧
         fst <$> counts s' a = Some (ReferenceCount.m_use_count r + 1)) ∧
    (ReferenceCount.m_use_count r = 0 →
       ∃ s', weak_ptr_lock wp s = Ok shared_ptr_default s' ∧
         counts s' a = counts s a).

(** Assignment to a weak pointer as specified: at every statement boundary
    of the operator at which the target's observer has been overwritten, the
    target's handle already references the source's block [new_pi]. *)
Definition handle_updated_before_observer_cached {S : Type}
    (body : list (weak_ptr.t → S → M weak_ptr.t)) (new_pi : option loc)
    (this : weak_ptr.t) (src : S) (s : State) : Prop :=
  ∀ k this' s',
    statements (take k body) this src s = Ok this' s' →
    weak_ptr.m_ptr this' ≠ weak_ptr.m_ptr this →
    WeakCount.m_pi (weak_ptr.m_refcount this') = new_pi.

(** Assignment between two shared pointers of one block as specified: the
    counts, the liveness and both observers stay as they were. *)
Definition assign_within_block_keeps_observers (x y : string) (m : Machine) : Prop :=
  ∀ spx spy a,
    shareds m !! x = Some spx →
    shareds m !! y = Some spy →
    SharedCount.m_pi (shared_ptr.m_refcount spx) = Some a →
    SharedCount.m_pi (shared_ptr.m_refcount spy) = Some a →
    ∃ m', step (SharedAssign x y) m = Running m' ∧
      counts (mem m') a = counts (mem m) a ∧
      live (mem m') a = live (mem m) a ∧
      shared_ptr_get <$> shareds m' !! x = Some (shared_ptr_get spx) ∧
      shared_ptr_get <$> shareds m' !! y = Some (shared_ptr_get spy).

(** * wlib static strings (lib/wlib/wlib/strings/String.h, StringIterator.h)

    [static_string<tSize>] keeps its characters in [char m_buffer[tSize + 1]]
    and their number in [m_len].  A character is its integer value, ['\0'] is
    [0]; an array is the list of its elements, and an access outside an
    array, which C++ leaves undefined, has no result.  Lengths and positions
    are [size_t]: [size_bits] is its width, and sums and differences that the
    code computes in [size_t] wrap at [2 ^ size_bits].  A member function
    that changes [*this] returns the new value of [*this]; a constructor
    takes the storage it initialises.

    Left out: [push_back] and [operator=(char)], which store a [uint16_t]
    through the character buffer and so depend on the byte order of the
    target; [substr], whose result passes through the copy constructor or
    not as the compiler elides the copy of the returned object; and
    [dynamic_string], whose member functions are only declared. *)

Module static_string.
Record t : Type := mk {
  m_buffer : list Z;
  m_len : Z
}.
End static_string.

Module StringIterator.
(** [m_string] points to a string; the iterator reads its length and its
    characters only. *)
Record t : Type := mk { m_i : Z }.
End StringIterator.

(** Modelled from the spec: [MIN] comes from wlib/stl/Helper.h, one of the
    generic helpers that are assumed available; it is taken as the smaller
    of its two arguments. *)
Definition MIN (a b : Z) : Z := if a <? b then a else b.

(** [buf[i]] read and [buf[i] = c]. *)
Definition peek (buf : list Z) (i : Z) : option Z :=
  if bool_decide (0 ≤ i) then buf !! Z.to_nat i else None.

Definition poke (buf : list Z) (i : Z) (c : Z) : option (list Z) :=
  if bool_decide (0 ≤ i < Z.of_nat (length buf))
  then Some (<[Z.to_nat i := c]> buf) else None.

(** The [n] elements of [buf] from position [from]. *)
Definition chars (buf : list Z) (from n : Z) : list Z :=
  take (Z.to_nat n) (drop (Z.to_nat from) buf).

(** [memcpy(dst + off, src + from, n)] and [memmove], which differ only when
    the two regions overlap, where [memcpy] is undefined. *)
Definition memcpy (dst : list Z) (off : Z) (src : list Z) (from n : Z) : option (list Z) :=
  if bool_decide (0 ≤ off ∧ 0 ≤ from ∧ 0 ≤ n ∧
                  off + n ≤ Z.of_nat (length dst) ∧ from + n ≤ Z.of_nat (length src))
  then Some (take (Z.to_nat off) dst ++ chars src from n ++ drop (Z.to_nat (off + n)) dst)
  else None.

Definition memmove := memcpy.

(** [strlen(str)]: the position of the first ['\0'], none when the array
    holds no terminator. *)
Fixpoint strlen (str : list Z) : option Z :=
  match str with
  | [] => None
  | c :: str' => if c =? 0 then Some 0 else Z.succ <$> strlen str'
  end.

(** [strcmp(s1, s2)]: the two arrays are compared character by character
    up to the first difference or the terminator; characters differ as
    [unsigned char].  Only the sign of the result is fixed by the standard;
    the difference is taken here. *)
Fixpoint strcmp (s1 s2 : list Z) : option Z :=
  match s1, s2 with
  | c1 :: s1', c2 :: s2' =>
      if c1 =? c2 then (if c1 =? 0 then Some 0 else strcmp s1' s2')
      else Some (c1 mod 256 - c2 mod 256)
  | _, _ => None
  end.

(** [compare(const char *str)] *)
Definition static_string_compare_cstr (this : static_string.t) (str : list Z) : option Z :=
  strcmp (static_string.m_buffer this) str.

(** [compare(const static_string<tSize> &str)] *)
Definition static_string_compare (this str : static_string.t) : option Z :=
  static_string_compare_cstr this (static_string.m_buffer str).

(** The comparison operators with a character array on the right:
    [lhs == rhs], [lhs > rhs], [lhs >= rhs], [lhs < rhs], [lhs <= rhs]. *)
Definition static_string_eq_cstr (lhs : static_string.t) (rhs : list Z) : option bool :=
  c ← static_string_compare_cstr lhs rhs; Some (c =? 0).

Definition static_string_gt_cstr (lhs : static_string.t) (rhs : list Z) : option bool :=
  c ← static_string_compare_cstr lhs rhs; Some (0 <? c).

Definition static_string_ge_cstr (lhs : static_string.t) (rhs : list Z) : option bool :=
  c ← static_string_compare_cstr lhs rhs; Some (0 <=? c).

Definition static_string_lt_cstr (lhs : static_string.t) (rhs : list Z) : option bool :=
  c ← static_string_compare_cstr lhs rhs; Some (c <? 0).

Definition static_string_le_cstr (lhs : static_string.t) (rhs : list Z) : option bool :=
  c ← static_string_compare_cstr lhs rhs; Some (c <=? 0).

(** The comparison operators with a character array on the left:
    [lhs == rhs] is [rhs.compare(lhs) == 0], [lhs > rhs] is
    [rhs.compare(lhs) <= 0], [lhs >= rhs] is [rhs.compare(lhs) < 0],
    [lhs < rhs] is [rhs.compare(lhs) >= 0] and [lhs <= rhs] is
    [rhs.compare(lhs) > 0]. *)
Definition cstr_eq_static_string (lhs : list Z) (rhs : static_string.t) : option bool :=
  c ← static_string_compare_cstr rhs lhs; Some (c =? 0).

Definition cstr_gt_static_string (lhs : list Z) (rhs : static_string.t) : option bool :=
  c ← static_string_compare_cstr rhs lhs; Some (c <=? 0).

Definition cstr_ge_static_string (lhs : list Z) (rhs : static_string.t) : option bool :=
  c ← static_string_compare_cstr rhs lhs; Some (c <? 0).

Definition cstr_lt_static_string (lhs : list Z) (rhs : static_string.t) : option bool :=
  c ← static_string_compare_cstr rhs lhs; Some (0 <=? c).

Definition cstr_le_static_string (lhs : list Z) (rhs : static_string.t) : option bool :=
  c ← static_string_compare_cstr rhs lhs; Some (0 <? c).

Section static_strings.
(** The width of [size_t] and the capacity of the string. *)
Variables (size_bits tSize : Z).

(** [static_cast<size_type>] of a sum or difference of sizes. *)
Definition size_cast (z : Z) : Z := z mod 2 ^ size_bits.

(** [clear()] *)
Definition static_string_clear (this : static_string.t) : option static_string.t :=
  buf ← poke (static_string.m_buffer this) 0 0;
  Some (static_string.mk buf 0).

(** [static_string<tSize>()] on the storage [raw]. *)
Definition static_string_default (raw : list Z) : option static_string.t :=
  static_string_clear (static_string.mk raw 0).

(** [static_string<tSize>(const char *str, size_type len)] *)
Definition static_string_of (raw : list Z) (str : list Z) (len : Z) : option static_string.t :=
  let m_len := MIN len tSize in
  buf ← memcpy raw 0 str 0 m_len;
  buf ← poke buf m_len 0;
  Some (static_string.mk buf m_len).

(** [explicit static_string<tSize>(const char *str)] *)
Definition static_string_of_cstr (raw : list Z) (str : list Z) : option static_string.t :=
  len ← strlen str;
  static_string_of raw str len.

(** [static_string<tSize>(const static_string<tSize> &str)], which
    delegates to the constructor from [str.c_str()]. *)
Definition static_string_copy (raw : list Z) (str : static_string.t) : option static_string.t :=
  static_string_of_cstr raw (static_string.m_buffer str).

(** [operator=(const static_string<tSize> &str)] *)
Definition static_string_assign (this str : static_string.t) : option static_string.t :=
  let m_len := static_string.m_len str in
  buf ← memcpy (static_string.m_buffer this) 0 (static_string.m_buffer str) 0
        (size_cast (m_len + 1));
  Some (static_string.mk buf m_len).

(** [operator=(const char *str)] *)
Definition static_string_assign_cstr (this : static_string.t) (str : list Z)
    : option static_string.t :=
  len ← strlen str;
  let m_len := MIN len tSize in
  buf ← memcpy (static_string.m_buffer this) 0 str 0 (size_cast (m_len + 1));
  Some (static_string.mk buf m_len).

Definition static_string_length (this : static_string.t) : Z :=
  static_string.m_len this.

Definition static_string_capacity (this : static_string.t) : Z := tSize.

Definition static_string_empty (this : static_string.t) : bool :=
  static_string.m_len this =? 0.

Definition static_string_front (this : static_string.t) : option Z :=
  peek (static_string.m_buffer this) 0.

Definition static_string_back (this : static_string.t) : option Z :=
  if static_string_empty this then peek (static_string.m_buffer this) 0
  else peek (static_string.m_buffer this) (size_cast (static_string.m_len this - 1)).

(** [at(pos)] and [operator[]]. *)
Definition static_string_at (this : static_string.t) (pos : Z) : option Z :=
  if static_string.m_len this <=? pos then static_string_back this
  else peek (static_string.m_buffer this) pos.

Definition static_string_c_str (this : static_string.t) : list Z :=
  static_string.m_buffer this.

(** [append(const char *str, size_type len)] *)
Definition static_string_append (this : static_string.t) (str : list Z) (len : Z)
    : option static_string.t :=
  let m_len := static_string.m_len this in
  let new_len := MIN tSize (size_cast (m_len + len)) in
  buf ← memcpy (static_string.m_buffer this) m_len str 0 (size_cast (new_len - m_len));
  buf ← poke buf new_len 0;
  Some (static_string.mk buf new_len).

(** [append(const static_string<tSize> &str)] and [operator+=]. *)
Definition static_string_append_string (this str : static_string.t) : option static_string.t :=
  static_string_append this (static_string_c_str str) (static_string_length str).

(** [append(const char *str)] and [operator+=] on a character array. *)
Definition static_string_append_cstr (this : static_string.t) (str : list Z)
    : option static_string.t :=
  len ← strlen str;
  static_string_append this str len.

(** [erase(pos)] *)
Definition static_string_erase (this : static_string.t) (pos : Z) : option static_string.t :=
  let m_len := static_string.m_len this in
  if (m_len =? 0) || (m_len <=? pos) then Some this
  else
    let m_len := size_cast (m_len - 1) in
    buf ← memmove (static_string.m_buffer this) pos (static_string.m_buffer this)
          (size_cast (pos + 1)) (size_cast (m_len - pos));
    buf ← poke buf m_len 0;
    Some (static_string.mk buf m_len).

(** [pop_back()] *)
Definition static_string_pop_back (this : static_string.t) : option static_string.t :=
  let m_len := static_string.m_len this in
  if m_len =? 0 then Some this
  else
    let m_len := size_cast (m_len - 1) in
    buf ← poke (static_string.m_buffer this) m_len 0;
    Some (static_string.mk buf m_len).

(** The private constructor
    [static_string(const char *str1, const char *str2, size_type len1, size_type len2)]. *)
Definition static_string_concat (raw : list Z) (str1 str2 : list Z) (len1 len2 : Z)
    : option static_string.t :=
  let m_len := MIN (size_cast (len1 + len2)) tSize in
  let min_len := MIN m_len len1 in
  buf ← memcpy raw 0 str1 0 min_len;
  buf ← memcpy buf min_len str2 0 (size_cast (m_len - min_len));
  buf ← poke buf m_len 0;
  Some (static_string.mk buf m_len).

(** [operator+(const static_string<tSize> &str)] *)
Definition static_string_plus (raw : list Z) (this str : static_string.t)
    : option static_string.t :=
  static_string_concat raw (static_string.m_buffer this) (static_string.m_buffer str)
    (static_string.m_len this) (static_string.m_len str).

(** [compare(char c)]; the difference of two characters is an [int]. *)
Definition static_string_compare_char (this : static_string.t) (c : Z) : option Z :=
  if static_string.m_len this =? 0 then Some (-1)
  else
    b ← peek (static_string.m_buffer this) 0;
    let first := b - c in
    if first =? 0 then Some (if 1 <? static_string.m_len this then 1 else 0)
    else Some first.

(** [operator==(const static_string<tSize> &lhs, const char rhs)] *)
Definition static_string_eq_char (lhs : static_string.t) (rhs : Z) : option bool :=
  if static_string_length lhs =? 1 then
    b ← static_string_at lhs 0; Some (b =? rhs)
  else Some false.

(** ** Iterators

    The member functions of [StringIterator] read the length of the string
    they point to; [len] is that length at the time of the call. *)

(** [check_bounds()] *)
Definition StringIterator_check_bounds (len : Z) (this : StringIterator.t) : StringIterator.t :=
  if len <? StringIterator.m_i this then StringIterator.mk len else this.

(** [StringIterator(size_type i, string_type *string)] *)
Definition StringIterator_new (len : Z) (i : Z) : StringIterator.t :=
  StringIterator_check_bounds len (StringIterator.mk i).

(** [begin()] and [end()] of the string. *)
Definition static_string_begin (this : static_string.t) : StringIterator.t :=
  StringIterator_new (static_string_length this) 0.

Definition static_string_end (this : static_string.t) : StringIterator.t :=
  StringIterator_new (static_string_length this) (static_string.m_len this).

(** [operator*()] *)
Definition StringIterator_deref (s : static_string.t) (this : StringIterator.t) : option Z :=
  static_string_at s (StringIterator.m_i this).

(** [operator++()] and [operator--()] *)
Definition StringIterator_incr (len : Z) (this : StringIterator.t) : StringIterator.t :=
  if StringIterator.m_i this <? len
  then StringIterator.mk (size_cast (StringIterator.m_i this + 1)) else this.

Definition StringIterator_decr (this : StringIterator.t) : StringIterator.t :=
  if 0 <? StringIterator.m_i this
  then StringIterator.mk (size_cast (StringIterator.m_i this - 1)) else this.

(** [operator+(d)] and [operator-(d)] *)
Definition StringIterator_plus (len : Z) (this : StringIterator.t) (d : Z) : StringIterator.t :=
  StringIterator_new len (size_cast (StringIterator.m_i this + d)).

Definition StringIterator_minus (len : Z) (this : StringIterator.t) (d : Z) : StringIterator.t :=
  StringIterator_new len (size_cast (StringIterator.m_i this - d)).

(** [operator+=(d)] and [operator-=(d)] *)
Definition StringIterator_add (len : Z) (this : StringIterator.t) (d : Z) : StringIterator.t :=
  StringIterator_check_bounds len (StringIterator.mk (size_cast (StringIterator.m_i this + d))).

Definition StringIterator_sub (this : StringIterator.t) (d : Z) : StringIterator.t :=
  if StringIterator.m_i this <=? d then StringIterator.mk 0
  else StringIterator.mk (size_cast (StringIterator.m_i this - d)).

(** [operator==] *)
Definition StringIterator_eq (this it : StringIterator.t) : bool :=
  StringIterator.m_i this =? StringIterator.m_i it.
End static_strings.

(** The characters of a string, and a string as the code keeps it: the
    buffer has [tSize + 1] elements, the length is within the capacity and
    the character after the last is the terminator. *)
Definition contents (s : static_string.t) : list Z :=
  chars (static_string.m_buffer s) 0 (static_string.m_len s).

Definition terminated (tSize : Z) (s : static_string.t) : Prop :=
  Z.of_nat (length (static_string.m_buffer s)) = tSize + 1 ∧
  0 ≤ static_string.m_len s ≤ tSize ∧
  peek (static_string.m_buffer s) (static_string.m_len s) = Some 0.

(** * Properties *)

(** ** Arithmetic of the counters *)

Lemma wrap16_small z : 0 ≤ z < 65536 → wrap16 z = z.
Proof. intros H. unfold wrap16. by apply Z.mod_small. Qed.

Lemma wrap16_range z : 0 ≤ wrap16 z < 65536.
Proof. unfold wrap16. apply Z.mod_pos_bound. lia. Qed.

(** ** Running the primitives *)

Section running.
Context {A B : Type}.

Lemma run_bind (c : M A) (k : A → M B) s :
  (c ≫= k) s = match c s with Ok a s' => k a s' | Fault e => Fault e end.
Proof. reflexivity. Qed.

Lemma run_ret (a : A) s : (mret a : M A) s = Ok a s.
Proof. reflexivity. Qed.
End running.

Lemma run_load s a r : heap s !! a = Some r → load a s = Ok r s.
Proof. intros H. unfold load. by rewrite H. Qed.

Lemma run_store s a r :
  store a r s = Ok () (mkState (<[a := r]> (heap s)) (next s) (trace s)).
Proof. reflexivity. Qed.

Lemma run_emit s e :
  emit e s = Ok () (mkState (heap s) (next s) (trace s ++ [e])).
Proof. reflexivity. Qed.

Lemma run_destroy_block s a :
  destroy_block a s = Ok () (mkState (delete a (heap s)) (next s) (trace s)).
Proof. reflexivity. Qed.

Lemma run_create s r :
  create r s = Ok (next s) (mkState (<[next s := r]> (heap s)) (Pos.succ (next s)) (trace s)).
Proof. reflexivity. Qed.

Lemma state_eta s : mkState (heap s) (next s) (trace s) = s.
Proof. by destruct s. Qed.

(** Symbolic execution of a monadic body, one primitive at a time. *)
Ltac mrun :=
  repeat first
    [ rewrite run_bind
    | rewrite run_ret
    | rewrite run_store
    | rewrite run_emit
    | rewrite run_destroy_block
    | rewrite run_create
    | erewrite run_load by (cbn [heap]; first [eassumption | apply lookup_insert_eq])
    | progress cbn [heap next trace] ].

(** Closed goals about a concrete run: evaluate each conjunct in turn. *)
Ltac evaluate :=
  repeat (split; [vm_compute; reflexivity|]); vm_compute; reflexivity.

Ltac fields :=
  cbn [ReferenceCount.m_ptr ReferenceCount.m_use_count ReferenceCount.m_weak_count
       set_use_count set_weak_count
       SharedCount.m_pi WeakCount.m_pi
       shared_ptr.m_refcount shared_ptr.m_ptr weak_ptr.m_refcount weak_ptr.m_ptr] in *.

(** ** The control block *)

Section block.
Variables (s : State) (a : loc) (r : ReferenceCount.t).
Hypothesis Hlive : heap s !! a = Some r.

Let p := ReferenceCount.m_ptr r.
Let u := ReferenceCount.m_use_count r.
Let w := ReferenceCount.m_weak_count r.

Lemma add_copied_reference_run :
  ReferenceCount_add_copied_reference a s =
    Ok () (mkState (<[a := set_use_count r (wrap16 (u + 1))]> (heap s)) (next s)
             (trace s ++ [StrongAdd a u])).
Proof. unfold ReferenceCount_add_copied_reference. by mrun. Qed.

Lemma add_locked_reference_run :
  ReferenceCount_add_locked_reference a s =
    Ok () (mkState
             (<[a := set_use_count r (if u =? 0 then 0 else wrap16 (u + 1))]> (heap s))
             (next s)
             (trace s ++ if u =? 0 then [StrongAdd a 0; StrongReset a] else [StrongAdd a u])).
Proof.
  unfold ReferenceCount_add_locked_reference, exchange_and_add. mrun.
  subst u. destruct (Z.eqb_spec (ReferenceCount.m_use_count r) 0) as [E|E]; mrun.
  - rewrite insert_insert_eq, <- app_assoc, E. reflexivity.
  - reflexivity.
Qed.

Lemma release_run :
  ReferenceCount_release a s =
    Ok () (if u =? 1 then
             if w =? 1 then
               mkState (delete a (heap s)) (next s)
                 (trace s ++ [StrongSub a 1; Dispose a p; WeakSub a 1; Destroy a])
             else
               mkState (<[a := ReferenceCount.mk p 0 (wrap16 (w - 1))]> (heap s)) (next s)
                 (trace s ++ [StrongSub a 1; Dispose a p; WeakSub a w])
           else
             mkState (<[a := set_use_count r (wrap16 (u - 1))]> (heap s)) (next s)
               (trace s ++ [StrongSub a u])).
Proof.
  unfold ReferenceCount_release, ReferenceCount_dispose, ReferenceCount_destroy,
    exchange_and_sub.
  mrun. subst p u w. destruct r as [p u w]. fields.
  destruct (Z.eqb_spec u 1) as [->|Hu]; mrun; [|reflexivity].
  fields. destruct (Z.eqb_spec w 1) as [->|Hw]; mrun.
  - rewrite !delete_insert_eq, <- !app_assoc. reflexivity.
  - rewrite !insert_insert_eq, <- !app_assoc. reflexivity.
Qed.

Lemma add_weak_reference_run :
  ReferenceCount_add_weak_reference a s =
    Ok () (mkState (<[a := set_weak_count r (wrap16 (w + 1))]> (heap s)) (next s)
             (trace s ++ [WeakAdd a w])).
Proof. unfold ReferenceCount_add_weak_reference. by mrun. Qed.

Lemma weak_release_run :
  ReferenceCount_weak_release a s =
    Ok () (if w =? 1 then
             mkState (delete a (heap s)) (next s) (trace s ++ [WeakSub a 1; Destroy a])
           else
             mkState (<[a := set_weak_count r (wrap16 (w - 1))]> (heap s)) (next s)
               (trace s ++ [WeakSub a w])).
Proof.
  unfold ReferenceCount_weak_release, ReferenceCount_destroy, exchange_and_sub.
  mrun. subst w. destruct (Z.eqb_spec (ReferenceCount.m_weak_count r) 1) as [E|E]; mrun.
  - rewrite delete_insert_eq, <- app_assoc, E. reflexivity.
  - reflexivity.
Qed.

Lemma use_count_run : ReferenceCount_use_count a s = Ok u s.
Proof. unfold ReferenceCount_use_count. by mrun. Qed.
End block.

(** C5. Releasing a strong reference on a live control block with strong
    count [u] and weak count [w] always succeeds and writes the strong count
    once, decrementing it by one in [uint16_t] ([u - 1] whenever [0 < u]).
    The pointee is disposed exactly when that write takes the strong count
    from 1 to 0; exactly in that case one decrement of the weak count
    follows, and none otherwise; the block is freed exactly when that weak
    decrement takes the weak count from 1 to 0. *)
Theorem release_strong_spec (s : State) (a : loc) (r : ReferenceCount.t) :
  heap s !! a = Some r →
  let p := ReferenceCount.m_ptr r in
  let u := ReferenceCount.m_use_count r in
  let w := ReferenceCount.m_weak_count r in
  ∃ s' evs,
    ReferenceCount_release a s = Ok () s' ∧
    trace s' = trace s ++ StrongSub a u :: evs ∧
    (0 < u < 65536 → wrap16 (u - 1) = u - 1) ∧
    (u ≠ 1 → evs = [] ∧ counts s' a = Some (wrap16 (u - 1), w)) ∧
    (u = 1 → w ≠ 1 →
       evs = [Dispose a p; WeakSub a w] ∧ counts s' a = Some (0, wrap16 (w - 1))) ∧
    (u = 1 → w = 1 →
       evs = [Dispose a p; WeakSub a 1; Destroy a] ∧ heap s' !! a = None) ∧
    (Dispose a p ∈ evs ↔ u = 1) ∧
    count_events (is_dispose a) evs = (if u =? 1 then 1%nat else 0%nat) ∧
    count_events (is_weak_sub a) evs = (if u =? 1 then 1%nat else 0%nat) ∧
    (Destroy a ∈ evs ↔ u = 1 ∧ w = 1) ∧
    (live s' a = false ↔ u = 1 ∧ w = 1).
Proof.
  intros Hlive p u w. rewrite (release_run s a r Hlive). fold p u w.
  assert (Hsmall : 0 < u < 65536 → wrap16 (u - 1) = u - 1)
    by (intros; apply wrap16_small; lia).
  destruct (Z.eqb_spec u 1) as [Hu|Hu]; [destruct (Z.eqb_spec w 1) as [Hw|Hw]|].
  - eexists _, [Dispose a p; WeakSub a 1; Destroy a]; cbn [trace heap].
    rewrite Hu. split_and!; try done; try (intros; lia).
    + intros _ _. split; [done | apply lookup_delete_eq].
    + split; [done | intros _; rewrite !elem_of_cons; auto].
    + unfold count_events; cbn. by rewrite !bool_decide_eq_true_2.
    + unfold count_events; cbn. by rewrite !bool_decide_eq_true_2.
    + split; [done | intros _; rewrite !elem_of_cons; auto].
    + split; [done | intros _]. unfold live. cbn [heap]. rewrite lookup_delete_eq.
      apply bool_decide_eq_false_2. by intros [? ?].
  - eexists _, [Dispose a p; WeakSub a w]; cbn [trace heap].
    rewrite Hu. split_and!; try done; try (intros; lia).
    + intros _ _. split; [done|]. unfold counts; cbn [heap]. by rewrite lookup_insert_eq.
    + split; [done | intros _; rewrite !elem_of_cons; auto].
    + unfold count_events; cbn. by rewrite !bool_decide_eq_true_2.
    + unfold count_events; cbn. by rewrite !bool_decide_eq_true_2.
    + split; [rewrite !elem_of_cons, elem_of_nil; intros [?|[?|[]]]; discriminate | intros [_ ?]; done].
    + split; [|intros [_ ?]; done]. unfold live. cbn [heap].
      rewrite lookup_insert_eq, bool_decide_eq_true_2; [done | by eexists].
  - eexists _, []; cbn [trace heap].
    split_and!; try done; try (intros; lia).
    + intros _. split; [done|]. unfold counts; cbn [heap].
      rewrite lookup_insert_eq. by destruct r.
    + split; [by rewrite elem_of_nil | done].
    + split; [by rewrite elem_of_nil | intros [? _]; done].
    + split; [|intros [? _]; done]. unfold live. cbn [heap].
      rewrite lookup_insert_eq, bool_decide_eq_true_2; [done | by eexists].
Qed.

Lemma release_strong_spec_witness :
  ∃ s' evs,
    ReferenceCount_release 1%positive
      (mkState {[1%positive := ReferenceCount.mk 5 1 2]} 2%positive []) = Ok () s' ∧
    trace s' = [] ++ StrongSub 1%positive 1 :: evs ∧
    (Dispose 1%positive 5 ∈ evs ↔ 1 = 1) ∧
    (live s' 1%positive = false ↔ 1 = 1 ∧ 2 = 1).
Proof.
  destruct (release_strong_spec
              (mkState {[1%positive := ReferenceCount.mk 5 1 2]} 2%positive [])
              1%positive (ReferenceCount.mk 5 1 2))
    as (s' & evs & H1 & H2 & _ & _ & _ & _ & H3 & _ & _ & _ & H4).
  - cbn [heap]. apply lookup_singleton_eq.
  - exists s', evs. cbn in H2, H3, H4. auto.
Defined.

(** ** The handles and the facades *)

Lemma shared_ptr_copy_run s sp a r :
  SharedCount.m_pi (shared_ptr.m_refcount sp) = Some a →
  heap s !! a = Some r →
  shared_ptr_copy sp s =
    Ok sp (mkState
             (<[a := set_use_count r (wrap16 (ReferenceCount.m_use_count r + 1))]> (heap s))
             (next s) (trace s ++ [StrongAdd a (ReferenceCount.m_use_count r)])).
Proof.
  intros Hpi Hlive. destruct sp as [[pi] p]. fields. subst pi.
  unfold shared_ptr_copy, SharedCount_copy. fields. mrun.
  rewrite (add_copied_reference_run s a r Hlive). by mrun.
Qed.

Lemma shared_ptr_of_weak_run s wp a r :
  WeakCount.m_pi (weak_ptr.m_refcount wp) = Some a →
  heap s !! a = Some r →
  shared_ptr_of_weak wp s =
    Ok (shared_ptr.mk (SharedCount.mk (Some a)) (weak_ptr.m_ptr wp))
       (mkState
          (<[a := set_use_count r
                    (if ReferenceCount.m_use_count r =? 0 then 0
                     else wrap16 (ReferenceCount.m_use_count r + 1))]> (heap s))
          (next s)
          (trace s ++ if ReferenceCount.m_use_count r =? 0
                      then [StrongAdd a 0; StrongReset a]
                      else [StrongAdd a (ReferenceCount.m_use_count r)])).
Proof.
  intros Hpi Hlive. destruct wp as [[pi] p]. fields. subst pi.
  unfold shared_ptr_of_weak, SharedCount_of_weak, deref. fields. mrun.
  rewrite (add_locked_reference_run s a r Hlive). by mrun.
Qed.

Lemma weak_ptr_expired_run s wp a r :
  WeakCount.m_pi (weak_ptr.m_refcount wp) = Some a →
  heap s !! a = Some r →
  weak_ptr_expired wp s = Ok (ReferenceCount.m_use_count r =? 0) s.
Proof.
  intros Hpi Hlive. unfold weak_ptr_expired, WeakCount_use_count, deref.
  rewrite Hpi. mrun. rewrite (use_count_run s a r Hlive). by mrun.
Qed.

Lemma weak_ptr_lock_run s wp a r :
  WeakCount.m_pi (weak_ptr.m_refcount wp) = Some a →
  heap s !! a = Some r →
  weak_ptr_lock wp s =
    if ReferenceCount.m_use_count r =? 0 then Ok shared_ptr_default s
    else Ok (shared_ptr.mk (SharedCount.mk (Some a)) (weak_ptr.m_ptr wp))
           (mkState
              (<[a := set_use_count r (wrap16 (ReferenceCount.m_use_count r + 1))]> (heap s))
              (next s) (trace s ++ [StrongAdd a (ReferenceCount.m_use_count r)])).
Proof.
  intros Hpi Hlive. unfold weak_ptr_lock. mrun.
  rewrite (weak_ptr_expired_run s wp a r Hpi Hlive).
  destruct (Z.eqb_spec (ReferenceCount.m_use_count r) 0) as [E|E]; mrun; [done|].
  rewrite (shared_ptr_of_weak_run s wp a r Hpi Hlive).
  by destruct (Z.eqb_spec (ReferenceCount.m_use_count r) 0).
Qed.

(** C4. On a default-constructed weak pointer both [use_count()] and
    [expired()] dereference the null control-block reference: neither
    returns.  The shared handle's [use_count()], which tests for null,
    returns 0 on a null shared pointer. *)
Theorem null_weak_ptr_queries_dereference_null (s : State) :
  weak_ptr_use_count weak_ptr_default s = Fault NullDeref ∧
  weak_ptr_expired weak_ptr_default s = Fault NullDeref ∧
  shared_ptr_use_count shared_ptr_default s = Ok 0 s.
Proof. split_and!; reflexivity. Qed.

(** C7. When the runtime type check fails, [dynamic_pointer_cast] returns a
    shared pointer that holds no control-block reference and a null
    observer, and leaves the whole state, hence the source's strong count,
    as it was. *)
Theorem dynamic_pointer_cast_failure
    (dynamic_cast : pointer → pointer) (sp : shared_ptr.t) (s : State) :
  dynamic_cast (shared_ptr_get sp) = nullptr →
  ∃ res s',
    dynamic_pointer_cast dynamic_cast sp s = Ok res s' ∧
    SharedCount.m_pi (shared_ptr.m_refcount res) = None ∧
    shared_ptr_get res = nullptr ∧
    s' = s ∧
    shared_ptr_use_count sp s' = shared_ptr_use_count sp s.
Proof.
  intros Hfail. exists shared_ptr_default, s.
  unfold dynamic_pointer_cast. rewrite Hfail. by split_and!.
Qed.

Lemma dynamic_pointer_cast_failure_witness :
  ∃ res s',
    dynamic_pointer_cast (λ _, nullptr)
      (shared_ptr.mk (SharedCount.mk (Some 1%positive)) 5)
      (mkState {[1%positive := ReferenceCount.mk 5 1 1]} 2%positive []) = Ok res s' ∧
    SharedCount.m_pi (shared_ptr.m_refcount res) = None ∧
    shared_ptr_get res = nullptr ∧
    s' = mkState {[1%positive := ReferenceCount.mk 5 1 1]} 2%positive [] ∧
    shared_ptr_use_count (shared_ptr.mk (SharedCount.mk (Some 1%positive)) 5) s' =
      shared_ptr_use_count (shared_ptr.mk (SharedCount.mk (Some 1%positive)) 5)
        (mkState {[1%positive := ReferenceCount.mk 5 1 1]} 2%positive []).
Proof.
  apply (dynamic_pointer_cast_failure (λ _, nullptr)). reflexivity.
Defined.

(** C1. Explicit construction from an expired weak pointer: after
    [shared_ptr<T> A(5); weak_ptr<T> W(A);] and the death of [A] the block
    of [W] has strong count 0, and [shared_ptr<T> S(W)] is not empty: [S]
    references the block, [S.get()] is the stale address 5 and the boolean
    test is true; only [use_count()] is 0. *)
Theorem shared_ptr_of_expired_weak_not_empty :
  ∃ m wp sp s',
    final (take 3 revive) = Some m ∧
    weaks m !! "W" = Some wp ∧
    WeakCount.m_pi (weak_ptr.m_refcount wp) = Some 1%positive ∧
    counts (mem m) 1%positive = Some (0, 1) ∧
    shared_ptr_of_weak wp (mem m) = Ok sp s' ∧
    SharedCount.m_pi (shared_ptr.m_refcount sp) = Some 1%positive ∧
    shared_ptr_get sp = 5 ∧
    shared_ptr_bool sp = true ∧
    shared_ptr_use_count sp s' = Ok 0 s'.
Proof.
  eexists _, _, _, _. evaluate.
Qed.

(** On a block whose strong count is 0 the explicit constructor keeps the
    block and the weak pointer's cached observer. *)
Lemma shared_ptr_of_weak_expired s wp a r :
  WeakCount.m_pi (weak_ptr.m_refcount wp) = Some a →
  heap s !! a = Some r →
  ReferenceCount.m_use_count r = 0 →
  ∃ s', shared_ptr_of_weak wp s =
          Ok (shared_ptr.mk (SharedCount.mk (Some a)) (weak_ptr.m_ptr wp)) s' ∧
        heap s' = heap s ∧
        trace s' = trace s ++ [StrongAdd a 0; StrongReset a].
Proof.
  intros Hpi Hlive Hu. rewrite (shared_ptr_of_weak_run s wp a r Hpi Hlive), Hu.
  eexists. split; [reflexivity|]. cbn. split; [|done].
  apply insert_id. rewrite Hlive. f_equal. destruct r. fields. by subst.
Qed.

(** ** Many owners *)

Lemma set_use_count_same r : set_use_count r (ReferenceCount.m_use_count r) = r.
Proof. by destruct r. Qed.

Lemma copied_count_wrap n : ∀ u, 0 ≤ u < 65536 → copied_count u n = wrap16 (u + Z.of_nat n).
Proof.
  induction n as [|n IH]; intros u Hu.
  - cbn [copied_count]. rewrite wrap16_small; lia.
  - cbn [copied_count]. rewrite IH by apply wrap16_range.
    unfold wrap16. rewrite Zplus_mod_idemp_l. f_equal. lia.
Qed.

Lemma copied_events_only_add f a n :
  (∀ u, f (StrongAdd a u) = false) →
  ∀ u, count_events f (copied_events a u n) = 0%nat.
Proof.
  intros Hf. induction n as [|n IH]; intros u; [done|].
  cbn [copied_events]. unfold count_events in *.
  rewrite filter_cons_False by (rewrite Hf; done). apply IH.
Qed.

Lemma shared_ptr_copies_run n : ∀ s sp a r,
  SharedCount.m_pi (shared_ptr.m_refcount sp) = Some a →
  heap s !! a = Some r →
  shared_ptr_copies n sp s =
    Ok (replicate n sp)
       (mkState
          (<[a := set_use_count r (copied_count (ReferenceCount.m_use_count r) n)]> (heap s))
          (next s)
          (trace s ++ copied_events a (ReferenceCount.m_use_count r) n)).
Proof.
  induction n as [|n IH]; intros s sp a r Hpi Hlive.
  - cbn [shared_ptr_copies copied_count copied_events replicate]. mrun.
    rewrite set_use_count_same, insert_id, app_nil_r, state_eta; done.
  - cbn [shared_ptr_copies copied_count copied_events replicate]. mrun.
    rewrite (shared_ptr_copy_run s sp a r Hpi Hlive), run_bind.
    erewrite IH; [|done|cbn [heap]; apply lookup_insert_eq]. mrun. fields.
    rewrite insert_insert_eq, <- app_assoc. reflexivity.
Qed.

Lemma shared_ptr_owners_run X n :
  shared_ptr_owners X n init =
    Ok (replicate (S n) (shared_ptr.mk (SharedCount.mk (Some 1%positive)) X))
       (mkState {[1%positive := ReferenceCount.mk X (wrap16 (1 + Z.of_nat n)) 1]}
          2%positive (copied_events 1%positive 1 n)).
Proof.
  unfold shared_ptr_owners, shared_ptr_new, SharedCount_new. mrun.
  try rewrite run_bind. erewrite shared_ptr_copies_run; [|done|cbn [heap]; apply lookup_insert_eq].
  mrun. unfold ReferenceCount_new. fields.
  rewrite insert_insert_eq, copied_count_wrap by lia. reflexivity.
Qed.

Lemma owners_and_weak_run X n :
  owners_and_weak X n init =
    Ok (weak_ptr.mk (WeakCount.mk (Some 1%positive)) X)
       (mkState {[1%positive := ReferenceCount.mk X (wrap16 (1 + Z.of_nat n)) 2]}
          2%positive (copied_events 1%positive 1 n ++ [WeakAdd 1%positive 1])).
Proof.
  unfold owners_and_weak, shared_ptr_new, SharedCount_new. mrun.
  erewrite shared_ptr_copies_run; [|done|cbn [heap]; apply lookup_insert_eq].
  unfold weak_ptr_of_shared, WeakCount_of_shared. fields. mrun.
  erewrite add_weak_reference_run by (cbn [heap]; apply lookup_insert_eq).
  mrun. unfold ReferenceCount_new. fields.
  rewrite !insert_insert_eq, copied_count_wrap by lia. reflexivity.
Qed.

Lemma head_replicate_S {A} (n : nat) (x : A) : head (replicate (S n) x) = Some x.
Proof. reflexivity. Qed.

(** C10. The counters are sixteen bits wide: what [exchange_and_add] and
    [exchange_and_sub] leave in the counter is the sum or difference modulo
    2^16, within [0, 2^16).  With 65535 owners of one pointee the strong
    count is 65535; the copy that creates the 65536th owner wraps it to 0.
    The block is then live and nothing has been disposed, yet every owner's
    [use_count()] returns 0, a weak pointer taken from an owner reports
    [expired()], and its [lock()] is empty. *)
Theorem strong_count_wraps_at_65536 (X : pointer) :
  (∀ mem val,
     (exchange_and_add mem val).2 = (mem + val) mod 2 ^ 16 ∧
     (exchange_and_sub mem val).2 = (mem - val) mod 2 ^ 16 ∧
     0 ≤ (exchange_and_add mem val).2 < 2 ^ 16 ∧
     0 ≤ (exchange_and_sub mem val).2 < 2 ^ 16) ∧
  (∃ owners s,
     shared_ptr_owners X (Z.to_nat 65534) init = Ok owners s ∧
     Z.of_nat (length owners) = 65535 ∧
     counts s 1%positive = Some (65535, 1)) ∧
  (∃ owners s,
     shared_ptr_owners X (Z.to_nat 65535) init = Ok owners s ∧
     Z.of_nat (length owners) = 65536 ∧
     Forall (λ sp, SharedCount.m_pi (shared_ptr.m_refcount sp) = Some 1%positive) owners ∧
     counts s 1%positive = Some (0, 1) ∧
     live s 1%positive = true ∧
     count_events (is_dispose 1%positive) (trace s) = 0%nat ∧
     Forall (λ sp, shared_ptr_use_count sp s = Ok 0 s) owners ∧
     ∃ A W s',
       head owners = Some A ∧
       weak_ptr_of_shared A s = Ok W s' ∧
       weak_ptr_use_count W s' = Ok 0 s' ∧
       weak_ptr_expired W s' = Ok true s' ∧
       weak_ptr_lock W s' = Ok shared_ptr_default s').
Proof.
  assert (Hto : ∀ z, 0 ≤ z → wrap16 (1 + Z.of_nat (Z.to_nat z)) = wrap16 (1 + z))
    by (intros z Hz; by rewrite Z2Nat.id).
  split; [|split].
  - intros mem val. unfold exchange_and_add, exchange_and_sub, wrap16. cbn [snd].
    change (2 ^ 16) with 65536.
    split; [done|]. split; [done|]. split; apply Z.mod_pos_bound; lia.
  - eexists _, _. rewrite shared_ptr_owners_run, Hto by lia.
    split; [reflexivity|]. split.
    + rewrite length_replicate, Nat2Z.inj_succ, Z2Nat.id; lia.
    + unfold counts. cbn [heap]. rewrite lookup_singleton_eq. reflexivity.
  - eexists _, _. rewrite shared_ptr_owners_run, Hto by lia.
    change (wrap16 (1 + 65535)) with 0.
    split; [reflexivity|]. split; [|split; [|split; [|split; [|split; [|split]]]]].
    + rewrite length_replicate, Nat2Z.inj_succ, Z2Nat.id; lia.
    + apply Forall_replicate. reflexivity.
    + unfold counts. cbn [heap]. rewrite lookup_singleton_eq. reflexivity.
    + unfold live. cbn [heap]. rewrite lookup_singleton_eq.
      apply bool_decide_eq_true_2. by eexists.
    + cbn [trace]. apply copied_events_only_add. reflexivity.
    + apply Forall_replicate. unfold shared_ptr_use_count, SharedCount_use_count. fields.
      erewrite use_count_run by (cbn [heap]; apply lookup_singleton_eq). reflexivity.
    + eexists _, _, _. split; [apply head_replicate_S|]. split.
      { unfold weak_ptr_of_shared, WeakCount_of_shared. fields. mrun.
        erewrite add_weak_reference_run by (cbn [heap]; apply lookup_singleton_eq).
        mrun. reflexivity. }
      split.
      { unfold weak_ptr_use_count, WeakCount_use_count, deref. fields. mrun.
        erewrite use_count_run by (cbn [heap]; apply lookup_insert_eq). reflexivity. }
      split.
      { erewrite weak_ptr_expired_run; [|reflexivity|cbn [heap]; apply lookup_insert_eq].
        reflexivity. }
      erewrite weak_ptr_lock_run; [|reflexivity|cbn [heap]; apply lookup_insert_eq].
      reflexivity.
Qed.

(** ** Locking *)

(** C2, as stated, fails when the strong count is full: with 65535 owners
    and a weak pointer on the block, [lock()] shares the block but leaves
    the strong count at 0, not at 65536. *)
Lemma lock_at_full_count_wraps :
  ∃ W s,
    owners_and_weak 5 (Z.to_nat 65534) init = Ok W s ∧
    counts s 1%positive = Some (65535, 2) ∧
    ¬ lock_one_greater W s.
Proof.
  eexists _, _. rewrite owners_and_weak_run.
  assert (Hfull : wrap16 (1 + Z.of_nat (Z.to_nat 65534)) = 65535)
    by (by rewrite Z2Nat.id).
  rewrite Hfull. split; [reflexivity|].
  generalize (copied_events 1%positive 1 (Z.to_nat 65534) ++ [WeakAdd 1%positive 1]).
  intros tr. split.
  - unfold counts. cbn [heap]. rewrite lookup_singleton_eq. reflexivity.
  - intros Hclaim.
    destruct (Hclaim 1%positive (ReferenceCount.mk 5 65535 2)) as [Hlock _];
      [reflexivity | cbn [heap]; apply lookup_singleton_eq |].
    destruct Hlock as (sp & s' & Hrun & _ & Hcount); [done|].
    erewrite weak_ptr_lock_run in Hrun;
      [|reflexivity|cbn [heap]; apply lookup_singleton_eq].
    fields. cbn [Z.eqb] in Hrun. injection Hrun as _ <-.
    unfold counts in Hcount. cbn [heap] in Hcount.
    rewrite lookup_insert_eq in Hcount. cbn in Hcount. discriminate Hcount.
Qed.

(** C2, amended.  On a weak pointer whose control block is live: if the
    strong count [u] is non-zero, [lock()] returns a shared pointer on the
    same block with the weak pointer's observer, and the strong count
    becomes [u + 1] modulo 2^16, that is exactly one greater when
    [u < 65535] and 0 when [u = 65535]; the weak count is unchanged.  If the
    strong count is zero, [lock()] returns the empty shared pointer and the
    state, with both counts, is unchanged. *)
Theorem lock_spec (wp : weak_ptr.t) (s : State) (a : loc) (r : ReferenceCount.t) :
  WeakCount.m_pi (weak_ptr.m_refcount wp) = Some a →
  heap s !! a = Some r →
  let u := ReferenceCount.m_use_count r in
  let w := ReferenceCount.m_weak_count r in
  (u ≠ 0 →
     ∃ s', weak_ptr_lock wp s =
             Ok (shared_ptr.mk (SharedCount.mk (Some a)) (weak_ptr.m_ptr wp)) s' ∧
       trace s' = trace s ++ [StrongAdd a u] ∧
       counts s' a = Some ((u + 1) mod 2 ^ 16, w) ∧
       (0 < u < 65535 → counts s' a = Some (u + 1, w)) ∧
       (u = 65535 → counts s' a = Some (0, w))) ∧
  (u = 0 →
     weak_ptr_lock wp s = Ok shared_ptr_default s ∧
     SharedCount.m_pi (shared_ptr.m_refcount shared_ptr_default) = None).
Proof.
  intros Hpi Hlive u w. rewrite (weak_ptr_lock_run s wp a r Hpi Hlive). fold u.
  split.
  - intros Hu. destruct (Z.eqb_spec u 0) as [|_]; [done|].
    eexists. split; [reflexivity|]. cbn [trace]. split; [done|].
    assert (Hc : counts
                   {| heap := <[a:=set_use_count r (wrap16 (u + 1))]> (heap s);
                      next := next s; trace := trace s ++ [StrongAdd a u] |} a
                 = Some (wrap16 (u + 1), w)).
    { unfold counts. cbn [heap]. rewrite lookup_insert_eq. reflexivity. }
    rewrite Hc. split_and!.
    + reflexivity.
    + intros Hr. rewrite wrap16_small by lia. reflexivity.
    + intros ->. reflexivity.
  - intros ->. split; reflexivity.
Qed.

Lemma lock_spec_witness :
  ∃ s', weak_ptr_lock (weak_ptr.mk (WeakCount.mk (Some 1%positive)) 5)
          (mkState {[1%positive := ReferenceCount.mk 5 1 2]} 2%positive []) =
          Ok (shared_ptr.mk (SharedCount.mk (Some 1%positive)) 5) s' ∧
        counts s' 1%positive = Some (2, 2).
Proof.
  destruct (lock_spec (weak_ptr.mk (WeakCount.mk (Some 1%positive)) 5)
              (mkState {[1%positive := ReferenceCount.mk 5 1 2]} 2%positive [])
              1%positive (ReferenceCount.mk 5 1 2)) as [Hlock _].
  - reflexivity.
  - cbn [heap]. apply lookup_singleton_eq.
  - destruct Hlock as (s' & Hrun & _ & _ & Hcount & _); [done|].
    exists s'. split; [exact Hrun|]. apply Hcount. cbn. lia.
Defined.

(** ** Whole programs *)

(** A sequence of public operations that decrements a strong count
    holding 0: the only owner dies, a shared pointer [S] is built from the
    weak pointer that is left, and [S] dies.  The last counter write is a
    strong decrement applied to 0; the strong count of the block, whose
    pointee has been disposed, is left at 65535 and the weak pointer no
    longer reports [expired()]. *)
Lemma strong_count_underflows_after_revival :
  ∃ m W,
    final (revive ++ [SharedDestroy "S"]) = Some m ∧
    last (trace (mem m)) = Some (StrongSub 1%positive 0) ∧
    existsb underflow (trace (mem m)) = true ∧
    count_events (is_dispose 1%positive) (trace (mem m)) = 1%nat ∧
    counts (mem m) 1%positive = Some (65535, 1) ∧
    weaks m !! "W" = Some W ∧
    weak_ptr_expired W (mem m) = Ok false (mem m).
Proof.
  eexists _, _. evaluate.
Qed.

(** C6. The scenario, step by step: the counts of the block are (1,1) after
    the construction of [A], (2,1) after the copy into [B], (2,2) after the
    construction of [W], (1,2) after the death of [A] and (0,1) after the
    death of [B]; the pointee [X] is disposed by the death of [B] and by no
    other step.  Then [W.expired()] is true and [W.lock()] is empty, both
    without changing the state, and the death of [W] takes the weak count
    from 1 to 0 and frees the block. *)
Theorem scenario_counts (X : pointer) :
  let a := 1%positive in
  observe (take 1 (scenario X)) = Some (Some (1, 1), []) ∧
  observe (take 2 (scenario X)) = Some (Some (2, 1), [StrongAdd a 1]) ∧
  observe (take 3 (scenario X)) = Some (Some (2, 2), [StrongAdd a 1; WeakAdd a 1]) ∧
  observe (take 4 (scenario X)) =
    Some (Some (1, 2), [StrongAdd a 1; WeakAdd a 1; StrongSub a 2]) ∧
  observe (scenario X) =
    Some (Some (0, 1),
          [StrongAdd a 1; WeakAdd a 1; StrongSub a 2;
           StrongSub a 1; Dispose a X; WeakSub a 2]) ∧
  (∃ m W,
     final (scenario X) = Some m ∧
     shareds m = ∅ ∧
     weaks m !! "W" = Some W ∧
     weak_ptr_expired W (mem m) = Ok true (mem m) ∧
     weak_ptr_lock W (mem m) = Ok shared_ptr_default (mem m)) ∧
  observe (scenario X ++ [WeakDestroy "W"]) =
    Some (None,
          [StrongAdd a 1; WeakAdd a 1; StrongSub a 2;
           StrongSub a 1; Dispose a X; WeakSub a 2;
           WeakSub a 1; Destroy a]) ∧
  (∃ m, final (scenario X ++ [WeakDestroy "W"]) = Some m ∧
        live (mem m) a = false ∧ shareds m = ∅ ∧ weaks m = ∅).
Proof.
  cbv zeta. do 5 (split; [vm_compute; reflexivity|]).
  split; [eexists _, _; evaluate|].
  split; [vm_compute; reflexivity|].
  eexists. evaluate.
Qed.

(** ** Assignment between shared pointers *)

(** C9, as stated, fails for an alias: [B] shares the block of [A] and
    observes another address; after [A = B] the observer of [A] is that of
    [B]. *)
Lemma assign_from_alias_changes_observer :
  ∃ m,
    final [SharedNew "A" 5; SharedAlias "B" "A" 7] = Some m ∧
    ¬ assign_within_block_keeps_observers "A" "B" m.
Proof.
  eexists. split; [vm_compute; reflexivity|].
  intros Hclaim.
  destruct (Hclaim (shared_ptr.mk (SharedCount.mk (Some 1%positive)) 5)
              (shared_ptr.mk (SharedCount.mk (Some 1%positive)) 7) 1%positive)
    as (m' & Hstep & _ & _ & HA & _);
    try (vm_compute; reflexivity).
  vm_compute in Hstep. injection Hstep as <-.
  vm_compute in HA. discriminate HA.
Qed.

(** C9, amended.  Assigning [y] to [x] when both shared pointers hold the
    same control-block reference (in particular when [x] is [y]) leaves the
    heap and the trace, hence the strong count and the liveness of the
    block, unchanged, and leaves [y] unchanged; [x] keeps its handle and
    takes the observer of [y].  Nothing at all changes when [x] is [y] or
    when the two observers were equal. *)
Theorem shared_ptr_assign_within_block
    (m : Machine) (x y : string) (spx spy : shared_ptr.t) :
  shareds m !! x = Some spx →
  shareds m !! y = Some spy →
  shared_ptr.m_refcount spx = shared_ptr.m_refcount spy →
  ∃ m',
    step (SharedAssign x y) m = Running m' ∧
    mem m' = mem m ∧
    weaks m' = weaks m ∧
    shareds m' !! y = Some spy ∧
    shareds m' !! x =
      Some (shared_ptr.mk (shared_ptr.m_refcount spx) (shared_ptr.m_ptr spy)) ∧
    (∀ z, z ≠ x → shareds m' !! z = shareds m !! z) ∧
    (x = y → m' = m) ∧
    (shared_ptr_get spx = shared_ptr_get spy → m' = m).
Proof.
  intros Hx Hy Hrc.
  assert (Hspy : shared_ptr.mk (shared_ptr.m_refcount spx) (shared_ptr.m_ptr spy) = spy)
    by (rewrite Hrc; by destruct spy).
  assert (Hy' : <[x := spy]> (shareds m) !! y = Some spy).
  { rewrite lookup_insert. case_decide; [done | exact Hy]. }
  assert (Hstep : step (SharedAssign x y) m =
                  Running (mkMachine (mem m) (<[x := spy]> (shareds m)) (weaks m))).
  { cbn [step]. unfold with_shared at 1. rewrite Hy.
    unfold update_shared at 1. rewrite Hx.
    unfold exec, shared_ptr_assign_observer. rewrite run_ret, Hspy.
    cbn [and_then]. unfold with_shared. cbn [shareds]. rewrite Hy'.
    unfold update_shared. cbn [shareds mem weaks]. rewrite lookup_insert_eq.
    unfold exec, shared_ptr_assign_handle, SharedCount_assign. cbn [mem].
    rewrite decide_False by (intros Hne; by apply Hne).
    mrun. rewrite insert_insert_eq. by destruct spy. }
  assert (Hid : spx = spy → mkMachine (mem m) (<[x := spy]> (shareds m)) (weaks m) = m).
  { intros <-. rewrite insert_id by done. by destruct m. }
  eexists. split; [exact Hstep|]. cbn [mem weaks shareds].
  split_and!; try done.
  - rewrite Hspy. apply lookup_insert_eq.
  - intros z Hz. by rewrite lookup_insert_ne.
  - intros ->. apply Hid. congruence.
  - intros Hget. apply Hid. destruct spx, spy. unfold shared_ptr_get in Hget.
    fields. by subst.
Qed.

Lemma shared_ptr_assign_within_block_witness :
  ∃ m',
    step (SharedAssign "A" "B")
      (mkMachine (mkState {[1%positive := ReferenceCount.mk 5 2 1]} 2%positive [])
         (<["B" := shared_ptr.mk (SharedCount.mk (Some 1%positive)) 7]>
            {["A" := shared_ptr.mk (SharedCount.mk (Some 1%positive)) 5]}) ∅) =
      Running m' ∧
    mem m' = mkState {[1%positive := ReferenceCount.mk 5 2 1]} 2%positive [] ∧
    shareds m' !! "A" = Some (shared_ptr.mk (SharedCount.mk (Some 1%positive)) 7).
Proof.
  destruct (shared_ptr_assign_within_block
              (mkMachine (mkState {[1%positive := ReferenceCount.mk 5 2 1]} 2%positive [])
                 (<["B" := shared_ptr.mk (SharedCount.mk (Some 1%positive)) 7]>
                    {["A" := shared_ptr.mk (SharedCount.mk (Some 1%positive)) 5]}) ∅)
              "A" "B"
              (shared_ptr.mk (SharedCount.mk (Some 1%positive)) 5)
              (shared_ptr.mk (SharedCount.mk (Some 1%positive)) 7))
    as (m' & Hstep & Hmem & _ & _ & HA & _).
  - vm_compute. reflexivity.
  - vm_compute. reflexivity.
  - reflexivity.
  - exists m'. split_and!; [exact Hstep | exact Hmem | exact HA].
Defined.

(** ** Assignment to a weak pointer *)

(** C8, as stated, fails: after the first statement of the assignment from
    a shared pointer the target already caches the source's observer while
    its handle is still the old (here null) one. *)
Lemma weak_ptr_assign_caches_observer_first :
  ∃ A s,
    shared_ptr_new 5 init = Ok A s ∧
    ¬ handle_updated_before_observer_cached weak_ptr_assign_shared_body
        (SharedCount.m_pi (shared_ptr.m_refcount A)) weak_ptr_default A s.
Proof.
  eexists _, _. split; [vm_compute; reflexivity|].
  intros Hclaim.
  specialize (Hclaim 1%nat _ _ eq_refl).
  cbn in Hclaim. discriminate Hclaim. unfold nullptr. lia.
Qed.

Lemma lock_then_drop_count u :
  0 ≤ u < 65536 → u ≠ 0 →
  (wrap16 (u + 1) =? 1) = false ∧ wrap16 (wrap16 (u + 1) - 1) = u.
Proof.
  intros Hr Hu. destruct (decide (u = 65535)) as [->|Hfull]; [done|].
  rewrite (wrap16_small (u + 1)) by lia.
  replace (u + 1 - 1) with u by lia. rewrite wrap16_small by lia.
  split; [lia | done].
Qed.

Section weak_assign.
Variables (this : weak_ptr.t) (s : State) (a : loc) (r : ReferenceCount.t).
Hypothesis Hsrc : heap s !! a = Some r.
Hypothesis Hold : ∀ b, WeakCount.m_pi (weak_ptr.m_refcount this) = Some b → is_Some (heap s !! b).

Let u := ReferenceCount.m_use_count r.
Let w := ReferenceCount.m_weak_count r.

Lemma WeakCount_assign_pi_run s0 :
  heap s0 = heap s →
  ∃ s' tail,
    WeakCount_assign_pi (weak_ptr.m_refcount this) (Some a) s0 =
      Ok (WeakCount.mk (Some a)) s' ∧
    trace s' = trace s0 ++ WeakAdd a w :: tail ∧
    released (WeakCount.m_pi (weak_ptr.m_refcount this)) tail.
Proof.
  intros Hheap. unfold WeakCount_assign_pi. mrun.
  rewrite (add_weak_reference_run s0 a r) by (by rewrite Hheap). mrun.
  destruct (WeakCount.m_pi (weak_ptr.m_refcount this)) as [b|] eqn:Hb.
  - destruct (Hold b eq_refl) as [rb Hrb].
    assert (Hb' : ∃ rb', <[a := set_weak_count r (wrap16 (w + 1))]> (heap s0) !! b = Some rb').
    { rewrite lookup_insert. case_decide; [by eexists|]. rewrite Hheap. by eexists. }
    destruct Hb' as [rb' Hrb'].
    erewrite weak_release_run by (cbn [heap]; exact Hrb').
    destruct (Z.eqb_spec (ReferenceCount.m_weak_count rb') 1) as [E|E]; mrun.
    + eexists _, _. split; [reflexivity|]. cbn [trace]. rewrite <- app_assoc.
      split; [reflexivity|]. exists 1. reflexivity.
    + eexists _, _. split; [reflexivity|]. cbn [trace]. rewrite <- app_assoc.
      split; [reflexivity|]. exists (ReferenceCount.m_weak_count rb').
      destruct (Z.eqb_spec (ReferenceCount.m_weak_count rb') 1); done.
  - eexists _, _. split; [reflexivity|]. cbn [trace]. done.
Qed.

Lemma weak_ptr_assign_shared_order (sp : shared_ptr.t) :
  SharedCount.m_pi (shared_ptr.m_refcount sp) = Some a →
  statements (take 1 weak_ptr_assign_shared_body) this sp s =
    Ok (weak_ptr.mk (weak_ptr.m_refcount this) (shared_ptr.m_ptr sp)) s ∧
  ∃ s' tail,
    statements weak_ptr_assign_shared_body this sp s =
      Ok (weak_ptr.mk (WeakCount.mk (Some a)) (shared_ptr.m_ptr sp)) s' ∧
    weak_ptr_assign_shared this sp s =
      Ok (weak_ptr.mk (WeakCount.mk (Some a)) (shared_ptr.m_ptr sp)) s' ∧
    trace s' = trace s ++ WeakAdd a w :: tail ∧
    released (WeakCount.m_pi (weak_ptr.m_refcount this)) tail.
Proof.
  intros Hpi. split; [reflexivity|].
  destruct (WeakCount_assign_pi_run s eq_refl) as (s' & tail & Hrun & Htr & Hrel).
  exists s', tail.
  assert (Hbody : weak_ptr_assign_shared this sp s =
                  Ok (weak_ptr.mk (WeakCount.mk (Some a)) (shared_ptr.m_ptr sp)) s').
  { unfold weak_ptr_assign_shared, weak_ptr_assign_shared_observer,
      weak_ptr_assign_shared_handle, WeakCount_assign_shared.
    mrun. fields. rewrite Hpi, Hrun. reflexivity. }
  split_and!; try done.
  cbn [statements weak_ptr_assign_shared_body].
  unfold weak_ptr_assign_shared in Hbody. rewrite run_bind in Hbody |- *.
  destruct (weak_ptr_assign_shared_observer this sp s); [|done].
  rewrite run_bind. rewrite Hbody. reflexivity.
Qed.

Lemma weak_ptr_assign_weak_order (wp : weak_ptr.t) :
  WeakCount.m_pi (weak_ptr.m_refcount wp) = Some a →
  0 ≤ u < 65536 →
  let p := if u =? 0 then nullptr else weak_ptr.m_ptr wp in
  let locked := if u =? 0 then [] else [StrongAdd a u; StrongSub a (wrap16 (u + 1))] in
  (∃ s1,
     statements (take 1 weak_ptr_assign_weak_body) this wp s =
       Ok (weak_ptr.mk (weak_ptr.m_refcount this) p) s1 ∧
     heap s1 = heap s ∧
     trace s1 = trace s ++ locked) ∧
  ∃ s' tail,
    statements weak_ptr_assign_weak_body this wp s =
      Ok (weak_ptr.mk (WeakCount.mk (Some a)) p) s' ∧
    weak_ptr_assign_weak this wp s = Ok (weak_ptr.mk (WeakCount.mk (Some a)) p) s' ∧
    trace s' = trace s ++ locked ++ WeakAdd a w :: tail ∧
    released (WeakCount.m_pi (weak_ptr.m_refcount this)) tail.
Proof.
  intros Hpi Hrange p locked.
  assert (Hfirst : ∃ s1,
            weak_ptr_assign_weak_observer this wp s =
              Ok (weak_ptr.mk (weak_ptr.m_refcount this) p) s1 ∧
            heap s1 = heap s ∧ trace s1 = trace s ++ locked).
  { unfold weak_ptr_assign_weak_observer. mrun.
    rewrite (weak_ptr_lock_run s wp a r Hpi Hsrc). fold u. subst p locked.
    destruct (Z.eqb_spec u 0) as [E|E].
    - exists s. unfold shared_ptr_dtor, SharedCount_dtor. cbn. rewrite app_nil_r.
      by destruct s.
    - destruct (lock_then_drop_count u Hrange E) as [Hne Hback].
      unfold shared_ptr_dtor, SharedCount_dtor, shared_ptr_get. fields.
      eexists. rewrite run_bind.
      erewrite release_run by (cbn [heap]; apply lookup_insert_eq). fields.
      rewrite Hne, Hback. mrun. split; [reflexivity|]. cbn [heap trace].
      rewrite insert_insert_eq, <- app_assoc. split; [|done].
      apply insert_id. rewrite Hsrc. subst u. by destruct r. }
  destruct Hfirst as (s1 & Hobs & Hheap & Htr1).
  destruct (WeakCount_assign_pi_run s1 Hheap) as (s' & tail & Hrun & Htr & Hrel).
  assert (Hbody : weak_ptr_assign_weak this wp s =
                  Ok (weak_ptr.mk (WeakCount.mk (Some a)) p) s').
  { unfold weak_ptr_assign_weak. rewrite run_bind, Hobs.
    unfold weak_ptr_assign_weak_handle, WeakCount_assign. mrun. fields.
    rewrite Hpi, Hrun. reflexivity. }
  split.
  - exists s1. split_and!; try done.
    cbn [take statements weak_ptr_assign_weak_body]. rewrite run_bind, Hobs. reflexivity.
  - exists s', tail. split_and!; try done.
    + cbn [statements weak_ptr_assign_weak_body].
      unfold weak_ptr_assign_weak in Hbody. rewrite run_bind in Hbody |- *.
      rewrite Hobs in Hbody |- *. rewrite run_bind, Hbody. reflexivity.
    + rewrite Htr, Htr1, <- app_assoc. reflexivity.
Qed.

Lemma weak_ptr_assign_copy_order (wp : weak_ptr.t) :
  WeakCount.m_pi (weak_ptr.m_refcount wp) = Some a →
  ∃ s' tail,
    statements (take 1 weak_ptr_assign_copy_body) this wp s =
      Ok (weak_ptr.mk (WeakCount.mk (Some a)) (weak_ptr.m_ptr this)) s' ∧
    statements weak_ptr_assign_copy_body this wp s =
      Ok (weak_ptr.mk (WeakCount.mk (Some a)) (weak_ptr.m_ptr wp)) s' ∧
    weak_ptr_assign_copy this wp s =
      Ok (weak_ptr.mk (WeakCount.mk (Some a)) (weak_ptr.m_ptr wp)) s' ∧
    trace s' = trace s ++ WeakAdd a w :: tail ∧
    released (WeakCount.m_pi (weak_ptr.m_refcount this)) tail.
Proof.
  intros Hpi.
  destruct (WeakCount_assign_pi_run s eq_refl) as (s' & tail & Hrun & Htr & Hrel).
  exists s', tail.
  assert (Hhandle : weak_ptr_assign_weak_handle this wp s =
                    Ok (weak_ptr.mk (WeakCount.mk (Some a)) (weak_ptr.m_ptr this)) s').
  { unfold weak_ptr_assign_weak_handle, WeakCount_assign. rewrite run_bind, Hpi, Hrun.
    reflexivity. }
  split_and!; try done.
  - cbn [take statements weak_ptr_assign_copy_body]. rewrite run_bind, Hhandle.
    reflexivity.
  - cbn [statements weak_ptr_assign_copy_body]. rewrite run_bind, Hhandle.
    reflexivity.
  - unfold weak_ptr_assign_copy. rewrite run_bind, Hhandle. reflexivity.
Qed.
End weak_assign.

(** C8, amended.  In the two assignment operators that [weak_ptr] defines,
    with a source that holds a live control block [a], the first statement
    caches the observer and leaves the target's handle and every weak count
    as they were: from a shared source it copies the source's observer and
    changes nothing else; from a weak source it locks the source (a strong
    increment and its release, or nothing and a null observer when the
    source is expired).  Only the second statement updates the handle, and
    there the weak count of the new block is incremented before the old
    block is released.  The implicit copy assignment from a weak pointer of
    the same type updates the handle first, in that same order, and copies
    the observer after. *)
Theorem weak_ptr_assign_order
    (this : weak_ptr.t) (s : State) (a : loc) (r : ReferenceCount.t) :
  heap s !! a = Some r →
  (∀ b, WeakCount.m_pi (weak_ptr.m_refcount this) = Some b → is_Some (heap s !! b)) →
  let u := ReferenceCount.m_use_count r in
  let w := ReferenceCount.m_weak_count r in
  (∀ sp : shared_ptr.t,
     SharedCount.m_pi (shared_ptr.m_refcount sp) = Some a →
     statements (take 1 weak_ptr_assign_shared_body) this sp s =
       Ok (weak_ptr.mk (weak_ptr.m_refcount this) (shared_ptr.m_ptr sp)) s ∧
     ∃ s' tail,
       statements weak_ptr_assign_shared_body this sp s =
         Ok (weak_ptr.mk (WeakCount.mk (Some a)) (shared_ptr.m_ptr sp)) s' ∧
       weak_ptr_assign_shared this sp s =
         Ok (weak_ptr.mk (WeakCount.mk (Some a)) (shared_ptr.m_ptr sp)) s' ∧
       trace s' = trace s ++ WeakAdd a w :: tail ∧
       released (WeakCount.m_pi (weak_ptr.m_refcount this)) tail) ∧
  (∀ wp : weak_ptr.t,
     WeakCount.m_pi (weak_ptr.m_refcount wp) = Some a →
     0 ≤ u < 65536 →
     let p := if u =? 0 then nullptr else weak_ptr.m_ptr wp in
     let locked := if u =? 0 then [] else [StrongAdd a u; StrongSub a (wrap16 (u + 1))] in
     (∃ s1,
        statements (take 1 weak_ptr_assign_weak_body) this wp s =
          Ok (weak_ptr.mk (weak_ptr.m_refcount this) p) s1 ∧
        heap s1 = heap s ∧
        trace s1 = trace s ++ locked) ∧
     ∃ s' tail,
       statements weak_ptr_assign_weak_body this wp s =
         Ok (weak_ptr.mk (WeakCount.mk (Some a)) p) s' ∧
       weak_ptr_assign_weak this wp s = Ok (weak_ptr.mk (WeakCount.mk (Some a)) p) s' ∧
       trace s' = trace s ++ locked ++ WeakAdd a w :: tail ∧
       released (WeakCount.m_pi (weak_ptr.m_refcount this)) tail) ∧
  (∀ wp : weak_ptr.t,
     WeakCount.m_pi (weak_ptr.m_refcount wp) = Some a →
     ∃ s' tail,
       statements (take 1 weak_ptr_assign_copy_body) this wp s =
         Ok (weak_ptr.mk (WeakCount.mk (Some a)) (weak_ptr.m_ptr this)) s' ∧
       statements weak_ptr_assign_copy_body this wp s =
         Ok (weak_ptr.mk (WeakCount.mk (Some a)) (weak_ptr.m_ptr wp)) s' ∧
       weak_ptr_assign_copy this wp s =
         Ok (weak_ptr.mk (WeakCount.mk (Some a)) (weak_ptr.m_ptr wp)) s' ∧
       trace s' = trace s ++ WeakAdd a w :: tail ∧
       released (WeakCount.m_pi (weak_ptr.m_refcount this)) tail).
Proof.
  intros Hsrc Hold u w. split; [|split].
  - intros sp Hpi. by apply weak_ptr_assign_shared_order.
  - intros wp Hpi Hrange. by apply weak_ptr_assign_weak_order.
  - intros wp Hpi. by apply weak_ptr_assign_copy_order.
Qed.

Lemma weak_ptr_assign_order_witness :
  ∃ s' tail,
    weak_ptr_assign_shared
      (weak_ptr.mk (WeakCount.mk (Some 2%positive)) 9)
      (shared_ptr.mk (SharedCount.mk (Some 1%positive)) 5)
      (mkState (<[2%positive := ReferenceCount.mk 9 0 1]>
                  {[1%positive := ReferenceCount.mk 5 1 1]}) 3%positive []) =
      Ok (weak_ptr.mk (WeakCount.mk (Some 1%positive)) 5) s' ∧
    trace s' = [] ++ WeakAdd 1%positive 1 :: tail ∧
    released (Some 2%positive) tail.
Proof.
  destruct (weak_ptr_assign_order
              (weak_ptr.mk (WeakCount.mk (Some 2%positive)) 9)
              (mkState (<[2%positive := ReferenceCount.mk 9 0 1]>
                          {[1%positive := ReferenceCount.mk 5 1 1]}) 3%positive [])
              1%positive (ReferenceCount.mk 5 1 1)) as [Hshared _].
  - vm_compute. reflexivity.
  - intros b [= <-]. exists (ReferenceCount.mk 9 0 1). vm_compute. reflexivity.
  - destruct (Hshared (shared_ptr.mk (SharedCount.mk (Some 1%positive)) 5) eq_refl)
      as (_ & s' & tail & _ & Hrun & Htrace & Hrel).
    exists s', tail. split; [exact Hrun|]. split; [exact Htrace | exact Hrel].
Defined.

(** * The invariant of the engine *)

(** ** Counting the references of a store *)

Section refs.
Context {V : Type} (pi : V → option loc).

Lemma refs_empty a : refs pi ∅ a = 0%nat.
Proof. unfold refs. by rewrite map_filter_empty, map_size_empty. Qed.

Lemma refs_insert_fresh (m : gmap string V) x v a :
  m !! x = None →
  refs pi (<[x := v]> m) a = (refs pi m a + ind (pi v) a)%nat.
Proof.
  intros Hx. unfold refs, ind. rewrite map_filter_insert. cbn [snd].
  destruct (decide (pi v = Some a)) as [E|E].
  - rewrite map_size_insert_None; [lia|].
    apply map_lookup_filter_None. by left.
  - rewrite delete_id by done. lia.
Qed.

Lemma refs_delete (m : gmap string V) x v a :
  m !! x = Some v →
  (refs pi (delete x m) a + ind (pi v) a)%nat = refs pi m a.
Proof.
  intros Hx. rewrite <- (insert_delete_id m x v Hx) at 2.
  rewrite refs_insert_fresh by apply lookup_delete_eq. reflexivity.
Qed.

Lemma refs_insert (m : gmap string V) x v v' a :
  m !! x = Some v →
  (refs pi (<[x := v']> m) a + ind (pi v) a)%nat = (refs pi m a + ind (pi v') a)%nat.
Proof.
  intros Hx. rewrite <- (insert_delete_eq m), refs_insert_fresh by apply lookup_delete_eq.
  rewrite <- (refs_delete m x v a Hx). lia.
Qed.

Lemma refs_pos (m : gmap string V) x v a :
  m !! x = Some v → pi v = Some a → (0 < refs pi m a)%nat.
Proof.
  intros Hx Hpi. rewrite <- (refs_delete m x v a Hx). unfold ind.
  rewrite decide_True by done. lia.
Qed.
End refs.

(** ** Outcomes *)

Lemma post_bind {A B} (c : M A) (k : A → M B) s (Q : B → State → Prop) :
  post c s (λ a s', post (k a) s' Q) → post (c ≫= k) s Q.
Proof. unfold post. rewrite run_bind. by destruct (c s). Qed.

Lemma post_ret {A} (a : A) s (Q : A → State → Prop) : Q a s → post (mret a) s Q.
Proof. done. Qed.

Lemma post_mono {A} (c : M A) s (Q Q' : A → State → Prop) :
  post c s Q → (∀ a s', Q a s' → Q' a s') → post c s Q'.
Proof. unfold post. destruct (c s); auto. Qed.

Lemma rpost_exec {A} (c : M A) m (k : A → State → result) (Q : Machine → Prop) :
  post c (mem m) (λ a s, rpost (k a s) Q) → rpost (exec c m k) Q.
Proof. unfold post, exec. by destruct (c (mem m)). Qed.

Lemma rpost_mono r (Q Q' : Machine → Prop) :
  rpost r Q → (∀ m, Q m → Q' m) → rpost r Q'.
Proof. destruct r; cbn; auto. Qed.

Lemma rpost_and_then r k (Q Q' : Machine → Prop) :
  rpost r Q → (∀ m, Q m → rpost (k m) Q') → rpost (and_then r k) Q'.
Proof. destruct r; cbn; auto. Qed.

(** ** The ledger *)

Ltac ledger :=
  unfold gain, lose, ind in *; repeat case_decide; simplify_eq;
  repeat match goal with
         | H : ?P → _, H' : ?P |- _ =>
             match type of P with Prop => specialize (H H') end
         end;
  try lia.

Lemma good_ext s cs cw cs' cw' :
  (∀ a, cs a = cs' a) → (∀ a, cw a = cw' a) → good s cs cw → good s cs' cw'.
Proof.
  intros Hs Hw (Hb & Hn & Ht). split_and!; [|done|done].
  intros a. rewrite <- Hs, <- Hw. apply Hb.
Qed.

Lemma good_live s cs cw a :
  good s cs cw → (0 < cs a + cw a)%nat →
  ∃ r, heap s !! a = Some r ∧ block_ok (Some r) (cs a) (cw a).
Proof.
  intros (Hb & _ & _) Hpos. specialize (Hb a).
  destruct (heap s !! a) as [r|]; [by exists r|].
  destruct Hb. lia.
Qed.

Lemma no_underflow_app tr evs :
  no_underflow tr → no_underflow evs → no_underflow (tr ++ evs).
Proof. apply Forall_app_2. Qed.

(** A state that differs from a good one in the block at [a] only. *)
Lemma good_update s cs cw cs' cw' a r' tr' :
  good s cs cw →
  is_Some (heap s !! a) →
  block_ok (Some r') (cs' a) (cw' a) →
  (∀ b, b ≠ a → cs' b = cs b ∧ cw' b = cw b) →
  no_underflow tr' →
  good (mkState (<[a := r']> (heap s)) (next s) (trace s ++ tr')) cs' cw'.
Proof.
  intros (Hb & Hn & Ht) Hlive Hok Hother Htr. split_and!; cbn [heap next trace].
  - intros b. destruct (decide (b = a)) as [->|Hne].
    + by rewrite lookup_insert_eq.
    + rewrite lookup_insert_ne by done. destruct (Hother b Hne) as [-> ->]. apply Hb.
  - intros b. destruct (decide (b = a)) as [->|Hne]; [auto|].
    rewrite lookup_insert_ne by done. apply Hn.
  - by apply no_underflow_app.
Qed.

Lemma good_remove s cs cw cs' cw' a tr' :
  good s cs cw →
  cs' a = 0%nat → cw' a = 0%nat →
  (∀ b, b ≠ a → cs' b = cs b ∧ cw' b = cw b) →
  no_underflow tr' →
  good (mkState (delete a (heap s)) (next s) (trace s ++ tr')) cs' cw'.
Proof.
  intros (Hb & Hn & Ht) Hs Hw Hother Htr. split_and!; cbn [heap next trace].
  - intros b. destruct (decide (b = a)) as [->|Hne].
    + by rewrite lookup_delete_eq.
    + rewrite lookup_delete_ne by done. destruct (Hother b Hne) as [-> ->]. apply Hb.
  - intros b. destruct (decide (b = a)) as [->|Hne].
    + rewrite lookup_delete_eq. by intros [? ?].
    + rewrite lookup_delete_ne by done. apply Hn.
  - by apply no_underflow_app.
Qed.


(** ** The primitives keep the ledger *)

Section effects.
Variables (s : State) (cs cw : loc → nat) (a : loc).
Hypothesis Hgood : good s cs cw.

Lemma add_copied_good :
  (0 < cs a)%nat → Z.of_nat (cs a) < 65535 →
  post (ReferenceCount_add_copied_reference a) s
    (λ _ s', good s' (gain (Some a) cs) cw).
Proof.
  intros Hc Hroom. destruct (good_live s cs cw a Hgood) as (r & Hr & Hok); [lia|].
  unfold post. rewrite (add_copied_reference_run s a r Hr).
  destruct Hok as (Hu & Hw & _ & _ & Hwmax).
  apply (good_update s cs cw); [done | by eexists | | | by repeat constructor].
  - cbn. rewrite Hu, wrap16_small by lia. ledger.
  - intros b Hb. ledger.
Qed.

Lemma add_locked_good :
  (0 < cs a)%nat → Z.of_nat (cs a) < 65535 →
  post (ReferenceCount_add_locked_reference a) s
    (λ _ s', good s' (gain (Some a) cs) cw).
Proof.
  intros Hc Hroom. destruct (good_live s cs cw a Hgood) as (r & Hr & Hok); [lia|].
  unfold post. rewrite (add_locked_reference_run s a r Hr).
  destruct Hok as (Hu & Hw & _ & _ & Hwmax).
  destruct (Z.eqb_spec (ReferenceCount.m_use_count r) 0) as [E|E]; [lia|].
  apply (good_update s cs cw); [done | by eexists | | | by repeat constructor].
  - cbn. rewrite Hu, wrap16_small by lia. ledger.
  - intros b Hb. ledger.
Qed.

Lemma release_good :
  (0 < cs a)%nat →
  post (ReferenceCount_release a) s (λ _ s', good s' (lose (Some a) cs) cw).
Proof.
  intros Hc. destruct (good_live s cs cw a Hgood) as (r & Hr & Hok); [lia|].
  unfold post. rewrite (release_run s a r Hr).
  destruct Hok as (Hu & Hw & _ & Humax & Hwmax).
  destruct (Z.eqb_spec (ReferenceCount.m_use_count r) 1) as [E1|E1];
    [destruct (Z.eqb_spec (ReferenceCount.m_weak_count r) 1) as [E2|E2]|].
  - apply (good_remove s cs cw); [done| | | |].
    + ledger.
    + ledger.
    + intros b Hb. ledger.
    + repeat constructor.
  - apply (good_update s cs cw); [done | by eexists | | |].
    + cbn. rewrite wrap16_small by ledger. ledger.
    + intros b Hb. ledger.
    + repeat constructor. cbn. ledger.
  - apply (good_update s cs cw); [done | by eexists | | |].
    + cbn. rewrite wrap16_small by lia. ledger.
    + intros b Hb. ledger.
    + repeat constructor. cbn. lia.
Qed.

Lemma add_weak_good :
  (0 < cs a + cw a)%nat →
  Z.of_nat (cw a) + (if decide (cs a = 0%nat) then 0 else 1) < 65535 →
  post (ReferenceCount_add_weak_reference a) s
    (λ _ s', good s' cs (gain (Some a) cw)).
Proof.
  intros Hpos Hroom. destruct (good_live s cs cw a Hgood Hpos) as (r & Hr & Hok).
  unfold post. rewrite (add_weak_reference_run s a r Hr).
  destruct Hok as (Hu & Hw & _ & Humax & _).
  apply (good_update s cs cw); [done | by eexists | | | by repeat constructor].
  - cbn. rewrite Hw, wrap16_small by ledger. ledger.
  - intros b Hb. ledger.
Qed.

Lemma weak_release_good :
  (0 < cw a)%nat →
  post (ReferenceCount_weak_release a) s (λ _ s', good s' cs (lose (Some a) cw)).
Proof.
  intros Hc. destruct (good_live s cs cw a Hgood) as (r & Hr & Hok); [lia|].
  unfold post. rewrite (weak_release_run s a r Hr).
  destruct Hok as (Hu & Hw & _ & Humax & Hwmax).
  destruct (Z.eqb_spec (ReferenceCount.m_weak_count r) 1) as [E|E].
  - apply (good_remove s cs cw); [done| | | |].
    + ledger.
    + ledger.
    + intros b Hb. ledger.
    + repeat constructor.
  - apply (good_update s cs cw); [done | by eexists | | |].
    + cbn. rewrite wrap16_small by ledger. ledger.
    + intros b Hb. ledger.
    + repeat constructor. cbn. ledger.
Qed.

Lemma use_count_good :
  (0 < cs a + cw a)%nat →
  post (ReferenceCount_use_count a) s (λ u s', s' = s ∧ u = Z.of_nat (cs a)).
Proof.
  intros Hpos. destruct (good_live s cs cw a Hgood Hpos) as (r & Hr & Hok).
  unfold post. rewrite (use_count_run s a r Hr). by destruct Hok as (-> & _).
Qed.

Lemma create_good p :
  post (create (ReferenceCount_new p)) s
    (λ b s', good s' (gain (Some b) cs) cw ∧ counts s' b = Some (1, 1)).
Proof.
  unfold post. rewrite run_create. destruct Hgood as (Hb & Hn & Ht).
  assert (Hfresh : heap s !! next s = None).
  { destruct (heap s !! next s) eqn:E; [|done].
    assert (next s < next s)%positive by (apply (Hn (next s)); eexists; exact E). lia. }
  pose proof (Hb (next s)) as Hnext. rewrite Hfresh in Hnext. destruct Hnext as [Hs0 Hw0].
  split; [split_and!; cbn [heap next trace]|].
  - intros b. destruct (decide (b = next s)) as [->|Hne].
    + rewrite lookup_insert_eq. cbn. ledger.
    + rewrite lookup_insert_ne by done. specialize (Hb b).
      replace (gain (Some (next s)) cs b) with (cs b) by ledger. done.
  - intros b. destruct (decide (b = next s)) as [->|Hne]; [lia|].
    rewrite lookup_insert_ne by done. intros Hl. specialize (Hn b Hl). lia.
  - done.
  - unfold counts. cbn [heap]. by rewrite lookup_insert_eq.
Qed.
End effects.


(** ** The handles keep the ledger *)

Section handles.
Variables (s : State) (cs cw : loc → nat).
Hypothesis Hgood : good s cs cw.

Lemma good_gain_none : good s (gain None cs) cw.
Proof. eapply good_ext; [| |exact Hgood]; intros; ledger. Qed.

Lemma good_lose_none : good s (lose None cs) cw.
Proof. eapply good_ext; [| |exact Hgood]; intros; ledger. Qed.

Lemma good_weak_gain_none : good s cs (gain None cw).
Proof. eapply good_ext; [| |exact Hgood]; intros; ledger. Qed.

Lemma good_weak_lose_none : good s cs (lose None cw).
Proof. eapply good_ext; [| |exact Hgood]; intros; ledger. Qed.

Lemma SharedCount_new_good p :
  post (SharedCount_new p) s
    (λ res s', ∃ a, SharedCount.m_pi res = Some a ∧
                    good s' (gain (Some a) cs) cw ∧ counts s' a = Some (1, 1)).
Proof.
  unfold SharedCount_new. apply post_bind.
  eapply post_mono; [apply (create_good s cs cw Hgood)|].
  intros a s' [Hg Hc]. apply post_ret. by exists a.
Qed.

Lemma SharedCount_copy_good sc :
  (∀ a, SharedCount.m_pi sc = Some a → (0 < cs a)%nat ∧ Z.of_nat (cs a) < 65535) →
  post (SharedCount_copy sc) s
    (λ res s', SharedCount.m_pi res = SharedCount.m_pi sc ∧
               good s' (gain (SharedCount.m_pi sc) cs) cw).
Proof.
  intros Hroom. unfold SharedCount_copy. apply post_bind.
  destruct (SharedCount.m_pi sc) as [a|].
  - destruct (Hroom a eq_refl). eapply post_mono; [by apply (add_copied_good s cs cw a Hgood)|].
    intros [] s' Hg. by apply post_ret.
  - apply post_ret, post_ret. split; [done | apply good_gain_none].
Qed.

Lemma SharedCount_of_weak_good wc :
  (∀ a, WeakCount.m_pi wc = Some a → (0 < cs a)%nat ∧ Z.of_nat (cs a) < 65535) →
  post (SharedCount_of_weak wc) s
    (λ res s', SharedCount.m_pi res = WeakCount.m_pi wc ∧
               good s' (gain (WeakCount.m_pi wc) cs) cw).
Proof.
  intros Hroom. unfold SharedCount_of_weak, deref.
  destruct (WeakCount.m_pi wc) as [a|]; [|done].
  apply post_bind, post_ret, post_bind. destruct (Hroom a eq_refl).
  eapply post_mono; [by apply (add_locked_good s cs cw a Hgood)|].
  intros [] s' Hg. by apply post_ret.
Qed.

Lemma SharedCount_dtor_good this :
  (∀ a, SharedCount.m_pi this = Some a → (0 < cs a)%nat) →
  post (SharedCount_dtor this) s
    (λ _ s', good s' (lose (SharedCount.m_pi this) cs) cw).
Proof.
  intros Hheld. unfold SharedCount_dtor.
  destruct (SharedCount.m_pi this) as [a|].
  - apply release_good; auto.
  - apply post_ret, good_lose_none.
Qed.

Lemma WeakCount_add_good (pi : option loc) :
  (∀ a, pi = Some a →
        (0 < cs a + cw a)%nat ∧
        Z.of_nat (cw a) + (if decide (cs a = 0%nat) then 0 else 1) < 65535) →
  post (match pi with
        | Some a => ReferenceCount_add_weak_reference a
        | None => mret ()
        end) s (λ _ s', good s' cs (gain pi cw)).
Proof.
  intros Hroom. destruct pi as [a|].
  - destruct (Hroom a eq_refl). by apply add_weak_good.
  - apply post_ret, good_weak_gain_none.
Qed.

Lemma WeakCount_dtor_good this :
  (∀ a, WeakCount.m_pi this = Some a → (0 < cw a)%nat) →
  post (WeakCount_dtor this) s
    (λ _ s', good s' cs (lose (WeakCount.m_pi this) cw)).
Proof.
  intros Hheld. unfold WeakCount_dtor.
  destruct (WeakCount.m_pi this) as [a|].
  - apply weak_release_good; auto.
  - apply post_ret, good_weak_lose_none.
Qed.

Lemma WeakCount_use_count_good this :
  (∀ a, WeakCount.m_pi this = Some a → (0 < cs a + cw a)%nat) →
  post (WeakCount_use_count this) s
    (λ u s', s' = s ∧ ∃ a, WeakCount.m_pi this = Some a ∧ u = Z.of_nat (cs a)).
Proof.
  intros Hlive. unfold WeakCount_use_count, deref.
  destruct (WeakCount.m_pi this) as [a|]; [|done].
  apply post_bind, post_ret.
  eapply post_mono; [apply (use_count_good s cs cw a Hgood); auto|].
  intros u s' [-> ->]. split; [done|]. by exists a.
Qed.
End handles.

Lemma SharedCount_assign_good s cs cw this sc :
  good s cs cw →
  (∀ a, SharedCount.m_pi this = Some a → (0 < cs a)%nat) →
  (∀ a, SharedCount.m_pi sc = Some a → (0 < cs a)%nat) →
  (SharedCount.m_pi this ≠ SharedCount.m_pi sc →
   ∀ a, SharedCount.m_pi sc = Some a → Z.of_nat (cs a) < 65535) →
  post (SharedCount_assign this sc) s
    (λ res s', SharedCount.m_pi res = SharedCount.m_pi sc ∧
               ∃ cs', good s' cs' cw ∧
                      ∀ b, (cs' b + ind (SharedCount.m_pi this) b =
                            cs b + ind (SharedCount.m_pi sc) b)%nat).
Proof.
  intros Hgood Hthis Hsc Hroom. unfold SharedCount_assign.
  destruct (decide (SharedCount.m_pi sc ≠ SharedCount.m_pi this)) as [Hne|Heq].
  - apply post_bind.
    assert (Hadd : post (match SharedCount.m_pi sc with
                         | Some a => ReferenceCount_add_copied_reference a
                         | None => mret ()
                         end) s (λ _ s', good s' (gain (SharedCount.m_pi sc) cs) cw)).
    { destruct (SharedCount.m_pi sc) as [a|].
      - apply add_copied_good; auto.
      - by apply post_ret, good_gain_none. }
    eapply post_mono; [exact Hadd|]. intros [] s1 Hg1. apply post_bind.
    eapply post_mono.
    { apply (SharedCount_dtor_good s1 _ cw Hg1 this).
      intros a Ha. specialize (Hthis a Ha). ledger. }
    intros [] s2 Hg2. apply post_ret. split; [done|].
    eexists. split; [exact Hg2|]. intros b.
    pose proof (Hthis b). pose proof (Hsc b). ledger.
  - apply post_ret. apply dec_stable in Heq. split; [done|].
    exists cs. split; [done|]. intros b. by rewrite Heq.
Qed.

Lemma WeakCount_assign_pi_good s cs cw this tmp :
  good s cs cw →
  (∀ a, WeakCount.m_pi this = Some a → (0 < cw a)%nat) →
  (∀ a, tmp = Some a →
        (0 < cs a + cw a)%nat ∧
        Z.of_nat (cw a) + (if decide (cs a = 0%nat) then 0 else 1) < 65535) →
  post (WeakCount_assign_pi this tmp) s
    (λ res s', WeakCount.m_pi res = tmp ∧
               ∃ cw', good s' cs cw' ∧
                      ∀ b, (cw' b + ind (WeakCount.m_pi this) b = cw b + ind tmp b)%nat).
Proof.
  intros Hgood Hthis Hroom. unfold WeakCount_assign_pi. apply post_bind.
  eapply post_mono; [by apply (WeakCount_add_good s cs cw Hgood)|].
  intros [] s1 Hg1. apply post_bind. eapply post_mono.
  { apply (WeakCount_dtor_good s1 cs _ Hg1 this).
    intros a Ha. specialize (Hthis a Ha). ledger. }
  intros [] s2 Hg2. apply post_ret. split; [done|].
  eexists. split; [exact Hg2|]. intros b. pose proof (Hthis b). ledger.
Qed.


(** ** The facades keep the ledger *)

Section facades.
Variables (s : State) (cs cw : loc → nat).
Hypothesis Hgood : good s cs cw.

Lemma shared_ptr_new_good p :
  post (shared_ptr_new p) s (λ res s', good s' (gain (shared_pi res) cs) cw).
Proof.
  unfold shared_ptr_new. apply post_bind.
  eapply post_mono; [apply (SharedCount_new_good s cs cw Hgood)|].
  intros rc s' (a & Ha & Hg & _). apply post_ret. unfold shared_pi. cbn. by rewrite Ha.
Qed.

Lemma shared_ptr_alias_good sp p :
  (∀ a, shared_pi sp = Some a → (0 < cs a)%nat ∧ Z.of_nat (cs a) < 65535) →
  post (shared_ptr_alias sp p) s (λ res s', good s' (gain (shared_pi res) cs) cw).
Proof.
  intros Hroom. unfold shared_ptr_alias. apply post_bind.
  eapply post_mono; [by apply (SharedCount_copy_good s cs cw Hgood)|].
  intros rc s' [Hpi Hg]. apply post_ret. unfold shared_pi. cbn. by rewrite Hpi.
Qed.

Lemma shared_ptr_copy_good sp :
  (∀ a, shared_pi sp = Some a → (0 < cs a)%nat ∧ Z.of_nat (cs a) < 65535) →
  post (shared_ptr_copy sp) s (λ res s', good s' (gain (shared_pi res) cs) cw).
Proof. apply shared_ptr_alias_good. Qed.

Lemma shared_ptr_of_weak_good wp :
  (∀ a, weak_pi wp = Some a → (0 < cs a)%nat ∧ Z.of_nat (cs a) < 65535) →
  post (shared_ptr_of_weak wp) s (λ res s', good s' (gain (shared_pi res) cs) cw).
Proof.
  intros Hroom. unfold shared_ptr_of_weak. apply post_bind.
  eapply post_mono; [by apply (SharedCount_of_weak_good s cs cw Hgood)|].
  intros rc s' [Hpi Hg]. apply post_ret. unfold shared_pi. cbn. by rewrite Hpi.
Qed.

Lemma weak_ptr_expired_good wp :
  (∀ a, weak_pi wp = Some a → (0 < cs a + cw a)%nat) →
  post (weak_ptr_expired wp) s
    (λ e s', s' = s ∧ ∃ a, weak_pi wp = Some a ∧ e = (Z.of_nat (cs a) =? 0)).
Proof.
  intros Hlive. unfold weak_ptr_expired. apply post_bind.
  eapply post_mono; [by apply (WeakCount_use_count_good s cs cw Hgood)|].
  intros u s' (-> & a & Ha & ->). apply post_ret. split; [done|]. by exists a.
Qed.

Lemma weak_ptr_lock_good wp :
  (∀ a, weak_pi wp = Some a → (0 < cw a)%nat ∧ Z.of_nat (cs a) < 65535) →
  post (weak_ptr_lock wp) s (λ res s', good s' (gain (shared_pi res) cs) cw).
Proof.
  intros Hroom. unfold weak_ptr_lock. apply post_bind.
  eapply post_mono.
  { apply weak_ptr_expired_good. intros a Ha. destruct (Hroom a Ha). lia. }
  intros e s' (-> & a & Ha & ->). destruct (Hroom a Ha) as [Hw Hs].
  destruct (Z.eqb_spec (Z.of_nat (cs a)) 0) as [E|E].
  - apply post_ret. by apply good_gain_none.
  - apply shared_ptr_of_weak_good. intros b Hb.
    assert (b = a) by congruence. subst b. split; [lia | done].
Qed.

Lemma shared_ptr_dtor_good this :
  (∀ a, shared_pi this = Some a → (0 < cs a)%nat) →
  post (shared_ptr_dtor this) s (λ _ s', good s' (lose (shared_pi this) cs) cw).
Proof. intros Hheld. by apply (SharedCount_dtor_good s cs cw Hgood). Qed.

Lemma weak_ptr_of_shared_good sp :
  (∀ a, shared_pi sp = Some a →
        (0 < cs a + cw a)%nat ∧
        Z.of_nat (cw a) + (if decide (cs a = 0%nat) then 0 else 1) < 65535) →
  post (weak_ptr_of_shared sp) s (λ res s', good s' cs (gain (weak_pi res) cw)).
Proof.
  intros Hroom. unfold weak_ptr_of_shared, WeakCount_of_shared.
  apply post_bind, post_bind.
  eapply post_mono; [by apply (WeakCount_add_good s cs cw Hgood)|].
  intros [] s' Hg. by apply post_ret, post_ret.
Qed.

Lemma weak_ptr_copy_good wp :
  (∀ a, weak_pi wp = Some a →
        (0 < cs a + cw a)%nat ∧
        Z.of_nat (cw a) + (if decide (cs a = 0%nat) then 0 else 1) < 65535) →
  post (weak_ptr_copy wp) s (λ res s', good s' cs (gain (weak_pi res) cw)).
Proof.
  intros Hroom. unfold weak_ptr_copy, WeakCount_copy.
  apply post_bind, post_bind.
  eapply post_mono; [by apply (WeakCount_add_good s cs cw Hgood)|].
  intros [] s' Hg. by apply post_ret, post_ret.
Qed.

Lemma weak_ptr_dtor_good this :
  (∀ a, weak_pi this = Some a → (0 < cw a)%nat) →
  post (weak_ptr_dtor this) s (λ _ s', good s' cs (lose (weak_pi this) cw)).
Proof. intros Hheld. by apply (WeakCount_dtor_good s cs cw Hgood). Qed.
End facades.

Lemma weak_ptr_of_weak_good s cs cw wp :
  good s cs cw →
  (∀ a, weak_pi wp = Some a →
        (0 < cw a)%nat ∧ Z.of_nat (cs a) < 65535 ∧
        Z.of_nat (cw a) + (if decide (cs a = 0%nat) then 0 else 1) < 65535) →
  post (weak_ptr_of_weak wp) s (λ res s', good s' cs (gain (weak_pi res) cw)).
Proof.
  intros Hgood Hroom. unfold weak_ptr_of_weak, WeakCount_copy.
  apply post_bind, post_bind. eapply post_mono.
  { apply (WeakCount_add_good s cs cw Hgood). intros a Ha.
    destruct (Hroom a Ha) as (? & ? & ?). split; [lia | done]. }
  intros [] s1 Hg1. apply post_ret. apply post_bind. eapply post_mono.
  { apply (weak_ptr_lock_good s1 cs _ Hg1). intros a Ha.
    destruct (Hroom a Ha) as (? & ? & ?). split; [ledger | done]. }
  intros tmp s2 Hg2. apply post_bind. eapply post_mono.
  { apply (shared_ptr_dtor_good s2 _ _ Hg2). intros a Ha. ledger. }
  intros [] s3 Hg3. apply post_ret. unfold weak_pi at 1. cbn.
  eapply good_ext; [| |exact Hg3]; intros; ledger.
Qed.

Lemma weak_ptr_assign_weak_observer_good s cs cw this wp :
  good s cs cw →
  (∀ a, weak_pi wp = Some a → (0 < cw a)%nat ∧ Z.of_nat (cs a) < 65535) →
  post (weak_ptr_assign_weak_observer this wp) s
    (λ res s', weak_pi res = weak_pi this ∧ good s' cs cw).
Proof.
  intros Hgood Hroom. unfold weak_ptr_assign_weak_observer. apply post_bind.
  eapply post_mono; [by apply (weak_ptr_lock_good s cs cw Hgood)|].
  intros tmp s1 Hg1. apply post_bind. eapply post_mono.
  { apply (shared_ptr_dtor_good s1 _ cw Hg1). intros a Ha. ledger. }
  intros [] s2 Hg2. apply post_ret. split; [done|].
  eapply good_ext; [| |exact Hg2]; intros; ledger.
Qed.

Lemma weak_ptr_assign_handle_good s cs cw this tmp :
  good s cs cw →
  (∀ a, weak_pi this = Some a → (0 < cw a)%nat) →
  (∀ a, tmp = Some a →
        (0 < cs a + cw a)%nat ∧
        Z.of_nat (cw a) + (if decide (cs a = 0%nat) then 0 else 1) < 65535) →
  post (rc ← WeakCount_assign_pi (weak_ptr.m_refcount this) tmp;
        mret (weak_ptr.mk rc (weak_ptr.m_ptr this))) s
    (λ res s', ∃ cw', good s' cs cw' ∧
                      ∀ b, (cw' b + ind (weak_pi this) b = cw b + ind (weak_pi res) b)%nat).
Proof.
  intros Hgood Hthis Hroom. apply post_bind.
  eapply post_mono; [by apply (WeakCount_assign_pi_good s cs cw)|].
  intros rc s' (Hpi & cw' & Hg & Heq). apply post_ret.
  exists cw'. split; [done|]. unfold weak_pi at 2. cbn. by rewrite Hpi.
Qed.

Lemma shared_ptr_assign_handle_good s cs cw this sp :
  good s cs cw →
  (∀ a, shared_pi this = Some a → (0 < cs a)%nat) →
  (∀ a, shared_pi sp = Some a → (0 < cs a)%nat) →
  (shared_pi this ≠ shared_pi sp →
   ∀ a, shared_pi sp = Some a → Z.of_nat (cs a) < 65535) →
  post (shared_ptr_assign_handle this sp) s
    (λ res s', ∃ cs', good s' cs' cw ∧
                      ∀ b, (cs' b + ind (shared_pi this) b = cs b + ind (shared_pi res) b)%nat).
Proof.
  intros Hgood Hthis Hsp Hroom. unfold shared_ptr_assign_handle. apply post_bind.
  eapply post_mono; [by apply (SharedCount_assign_good s cs cw)|].
  intros rc s' (Hpi & cs' & Hg & Heq). apply post_ret.
  exists cs'. split; [done|]. unfold shared_pi at 2. cbn. by rewrite Hpi.
Qed.

Lemma shared_ptr_reset_good s cs cw this :
  good s cs cw →
  (∀ a, shared_pi this = Some a → (0 < cs a)%nat) →
  post (shared_ptr_reset this) s
    (λ res s', ∃ cs', good s' cs' cw ∧
                      ∀ b, (cs' b + ind (shared_pi this) b = cs b + ind (shared_pi res) b)%nat).
Proof.
  intros Hgood Hthis. unfold shared_ptr_reset, shared_ptr_swap. apply post_bind.
  eapply post_mono; [by apply (shared_ptr_dtor_good s cs cw Hgood)|].
  intros [] s' Hg. apply post_ret. eexists. split; [exact Hg|].
  intros b. pose proof (Hthis b). unfold shared_pi at 3. cbn. ledger.
Qed.

Lemma shared_ptr_reset_to_good s cs cw this p :
  good s cs cw →
  (∀ a, shared_pi this = Some a → (0 < cs a)%nat) →
  post (shared_ptr_reset_to this p) s
    (λ res s', ∃ cs', good s' cs' cw ∧
                      ∀ b, (cs' b + ind (shared_pi this) b = cs b + ind (shared_pi res) b)%nat).
Proof.
  intros Hgood Hthis. unfold shared_ptr_reset_to, shared_ptr_swap. apply post_bind.
  eapply post_mono; [apply (shared_ptr_new_good s cs cw Hgood)|].
  intros fresh s1 Hg1. apply post_bind. eapply post_mono.
  { apply (shared_ptr_dtor_good s1 _ cw Hg1). intros a Ha. specialize (Hthis a Ha). ledger. }
  intros [] s2 Hg2. apply post_ret. eexists. split; [exact Hg2|].
  intros b. pose proof (Hthis b). ledger.
Qed.

Lemma weak_ptr_reset_good s cs cw this :
  good s cs cw →
  (∀ a, weak_pi this = Some a → (0 < cw a)%nat) →
  post (weak_ptr_reset this) s
    (λ res s', ∃ cw', good s' cs cw' ∧
                      ∀ b, (cw' b + ind (weak_pi this) b = cw b + ind (weak_pi res) b)%nat).
Proof.
  intros Hgood Hthis. unfold weak_ptr_reset, weak_ptr_swap. apply post_bind.
  eapply post_mono; [by apply (weak_ptr_dtor_good s cs cw Hgood)|].
  intros [] s' Hg. apply post_ret. eexists. split; [exact Hg|].
  intros b. pose proof (Hthis b). unfold weak_pi at 3. cbn. ledger.
Qed.


(** ** Guards, read on the ledger *)

Section guards.
Variables (s : State) (cs cw : loc → nat).
Hypothesis Hgood : good s cs cw.

Lemma strong_room_ledger pi a :
  strong_room s pi = true → pi = Some a → Z.of_nat (cs a) < 65535.
Proof.
  intros Hroom ->. destruct Hgood as (Hb & _ & _). specialize (Hb a).
  unfold strong_room in Hroom. destruct (heap s !! a) as [r|].
  - destruct Hb as (Hu & _). lia.
  - destruct Hb as [-> _]. lia.
Qed.

Lemma weak_room_ledger pi a :
  weak_room s pi = true → pi = Some a →
  Z.of_nat (cw a) + (if decide (cs a = 0%nat) then 0 else 1) < 65535.
Proof.
  intros Hroom ->. destruct Hgood as (Hb & _ & _). specialize (Hb a).
  unfold weak_room in Hroom. destruct (heap s !! a) as [r|].
  - destruct Hb as (_ & Hw & _). lia.
  - destruct Hb as [-> ->]. by rewrite decide_True.
Qed.

Lemma unexpired_ledger pi a :
  unexpired s pi = true → pi = Some a → (0 < cs a + cw a)%nat → (0 < cs a)%nat.
Proof.
  intros Hun -> Hlive. destruct Hgood as (Hb & _ & _). specialize (Hb a).
  unfold unexpired in Hun. destruct (heap s !! a) as [r|].
  - destruct Hb as (Hu & _). apply negb_true_iff, Z.eqb_neq in Hun. lia.
  - destruct Hb as [Hs Hw]. lia.
Qed.
End guards.

(** ** The store *)

Section store.
Variable m : Machine.
Hypothesis HInv : Inv m.

Let CS := refs shared_pi (shareds m).
Let CW := refs weak_pi (weaks m).

Lemma shared_held x sp a :
  shareds m !! x = Some sp → shared_pi sp = Some a → (0 < CS a)%nat.
Proof. apply refs_pos. Qed.

Lemma weak_held w wp a :
  weaks m !! w = Some wp → weak_pi wp = Some a → (0 < CW a)%nat.
Proof. apply refs_pos. Qed.

Lemma rpost_declare_shared x c :
  post c (mem m) (λ sp s', good s' (gain (shared_pi sp) CS) CW) →
  rpost (declare_shared x c m) Inv.
Proof.
  intros Hc. unfold declare_shared. destruct (shareds m !! x) eqn:Hx; [done|].
  apply rpost_exec. eapply post_mono; [exact Hc|].
  intros sp s' Hg. cbn. unfold Inv. cbn [mem shareds weaks].
  eapply good_ext; [| |exact Hg]; [|done].
  intros a. subst CS. unfold gain. by rewrite refs_insert_fresh.
Qed.

Lemma rpost_declare_weak w c :
  post c (mem m) (λ wp s', good s' CS (gain (weak_pi wp) CW)) →
  rpost (declare_weak w c m) Inv.
Proof.
  intros Hc. unfold declare_weak. destruct (weaks m !! w) eqn:Hw; [done|].
  apply rpost_exec. eapply post_mono; [exact Hc|].
  intros wp s' Hg. cbn. unfold Inv. cbn [mem shareds weaks].
  eapply good_ext; [| |exact Hg]; [done|].
  intros a. subst CW. unfold gain. by rewrite refs_insert_fresh.
Qed.

Lemma rpost_update_shared x c :
  (∀ this, shareds m !! x = Some this →
     post (c this) (mem m)
       (λ sp s', ∃ cs', good s' cs' CW ∧
                        ∀ b, (cs' b + ind (shared_pi this) b = CS b + ind (shared_pi sp) b)%nat)) →
  rpost (update_shared x c m) Inv.
Proof.
  intros Hc. unfold update_shared. destruct (shareds m !! x) as [this|] eqn:Hx; [|done].
  apply rpost_exec. eapply post_mono; [exact (Hc this eq_refl)|].
  intros sp s' (cs' & Hg & Heq). cbn. unfold Inv. cbn [mem shareds weaks].
  eapply good_ext; [| |exact Hg]; [|done].
  intros a. specialize (Heq a). subst CS.
  pose proof (refs_insert shared_pi (shareds m) x this sp a Hx). lia.
Qed.

Lemma rpost_update_weak w c :
  (∀ this, weaks m !! w = Some this →
     post (c this) (mem m)
       (λ wp s', ∃ cw', good s' CS cw' ∧
                        ∀ b, (cw' b + ind (weak_pi this) b = CW b + ind (weak_pi wp) b)%nat)) →
  rpost (update_weak w c m) Inv.
Proof.
  intros Hc. unfold update_weak. destruct (weaks m !! w) as [this|] eqn:Hw; [|done].
  apply rpost_exec. eapply post_mono; [exact (Hc this eq_refl)|].
  intros wp s' (cw' & Hg & Heq). cbn. unfold Inv. cbn [mem shareds weaks].
  eapply good_ext; [| |exact Hg]; [done|].
  intros a. specialize (Heq a). subst CW.
  pose proof (refs_insert weak_pi (weaks m) w this wp a Hw). lia.
Qed.

Lemma rpost_with_shared y k (Q : Machine → Prop) :
  (∀ sp, shareds m !! y = Some sp → rpost (k sp m) Q) →
  rpost (with_shared y k m) Q.
Proof. intros Hk. unfold with_shared. destruct (shareds m !! y); [auto | done]. Qed.

Lemma rpost_with_weak v k (Q : Machine → Prop) :
  (∀ wp, weaks m !! v = Some wp → rpost (k wp m) Q) →
  rpost (with_weak v k m) Q.
Proof. intros Hk. unfold with_weak. destruct (weaks m !! v); [auto | done]. Qed.

Lemma rpost_destroy_shared x :
  rpost (step (SharedDestroy x) m) Inv.
Proof.
  cbn [step]. apply rpost_with_shared. intros this Hx. apply rpost_exec.
  eapply post_mono.
  { apply (shared_ptr_dtor_good (mem m) CS CW HInv). intros a. apply (shared_held x this a Hx). }
  intros [] s' Hg. cbn. unfold Inv. cbn [mem shareds weaks].
  eapply good_ext; [| |exact Hg]; [|done].
  intros a. pose proof (refs_delete shared_pi (shareds m) x this a Hx).
  subst CS. unfold lose. lia.
Qed.

Lemma rpost_destroy_weak w :
  rpost (step (WeakDestroy w) m) Inv.
Proof.
  cbn [step]. apply rpost_with_weak. intros this Hw. apply rpost_exec.
  eapply post_mono.
  { apply (weak_ptr_dtor_good (mem m) CS CW HInv). intros a. apply (weak_held w this a Hw). }
  intros [] s' Hg. cbn. unfold Inv. cbn [mem shareds weaks].
  eapply good_ext; [| |exact Hg]; [done|].
  intros a. pose proof (refs_delete weak_pi (weaks m) w this a Hw).
  subst CW. unfold lose. lia.
Qed.
End store.

Lemma refs_swap {V} (pi : V → option loc) (m : gmap string V) x y vx vy a :
  m !! x = Some vx → m !! y = Some vy →
  refs pi (<[y := vx]> (<[x := vy]> m)) a = refs pi m a.
Proof.
  intros Hx Hy.
  assert (Hy' : <[x := vy]> m !! y = Some vy).
  { rewrite lookup_insert. by case_decide. }
  pose proof (refs_insert pi _ y vy vx a Hy').
  pose proof (refs_insert pi m x vx vy a Hx). lia.
Qed.


Lemma rpost_update_shared_same m x c :
  Inv m →
  (∀ this, shareds m !! x = Some this →
     post (c this) (mem m)
       (λ sp s', shared_pi sp = shared_pi this ∧
                 good s' (refs shared_pi (shareds m)) (refs weak_pi (weaks m)))) →
  rpost (update_shared x c m) (same_handles m).
Proof.
  intros HInv Hc. unfold update_shared.
  destruct (shareds m !! x) as [this|] eqn:Hx; [|done].
  apply rpost_exec. eapply post_mono; [exact (Hc this eq_refl)|].
  intros sp s' (Hpi & Hg). cbn.
  assert (Hrefs : ∀ a, refs shared_pi (<[x := sp]> (shareds m)) a
                       = refs shared_pi (shareds m) a).
  { intros a. pose proof (refs_insert shared_pi (shareds m) x this sp a Hx).
    rewrite Hpi in H. lia. }
  unfold same_handles, Inv. cbn [mem shareds weaks]. split_and!; try done.
  - eapply good_ext; [| |exact Hg]; [|done]. intros a. by rewrite Hrefs.
  - intros z. rewrite lookup_insert. case_decide; [|done]. subst z.
    rewrite Hx. cbn. by rewrite Hpi.
Qed.

Lemma rpost_update_weak_same m w c :
  Inv m →
  (∀ this, weaks m !! w = Some this →
     post (c this) (mem m)
       (λ wp s', weak_pi wp = weak_pi this ∧
                 good s' (refs shared_pi (shareds m)) (refs weak_pi (weaks m)))) →
  rpost (update_weak w c m) (same_handles m).
Proof.
  intros HInv Hc. unfold update_weak.
  destruct (weaks m !! w) as [this|] eqn:Hw; [|done].
  apply rpost_exec. eapply post_mono; [exact (Hc this eq_refl)|].
  intros wp s' (Hpi & Hg). cbn.
  assert (Hrefs : ∀ a, refs weak_pi (<[w := wp]> (weaks m)) a
                       = refs weak_pi (weaks m) a).
  { intros a. pose proof (refs_insert weak_pi (weaks m) w this wp a Hw).
    rewrite Hpi in H. lia. }
  unfold same_handles, Inv. cbn [mem shareds weaks]. split_and!; try done.
  - eapply good_ext; [| |exact Hg]; [done|]. intros a. by rewrite Hrefs.
  - intros z. rewrite lookup_insert. case_decide; [|done]. subst z.
    rewrite Hw. cbn. by rewrite Hpi.
Qed.

Lemma same_shared m m1 z sp1 :
  same_handles m m1 → shareds m1 !! z = Some sp1 →
  ∃ sp, shareds m !! z = Some sp ∧ shared_pi sp1 = shared_pi sp.
Proof.
  intros (_ & Hs & _) Hz. specialize (Hs z). rewrite Hz in Hs. cbn in Hs.
  destruct (shareds m !! z) as [sp|]; [|done]. exists sp. split; [done|].
  cbn in Hs. congruence.
Qed.

Lemma same_weak m m1 z wp1 :
  same_handles m m1 → weaks m1 !! z = Some wp1 →
  ∃ wp, weaks m !! z = Some wp ∧ weak_pi wp1 = weak_pi wp.
Proof.
  intros (_ & _ & Hw & _) Hz. specialize (Hw z). rewrite Hz in Hw. cbn in Hw.
  destruct (weaks m !! z) as [wp|]; [|done]. exists wp. split; [done|].
  cbn in Hw. congruence.
Qed.

(** ** Every guarded operation keeps the invariant *)

Lemma Inv_boot : Inv boot.
Proof.
  split_and!.
  - intros a. cbn [boot mem heap init shareds weaks].
    rewrite lookup_empty. cbn. by rewrite !refs_empty.
  - intros a. cbn. rewrite lookup_empty. by intros [? ?].
  - constructor.
Qed.

Lemma step_Inv (o : op) (m : Machine) :
  Inv m → guarded o m = true → rpost (step o m) Inv.
Proof.
  intros HInv Hguard.
  pose proof (strong_room_ledger _ _ _ HInv) as Hsr.
  pose proof (weak_room_ledger _ _ _ HInv) as Hwr.
  pose proof (unexpired_ledger _ _ _ HInv) as Hun.
  destruct o as [x|x p|x y|x y p|x w|x w|x y|x|x p|x y|x
                |w|w x|w v|w v|w v|w x|w v|w|w v|w]; cbn [step guarded] in *.
  - (* SharedDefault *)
    apply rpost_declare_shared. apply post_ret. by apply good_gain_none.
  - (* SharedNew *)
    apply rpost_declare_shared. by apply shared_ptr_new_good.
  - (* SharedCopy *)
    apply rpost_with_shared. intros sp Hy. rewrite Hy in Hguard.
    apply rpost_declare_shared. apply shared_ptr_copy_good; [done|].
    intros a Ha. split; [exact (shared_held m y sp a Hy Ha) | by eapply Hsr].
  - (* SharedAlias *)
    apply rpost_with_shared. intros sp Hy. rewrite Hy in Hguard.
    apply rpost_declare_shared. apply shared_ptr_alias_good; [done|].
    intros a Ha. split; [exact (shared_held m y sp a Hy Ha) | by eapply Hsr].
  - (* SharedOfWeak *)
    apply rpost_with_weak. intros wp Hw. rewrite Hw in Hguard.
    apply andb_true_iff in Hguard as [Hroom Hlive].
    apply rpost_declare_shared. apply shared_ptr_of_weak_good; [done|].
    intros a Ha. split; [|by eapply Hsr].
    eapply Hun; [done..|]. pose proof (weak_held m w wp a Hw Ha). lia.
  - (* SharedLock *)
    apply rpost_with_weak. intros wp Hw. rewrite Hw in Hguard.
    apply rpost_declare_shared. apply weak_ptr_lock_good; [done|].
    intros a Ha. split; [exact (weak_held m w wp a Hw Ha) | by eapply Hsr].
  - (* SharedAssign *)
    eapply rpost_and_then.
    + apply rpost_with_shared. intros sp Hy.
      apply rpost_update_shared_same; [done|]. intros this Hx.
      apply post_ret. by split.
    + intros m1 Hsame. pose proof Hsame as (HInv1 & _ & _ & Hrs & Hrw).
      apply rpost_with_shared. intros sp1 Hy1.
      destruct (same_shared m m1 y sp1 Hsame Hy1) as (sp & Hy & Hpiy).
      apply rpost_update_shared. intros this1 Hx1.
      destruct (same_shared m m1 x this1 Hsame Hx1) as (this & Hx & Hpix).
      rewrite Hx, Hy in Hguard.
      destruct HInv1 as (Hb1 & Hn1 & Ht1).
      assert (Hg1 : good (mem m1) (refs shared_pi (shareds m)) (refs weak_pi (weaks m))).
      { split_and!; [|done|done]. intros a. rewrite <- Hrs, <- Hrw. apply Hb1. }
      eapply post_mono.
      { apply (shared_ptr_assign_handle_good _ _ _ this1 sp1 Hg1).
        - intros a Ha. rewrite Hpix in Ha. exact (shared_held m x this a Hx Ha).
        - intros a Ha. rewrite Hpiy in Ha. exact (shared_held m y sp a Hy Ha).
        - intros Hne a Ha. rewrite Hpix, Hpiy in Hne. rewrite Hpiy in Ha.
          apply orb_true_iff in Hguard as [Heq|Hroom].
          + by apply bool_decide_eq_true in Heq.
          + by eapply Hsr. }
      intros res s' (cs' & Hg & Heq). exists cs'. split.
      * eapply good_ext; [| |exact Hg]; [done|]. intros a. by rewrite Hrw.
      * intros b. rewrite Hrs. apply Heq.
  - (* SharedReset *)
    apply rpost_update_shared. intros this Hx.
    apply shared_ptr_reset_good; [done|]. intros a Ha. exact (shared_held m x this a Hx Ha).
  - (* SharedResetTo *)
    apply rpost_update_shared. intros this Hx.
    apply shared_ptr_reset_to_good; [done|]. intros a Ha. exact (shared_held m x this a Hx Ha).
  - (* SharedSwap *)
    destruct (shareds m !! x) as [this|] eqn:Hx; [|done].
    destruct (shareds m !! y) as [sp|] eqn:Hy; [|done].
    cbn. unfold Inv. cbn [mem shareds weaks].
    eapply good_ext; [| |exact HInv]; [|done].
    intros a. symmetry. by apply refs_swap.
  - (* SharedDestroy *)
    by apply rpost_destroy_shared.
  - (* WeakDefault *)
    apply rpost_declare_weak. apply post_ret. by apply good_weak_gain_none.
  - (* WeakOfShared *)
    apply rpost_with_shared. intros sp Hx. rewrite Hx in Hguard.
    apply rpost_declare_weak. apply weak_ptr_of_shared_good; [done|].
    intros a Ha. split; [|by eapply Hwr].
    pose proof (shared_held m x sp a Hx Ha). lia.
  - (* WeakCopy *)
    apply rpost_with_weak. intros wp Hv. rewrite Hv in Hguard.
    apply rpost_declare_weak. apply weak_ptr_copy_good; [done|].
    intros a Ha. split; [|by eapply Hwr].
    pose proof (weak_held m v wp a Hv Ha). lia.
  - (* WeakOfWeak *)
    apply rpost_with_weak. intros wp Hv. rewrite Hv in Hguard.
    apply andb_true_iff in Hguard as [Hroomw Hrooms].
    apply rpost_declare_weak. apply weak_ptr_of_weak_good; [done|].
    intros a Ha. split_and!; [exact (weak_held m v wp a Hv Ha) | by eapply Hsr | by eapply Hwr].
  - (* WeakAssign *)
    eapply rpost_and_then.
    + apply rpost_with_weak. intros wp Hv. rewrite Hv in Hguard.
      apply rpost_update_weak. intros this Hw.
      apply weak_ptr_assign_handle_good; [done| |].
      * intros a Ha. exact (weak_held m w this a Hw Ha).
      * intros a Ha. split; [|by eapply Hwr].
        pose proof (weak_held m v wp a Hv Ha). lia.
    + intros m1 HInv1. apply rpost_with_weak. intros wp1 Hv1.
      eapply rpost_mono; [apply (rpost_update_weak_same m1 w _ HInv1)|].
      * intros this1 Hw1. apply post_ret. by split.
      * by intros m2 (HInv2 & _).
  - (* WeakAssignShared *)
    eapply rpost_and_then.
    + apply rpost_with_shared. intros sp Hx.
      apply rpost_update_weak_same; [done|]. intros this Hw.
      apply post_ret. by split.
    + intros m1 Hsame. pose proof Hsame as (HInv1 & _ & _ & Hrs & Hrw).
      apply rpost_with_shared. intros sp1 Hx1.
      destruct (same_shared m m1 x sp1 Hsame Hx1) as (sp & Hx & Hpix).
      apply rpost_update_weak. intros this1 Hw1.
      destruct (same_weak m m1 w this1 Hsame Hw1) as (this & Hw & Hpiw).
      rewrite Hx in Hguard.
      destruct HInv1 as (Hb1 & Hn1 & Ht1).
      assert (Hg1 : good (mem m1) (refs shared_pi (shareds m)) (refs weak_pi (weaks m))).
      { split_and!; [|done|done]. intros a. rewrite <- Hrs, <- Hrw. apply Hb1. }
      eapply post_mono.
      { apply (weak_ptr_assign_handle_good _ _ _ this1 (shared_pi sp1) Hg1).
        - intros a Ha. rewrite Hpiw in Ha. exact (weak_held m w this a Hw Ha).
        - intros a Ha. rewrite Hpix in Ha. split; [|by eapply Hwr].
          pose proof (shared_held m x sp a Hx Ha). lia. }
      intros res s' (cw' & Hg & Heq). exists cw'. split.
      * eapply good_ext; [| |exact Hg]; [|done]. intros a. by rewrite Hrs.
      * intros b. rewrite Hrw. apply Heq.
  - (* WeakAssignWeak *)
    eapply rpost_and_then.
    + apply rpost_with_weak. intros wp Hv. rewrite Hv in Hguard.
      apply andb_true_iff in Hguard as [Hroomw Hrooms].
      apply rpost_update_weak_same; [done|]. intros this Hw.
      apply weak_ptr_assign_weak_observer_good; [done|].
      intros a Ha. split; [exact (weak_held m v wp a Hv Ha) | by eapply Hsr].
    + intros m1 Hsame. pose proof Hsame as (HInv1 & _ & _ & Hrs & Hrw).
      apply rpost_with_weak. intros wp1 Hv1.
      destruct (same_weak m m1 v wp1 Hsame Hv1) as (wp & Hv & Hpiv).
      apply rpost_update_weak. intros this1 Hw1.
      destruct (same_weak m m1 w this1 Hsame Hw1) as (this & Hw & Hpiw).
      rewrite Hv in Hguard.
      apply andb_true_iff in Hguard as [Hroomw Hrooms].
      destruct HInv1 as (Hb1 & Hn1 & Ht1).
      assert (Hg1 : good (mem m1) (refs shared_pi (shareds m)) (refs weak_pi (weaks m))).
      { split_and!; [|done|done]. intros a. rewrite <- Hrs, <- Hrw. apply Hb1. }
      eapply post_mono.
      { apply (weak_ptr_assign_handle_good _ _ _ this1 (weak_pi wp1) Hg1).
        - intros a Ha. rewrite Hpiw in Ha. exact (weak_held m w this a Hw Ha).
        - intros a Ha. rewrite Hpiv in Ha. split; [|by eapply Hwr].
          pose proof (weak_held m v wp a Hv Ha). lia. }
      intros res s' (cw' & Hg & Heq). exists cw'. split.
      * eapply good_ext; [| |exact Hg]; [|done]. intros a. by rewrite Hrs.
      * intros b. rewrite Hrw. apply Heq.
  - (* WeakReset *)
    apply rpost_update_weak. intros this Hw.
    apply weak_ptr_reset_good; [done|]. intros a Ha. exact (weak_held m w this a Hw Ha).
  - (* WeakSwap *)
    destruct (weaks m !! w) as [this|] eqn:Hw; [|done].
    destruct (weaks m !! v) as [wp|] eqn:Hv; [|done].
    cbn. unfold Inv. cbn [mem shareds weaks].
    eapply good_ext; [| |exact HInv]; [done|].
    intros a. symmetry. by apply refs_swap.
  - (* WeakDestroy *)
    by apply rpost_destroy_weak.
Qed.

Lemma run_Inv (prog : list op) : ∀ m,
  Inv m → guarded_run prog m = true → rpost (run prog m) Inv.
Proof.
  induction prog as [|o prog IH]; intros m HInv Hguard; [done|].
  cbn [run guarded_run] in *. apply andb_true_iff in Hguard as [Hg Hrest].
  pose proof (step_Inv o m HInv Hg) as Hstep.
  destruct (step o m) as [m'| |]; cbn in *; auto.
Qed.

(** C3, as stated, fails.  A shared pointer built from an expired weak
    pointer holds a block without having taken a strong count, and its
    death decrements the strong count 0.  Apart from that, the counters are
    sixteen bits wide: the 65536th owner wraps the strong count to 0, and
    the death of any owner then decrements 0. *)
Lemma counts_underflow :
  ¬ never_underflows (revive ++ [SharedDestroy "S"]) ∧
  ∃ owners s A s',
    shared_ptr_owners 5 (Z.to_nat 65535) init = Ok owners s ∧
    head owners = Some A ∧
    shared_ptr_dtor A s = Ok () s' ∧
    last (trace s') = Some (StrongSub 1%positive 0) ∧
    counts s' 1%positive = Some (65535, 1).
Proof.
  split.
  - intros Hclaim.
    destruct strong_count_underflows_after_revival
      as (m & W & Hfinal & _ & Hunder & _).
    unfold final in Hfinal.
    destruct (run (revive ++ [SharedDestroy "S"]) boot) as [m'| |] eqn:Hrun;
      [|done|done].
    injection Hfinal as ->. specialize (Hclaim m Hrun).
    apply existsb_exists in Hunder as (e & He & Hu).
    apply list_elem_of_In in He.
    rewrite (proj1 (Forall_forall _ _) Hclaim e He) in Hu. discriminate Hu.
  - eexists _, _, _, _. rewrite shared_ptr_owners_run.
    rewrite Z2Nat.id by lia. change (wrap16 (1 + 65535)) with 0.
    split; [reflexivity|]. split; [apply head_replicate_S|].
    unfold shared_ptr_dtor, SharedCount_dtor. fields.
    erewrite release_run by (cbn [heap]; apply lookup_singleton_eq). fields.
    change (0 =? 1) with false. cbv iota.
    split; [reflexivity|]. cbn [trace heap]. split.
    + apply last_snoc.
    + unfold counts. cbn [heap]. rewrite lookup_insert_eq. reflexivity.
Qed.

(** C3, amended.  Construction seeds the counts of a new block with (1,1).
    From the empty machine, a sequence of public operations in which every
    counter that is incremented holds less than 65535, and in which no
    shared pointer is explicitly constructed from an expired weak pointer,
    either runs to a machine whose trace contains no decrement applied to a
    counter holding 0, and in which every block is live and counts exactly
    the handles that reference it, or stops at the dereference of a null
    weak pointer; it never touches a freed block. *)
Theorem guarded_programs_never_underflow (prog : list op) :
  guarded_run prog boot = true →
  (∀ p s, ∃ sp a s',
     shared_ptr_new p s = Ok sp s' ∧ shared_pi sp = Some a ∧ counts s' a = Some (1, 1)) ∧
  match run prog boot with
  | Running m => no_underflow (trace (mem m)) ∧ Inv m
  | Crashed f => f = NullDeref
  | IllFormed => True
  end.
Proof.
  intros Hguard. split.
  - intros p s. eexists _, _, _. split; [reflexivity|]. split; [reflexivity|].
    unfold counts. cbn [heap]. rewrite lookup_insert_eq. reflexivity.
  - pose proof (run_Inv prog boot Inv_boot Hguard) as Hrun.
    destruct (run prog boot) as [m| |]; cbn in Hrun; [|done|done].
    split; [|done]. by destruct Hrun as (_ & _ & Htrace).
Qed.

Lemma guarded_programs_never_underflow_witness :
  guarded_run (scenario 5 ++ [WeakDestroy "W"]) boot = true ∧
  match run (scenario 5 ++ [WeakDestroy "W"]) boot with
  | Running m => no_underflow (trace (mem m)) ∧ Inv m
  | Crashed f => f = NullDeref
  | IllFormed => True
  end.
Proof.
  split; [vm_compute; reflexivity|].
  apply (guarded_programs_never_underflow (scenario 5 ++ [WeakDestroy "W"])).
  vm_compute. reflexivity.
Defined.


(** * Further properties of the engine *)

(** ** Counting events *)

Lemma count_events_app f tr evs :
  count_events f (tr ++ evs) = (count_events f tr + count_events f evs)%nat.
Proof. unfold count_events. by rewrite filter_app, length_app. Qed.

Lemma count_events_cons f e tr :
  count_events f (e :: tr) = ((if f e then 1 else 0) + count_events f tr)%nat.
Proof.
  unfold count_events. destruct (f e) eqn:E.
  - by rewrite filter_cons_True.
  - rewrite filter_cons_False; [done|]. by rewrite E.
Qed.

Lemma count_events_nil f : count_events f [] = 0%nat.
Proof. reflexivity. Qed.

(** ** Ownership order *)

Lemma address_inj o1 o2 : address o1 = address o2 → o1 = o2.
Proof. destruct o1, o2; cbn; intros H; try lia; by simplify_eq. Qed.

(** X1.  [owner_before] orders pointers by the address of their control block
    alone: it is irreflexive, asymmetric and transitive; two pointers, shared
    or weak in any combination, are unordered exactly when they reference
    the same block (or both none); and the observer address plays no part. *)
Theorem owner_before_strict_weak_order :
  (∀ x, shared_ptr_owner_before x x = false) ∧
  (∀ x y, shared_ptr_owner_before x y = true → shared_ptr_owner_before y x = false) ∧
  (∀ x y z, shared_ptr_owner_before x y = true → shared_ptr_owner_before y z = true →
            shared_ptr_owner_before x z = true) ∧
  (∀ x y, shared_ptr_owner_before x y = false ∧ shared_ptr_owner_before y x = false ↔
          shared_pi x = shared_pi y) ∧
  (∀ x w, shared_ptr_owner_before_weak x w = false ∧
          weak_ptr_owner_before_shared w x = false ↔
          shared_pi x = weak_pi w) ∧
  (∀ v w, weak_ptr_owner_before v w = false ∧ weak_ptr_owner_before w v = false ↔
          weak_pi v = weak_pi w) ∧
  (∀ h p q y, shared_ptr_owner_before (shared_ptr.mk h p) y =
              shared_ptr_owner_before (shared_ptr.mk h q) y).
Proof.
  unfold shared_ptr_owner_before, shared_ptr_owner_before_weak,
    weak_ptr_owner_before_shared, weak_ptr_owner_before,
    SharedCount_less, SharedCount_less_weak, WeakCount_less, WeakCount_less_shared,
    shared_pi, weak_pi.
  split_and!.
  - intros x. apply Z.ltb_irrefl.
  - intros x y H. apply Z.ltb_lt in H. apply Z.ltb_ge. lia.
  - intros x y z H1 H2. apply Z.ltb_lt in H1, H2. apply Z.ltb_lt. lia.
  - intros x y. rewrite !Z.ltb_ge. split.
    + intros [H1 H2]. apply address_inj. lia.
    + intros ->. lia.
  - intros x w. rewrite !Z.ltb_ge. split.
    + intros [H1 H2]. apply address_inj. lia.
    + intros ->. lia.
  - intros v w. rewrite !Z.ltb_ge. split.
    + intros [H1 H2]. apply address_inj. lia.
    + intros ->. lia.
  - reflexivity.
Qed.

(** ** Counter arithmetic *)

(** X2.  [exchange_and_add] returns the old value of the counter; subtracting
    what was added, or adding what was subtracted, gives the original
    counter back, also when the 16-bit counter wrapped in between. *)
Theorem exchange_round_trip (mem val : Z) :
  0 ≤ mem < 65536 →
  (exchange_and_add mem val).1 = mem ∧
  (exchange_and_sub (exchange_and_add mem val).2 val).1 = (mem + val) mod 65536 ∧
  (exchange_and_sub (exchange_and_add mem val).2 val).2 = mem ∧
  (exchange_and_add (exchange_and_sub mem val).2 val).2 = mem.
Proof.
  intros Hr. unfold exchange_and_add, exchange_and_sub, wrap16. cbn [fst snd].
  split_and!; try done.
  - rewrite Zminus_mod_idemp_l. replace (mem + val - val) with mem by lia.
    by apply Z.mod_small.
  - rewrite Zplus_mod_idemp_l. replace (mem - val + val) with mem by lia.
    by apply Z.mod_small.
Qed.

Lemma exchange_round_trip_witness :
  (exchange_and_sub (exchange_and_add 65535 1).2 1).2 = 65535.
Proof. apply (exchange_round_trip 65535 1). lia. Defined.

(** ** Releasing a weak reference *)

(** X3.  [weak_release] on a live block decrements the weak count once, never
    disposes the pointee, frees the block exactly when the decrement was
    applied to 1, otherwise stores the count less one and leaves the strong
    count alone; no other block is touched. *)
Theorem weak_release_spec (s : State) (a : loc) (r : ReferenceCount.t) :
  heap s !! a = Some r →
  let w := ReferenceCount.m_weak_count r in
  ∃ s' evs,
    ReferenceCount_weak_release a s = Ok () s' ∧
    trace s' = trace s ++ WeakSub a w :: evs ∧
    count_events (is_dispose a) evs = 0%nat ∧
    (w = 1 → evs = [Destroy a] ∧ heap s' = delete a (heap s)) ∧
    (w ≠ 1 →
       evs = [] ∧
       heap s' = <[a := set_weak_count r (wrap16 (w - 1))]> (heap s) ∧
       counts s' a = Some (ReferenceCount.m_use_count r, wrap16 (w - 1))) ∧
    (0 < w < 65536 → wrap16 (w - 1) = w - 1) ∧
    (live s' a = false ↔ w = 1) ∧
    (∀ b, b ≠ a → heap s' !! b = heap s !! b).
Proof.
  intros Hlive w. rewrite (weak_release_run s a r Hlive). fold w.
  destruct (Z.eqb_spec w 1) as [Hw|Hw].
  - eexists _, [Destroy a]. cbn [trace heap]. rewrite Hw.
    split; [reflexivity|]. split; [reflexivity|]. split; [reflexivity|].
    split; [done|]. split; [done|]. split; [intros; by apply wrap16_small|].
    split.
    + split; [done | intros _]. unfold live. cbn [heap]. rewrite lookup_delete_eq.
      apply bool_decide_eq_false_2. by intros [? ?].
    + intros b Hb. cbn [heap]. by rewrite lookup_delete_ne.
  - eexists _, []. cbn [trace heap].
    split; [reflexivity|]. split; [reflexivity|]. split; [reflexivity|].
    split; [done|]. split.
    { intros _. split; [done|]. split; [done|].
      unfold counts. cbn [heap]. by rewrite lookup_insert_eq. }
    split; [intros; apply wrap16_small; lia|]. split.
    + split; [|done]. unfold live. cbn [heap].
      rewrite lookup_insert_eq, bool_decide_eq_true_2; [done | by eexists].
    + intros b Hb. cbn [heap]. by rewrite lookup_insert_ne.
Qed.

Lemma weak_release_spec_witness :
  ∃ s' evs,
    ReferenceCount_weak_release 1%positive
      (mkState {[1%positive := ReferenceCount.mk 5 0 1]} 2%positive []) = Ok () s' ∧
    trace s' = [] ++ WeakSub 1%positive 1 :: evs ∧
    (live s' 1%positive = false ↔ 1 = 1).
Proof.
  destruct (weak_release_spec
              (mkState {[1%positive := ReferenceCount.mk 5 0 1]} 2%positive [])
              1%positive (ReferenceCount.mk 5 0 1))
    as (s' & evs & H1 & H2 & _ & _ & _ & _ & H3 & _).
  - cbn [heap]. apply lookup_singleton_eq.
  - exists s', evs. cbn in H2, H3. auto.
Defined.

(** ** Taking a reference and giving it back *)

Lemma copy_then_drop_count u :
  0 < u < 65535 → (wrap16 (u + 1) =? 1) = false ∧ wrap16 (wrap16 (u + 1) - 1) = u.
Proof.
  intros Hu. rewrite (wrap16_small (u + 1)) by lia.
  replace (u + 1 - 1) with u by lia. rewrite wrap16_small by lia. split; [lia | done].
Qed.

(** X4.  An aliasing shared pointer built from an owner of a live block observes
    the address it was given, raises the strong count by one, and its
    destruction gives the heap back as it was: one increment, one decrement,
    nothing disposed or freed. *)
Theorem alias_then_drop (sp : shared_ptr.t) (p : pointer) (s : State)
    (a : loc) (r : ReferenceCount.t) :
  shared_pi sp = Some a →
  heap s !! a = Some r →
  let u := ReferenceCount.m_use_count r in
  0 < u < 65535 →
  ∃ s1 s2,
    shared_ptr_alias sp p s = Ok (shared_ptr.mk (SharedCount.mk (Some a)) p) s1 ∧
    shared_ptr_get (shared_ptr.mk (SharedCount.mk (Some a)) p) = p ∧
    counts s1 a = Some (u + 1, ReferenceCount.m_weak_count r) ∧
    shared_ptr_dtor (shared_ptr.mk (SharedCount.mk (Some a)) p) s1 = Ok () s2 ∧
    heap s2 = heap s ∧
    trace s2 = trace s ++ [StrongAdd a u; StrongSub a (u + 1)].
Proof.
  intros Hpi Hlive u Hu. destruct sp as [[pi] q]. unfold shared_pi in Hpi. fields. subst pi.
  destruct (copy_then_drop_count u Hu) as [Hne Hback].
  eexists _, _. unfold shared_ptr_alias, SharedCount_copy. fields. mrun.
  rewrite (add_copied_reference_run s a r Hlive). mrun. fold u.
  split; [reflexivity|]. split; [reflexivity|]. split.
  { unfold counts. cbn [heap]. rewrite lookup_insert_eq. cbn.
    by rewrite wrap16_small by lia. }
  unfold shared_ptr_dtor, SharedCount_dtor. fields.
  erewrite release_run by (cbn [heap]; apply lookup_insert_eq). fields.
  rewrite Hne, Hback. split; [reflexivity|]. cbn [heap trace]. split.
  - rewrite insert_insert_eq. apply insert_id. rewrite Hlive. subst u. by destruct r.
  - rewrite <- app_assoc. cbn. by rewrite wrap16_small by lia.
Qed.

Lemma alias_then_drop_witness :
  ∃ s1 s2,
    shared_ptr_alias (shared_ptr.mk (SharedCount.mk (Some 1%positive)) 5) 7
      (mkState {[1%positive := ReferenceCount.mk 5 1 1]} 2%positive []) =
      Ok (shared_ptr.mk (SharedCount.mk (Some 1%positive)) 7) s1 ∧
    shared_ptr_dtor (shared_ptr.mk (SharedCount.mk (Some 1%positive)) 7) s1 = Ok () s2 ∧
    heap s2 = {[1%positive := ReferenceCount.mk 5 1 1]}.
Proof.
  destruct (alias_then_drop (shared_ptr.mk (SharedCount.mk (Some 1%positive)) 5) 7
              (mkState {[1%positive := ReferenceCount.mk 5 1 1]} 2%positive [])
              1%positive (ReferenceCount.mk 5 1 1))
    as (s1 & s2 & H1 & _ & _ & H2 & H3 & _).
  - reflexivity.
  - cbn [heap]. apply lookup_singleton_eq.
  - cbn. lia.
  - exists s1, s2. auto.
Defined.

(** X5.  [weak()] gives a weak pointer to the same block that caches the
    owner's observer and raises the weak count by one, the strong count
    unchanged; destroying that weak pointer gives the heap back as it was. *)
Theorem weak_then_drop (sp : shared_ptr.t) (s : State) (a : loc) (r : ReferenceCount.t) :
  shared_pi sp = Some a →
  heap s !! a = Some r →
  let w := ReferenceCount.m_weak_count r in
  0 < w < 65535 →
  ∃ s1 s2,
    shared_ptr_weak sp s =
      Ok (weak_ptr.mk (WeakCount.mk (Some a)) (shared_ptr.m_ptr sp)) s1 ∧
    counts s1 a = Some (ReferenceCount.m_use_count r, w + 1) ∧
    weak_ptr_dtor (weak_ptr.mk (WeakCount.mk (Some a)) (shared_ptr.m_ptr sp)) s1 = Ok () s2 ∧
    heap s2 = heap s ∧
    trace s2 = trace s ++ [WeakAdd a w; WeakSub a (w + 1)].
Proof.
  intros Hpi Hlive w Hw. destruct sp as [[pi] q]. unfold shared_pi in Hpi. fields. subst pi.
  destruct (copy_then_drop_count w Hw) as [Hne Hback].
  eexists _, _. unfold shared_ptr_weak, weak_ptr_of_shared, WeakCount_of_shared. fields. mrun.
  rewrite (add_weak_reference_run s a r Hlive). mrun. fold w.
  split; [reflexivity|]. split.
  { unfold counts. cbn [heap]. rewrite lookup_insert_eq. cbn.
    by rewrite wrap16_small by lia. }
  unfold weak_ptr_dtor, WeakCount_dtor. fields.
  erewrite weak_release_run by (cbn [heap]; apply lookup_insert_eq). fields.
  rewrite Hne, Hback. split; [reflexivity|]. cbn [heap trace]. split.
  - rewrite insert_insert_eq. apply insert_id. rewrite Hlive. subst w. by destruct r.
  - rewrite <- app_assoc. cbn. by rewrite wrap16_small by lia.
Qed.

Lemma weak_then_drop_witness :
  ∃ s1 s2,
    shared_ptr_weak (shared_ptr.mk (SharedCount.mk (Some 1%positive)) 5)
      (mkState {[1%positive := ReferenceCount.mk 5 1 1]} 2%positive []) =
      Ok (weak_ptr.mk (WeakCount.mk (Some 1%positive)) 5) s1 ∧
    weak_ptr_dtor (weak_ptr.mk (WeakCount.mk (Some 1%positive)) 5) s1 = Ok () s2 ∧
    heap s2 = {[1%positive := ReferenceCount.mk 5 1 1]}.
Proof.
  destruct (weak_then_drop (shared_ptr.mk (SharedCount.mk (Some 1%positive)) 5)
              (mkState {[1%positive := ReferenceCount.mk 5 1 1]} 2%positive [])
              1%positive (ReferenceCount.mk 5 1 1))
    as (s1 & s2 & H1 & _ & H2 & H3 & _).
  - reflexivity.
  - cbn [heap]. apply lookup_singleton_eq.
  - cbn. lia.
  - exists s1, s2. auto.
Defined.

(** ** The converting copy of a weak pointer *)

(** X6.  The converting copy of a weak pointer increments the weak count like
    the implicit copy, and reads the observer through [lock()]: the cached
    observer is null when the source is expired and the source's otherwise;
    the temporary owner made by [lock()] is released again, so both copies
    leave the same heap. *)
Theorem weak_ptr_of_weak_spec (wp : weak_ptr.t) (s : State) (a : loc) (r : ReferenceCount.t) :
  weak_pi wp = Some a →
  heap s !! a = Some r →
  let u := ReferenceCount.m_use_count r in
  let w := ReferenceCount.m_weak_count r in
  0 ≤ u < 65536 →
  ∃ s' s'',
    weak_ptr_of_weak wp s =
      Ok (weak_ptr.mk (WeakCount.mk (Some a)) (if u =? 0 then nullptr else weak_ptr.m_ptr wp)) s' ∧
    weak_ptr_copy wp s = Ok (weak_ptr.mk (WeakCount.mk (Some a)) (weak_ptr.m_ptr wp)) s'' ∧
    heap s' = heap s'' ∧
    heap s' = <[a := set_weak_count r (wrap16 (w + 1))]> (heap s) ∧
    trace s'' = trace s ++ [WeakAdd a w] ∧
    trace s' = trace s ++ WeakAdd a w ::
                 (if u =? 0 then [] else [StrongAdd a u; StrongSub a (wrap16 (u + 1))]).
Proof.
  intros Hpi Hlive u w Hu. destruct wp as [[pi] q]. unfold weak_pi in Hpi. fields. subst pi.
  unfold weak_ptr_of_weak, weak_ptr_copy, WeakCount_copy. fields.
  destruct (Z.eqb_spec u 0) as [E|E]; eexists _, _; mrun;
    rewrite (add_weak_reference_run s a r Hlive); mrun; fold w;
    (erewrite weak_ptr_lock_run; [|reflexivity|cbn [heap]; apply lookup_insert_eq]);
    fields; fold u.
  - rewrite (proj2 (Z.eqb_eq u 0) E). mrun.
    unfold shared_ptr_dtor, SharedCount_dtor, shared_ptr_default, SharedCount_default.
    fields. mrun. by split_and!.
  - rewrite (proj2 (Z.eqb_neq u 0) E).
    destruct (lock_then_drop_count u Hu E) as [Hne Hback].
    unfold shared_ptr_dtor, SharedCount_dtor, shared_ptr_get. fields. mrun.
    erewrite release_run by (cbn [heap]; apply lookup_insert_eq). fields.
    rewrite Hne, Hback. mrun.
    split; [reflexivity|]. split; [reflexivity|]. cbn [heap trace].
    rewrite !insert_insert_eq. split_and!; try done. by rewrite <- !app_assoc.
Qed.

Lemma weak_ptr_of_weak_spec_witness :
  ∃ s',
    weak_ptr_of_weak (weak_ptr.mk (WeakCount.mk (Some 1%positive)) 5)
      (mkState {[1%positive := ReferenceCount.mk 5 0 1]} 2%positive []) =
      Ok (weak_ptr.mk (WeakCount.mk (Some 1%positive)) nullptr) s' ∧
    heap s' = <[1%positive := ReferenceCount.mk 5 0 2]> {[1%positive := ReferenceCount.mk 5 0 1]}.
Proof.
  destruct (weak_ptr_of_weak_spec (weak_ptr.mk (WeakCount.mk (Some 1%positive)) 5)
              (mkState {[1%positive := ReferenceCount.mk 5 0 1]} 2%positive [])
              1%positive (ReferenceCount.mk 5 0 1))
    as (s' & s'' & H1 & _ & _ & H2 & _).
  - reflexivity.
  - cbn [heap]. apply lookup_singleton_eq.
  - cbn. lia.
  - exists s'. split; [exact H1 | exact H2].
Defined.

(** ** Null pointers *)

(** X7.  A weak pointer without a control block: [lock()], the construction of
    a shared pointer and the converting copy and assignment from it
    dereference null; the implicit copy, the destructor, [reset()] and the
    implicit assignment leave the state alone; and no shared pointer is
    ordered before it. *)
Theorem null_weak_ptr_operations (wp : weak_ptr.t) (s : State) :
  weak_pi wp = None →
  weak_ptr_lock wp s = Fault NullDeref ∧
  shared_ptr_of_weak wp s = Fault NullDeref ∧
  weak_ptr_of_weak wp s = Fault NullDeref ∧
  (∀ this, weak_ptr_assign_weak this wp s = Fault NullDeref) ∧
  weak_ptr_copy wp s = Ok wp s ∧
  weak_ptr_dtor wp s = Ok () s ∧
  weak_ptr_reset wp s = Ok weak_ptr_default s ∧
  weak_ptr_assign_copy wp wp s = Ok wp s ∧
  (∀ sp, shared_ptr_owner_before_weak sp wp = false).
Proof.
  intros Hpi. destruct wp as [[pi] q]. unfold weak_pi in Hpi. fields. subst pi.
  split_and!; try reflexivity.
  intros sp. unfold shared_ptr_owner_before_weak, SharedCount_less_weak. fields.
  apply Z.ltb_ge. destruct (SharedCount.m_pi (shared_ptr.m_refcount sp)); cbn; lia.
Qed.

Lemma null_weak_ptr_operations_witness :
  weak_ptr_lock weak_ptr_default init = Fault NullDeref ∧
  weak_ptr_copy weak_ptr_default init = Ok weak_ptr_default init.
Proof.
  destruct (null_weak_ptr_operations weak_ptr_default init) as (H1 & _ & _ & _ & H2 & _).
  - reflexivity.
  - split; [exact H1 | exact H2].
Defined.

(** X8.  A shared pointer without a control block: copying, aliasing,
    destroying, resetting, [weak()] and assignment touch no counter and no
    block, [use_count()] is 0 and [unique()] is false. *)
Theorem null_shared_ptr_operations (sp : shared_ptr.t) (s : State) :
  shared_pi sp = None →
  shared_ptr_copy sp s = Ok sp s ∧
  (∀ p, shared_ptr_alias sp p s = Ok (shared_ptr.mk (SharedCount.mk None) p) s) ∧
  shared_ptr_dtor sp s = Ok () s ∧
  shared_ptr_reset sp s = Ok shared_ptr_default s ∧
  shared_ptr_use_count sp s = Ok 0 s ∧
  shared_ptr_unique sp s = Ok false s ∧
  shared_ptr_weak sp s = Ok (weak_ptr.mk (WeakCount.mk None) (shared_ptr.m_ptr sp)) s ∧
  shared_ptr_assign sp sp s = Ok sp s ∧
  (∀ this, weak_pi this = None →
     weak_ptr_assign_shared this sp s =
       Ok (weak_ptr.mk (WeakCount.mk None) (shared_ptr.m_ptr sp)) s).
Proof.
  intros Hpi. destruct sp as [[pi] q]. unfold shared_pi in Hpi. fields. subst pi.
  split_and!; try reflexivity.
  intros [[pi] p] Hthis. unfold weak_pi in Hthis. fields. subst pi. reflexivity.
Qed.

Lemma null_shared_ptr_operations_witness :
  shared_ptr_copy shared_ptr_default init = Ok shared_ptr_default init ∧
  shared_ptr_use_count shared_ptr_default init = Ok 0 init.
Proof.
  destruct (null_shared_ptr_operations shared_ptr_default init)
    as (H1 & _ & _ & _ & H2 & _).
  - reflexivity.
  - split; [exact H1 | exact H2].
Defined.

(** ** Swapping and resetting *)

(** X9.  Swapping two shared pointers exchanges their block and observer,
    touches no counter and no other variable, and swapping again restores
    the machine. *)
Theorem swap_exchanges (m : Machine) (x y : string) (vx vy : shared_ptr.t) :
  shareds m !! x = Some vx →
  shareds m !! y = Some vy →
  ∃ m',
    step (SharedSwap x y) m = Running m' ∧
    mem m' = mem m ∧
    weaks m' = weaks m ∧
    shareds m' !! x = Some vy ∧
    shareds m' !! y = Some vx ∧
    (∀ z, z ≠ x → z ≠ y → shareds m' !! z = shareds m !! z) ∧
    step (SharedSwap x y) m' = Running m.
Proof.
  intros Hx Hy.
  assert (Hxy : x = y → vx = vy) by (intros ->; congruence).
  eexists. cbn [step]. rewrite Hx, Hy. cbn.
  split; [reflexivity|]. cbn [mem weaks shareds].
  assert (Hx' : <[y := vx]> (<[x := vy]> (shareds m)) !! x = Some vy).
  { rewrite lookup_insert. case_decide as E.
    - f_equal. apply Hxy. by symmetry.
    - apply lookup_insert_eq. }
  split_and!; try done.
  - apply lookup_insert_eq.
  - intros z Hzx Hzy. by rewrite !lookup_insert_ne.
  - rewrite Hx', lookup_insert_eq. cbn. f_equal. destruct m as [ms sh wk]. cbn in *.
    f_equal. apply map_eq. intros z.
    destruct (decide (z = y)) as [->|Hzy]; [by rewrite lookup_insert_eq|].
    rewrite lookup_insert_ne by done.
    destruct (decide (z = x)) as [->|Hzx]; [by rewrite lookup_insert_eq|].
    by rewrite !lookup_insert_ne.
Qed.

Lemma swap_exchanges_witness :
  ∃ m',
    step (SharedSwap "A" "B")
      (mkMachine init (<["B" := shared_ptr.mk (SharedCount.mk None) 7]>
                         {["A" := shared_ptr.mk (SharedCount.mk None) 5]}) ∅) = Running m' ∧
    shareds m' !! "A" = Some (shared_ptr.mk (SharedCount.mk None) 7).
Proof.
  destruct (swap_exchanges
              (mkMachine init (<["B" := shared_ptr.mk (SharedCount.mk None) 7]>
                                 {["A" := shared_ptr.mk (SharedCount.mk None) 5]}) ∅)
              "A" "B" (shared_ptr.mk (SharedCount.mk None) 5)
              (shared_ptr.mk (SharedCount.mk None) 7))
    as (m' & H1 & _ & _ & H2 & _).
  - vm_compute. reflexivity.
  - vm_compute. reflexivity.
  - exists m'. split; [exact H1 | exact H2].
Defined.

(** X10.  [reset()] is the destruction of the pointer followed by its default
    construction, for shared and for weak pointers, faults included. *)
Theorem reset_is_destroy_then_default (m : Machine) :
  (∀ x, step (SharedReset x) m =
        and_then (step (SharedDestroy x) m) (step (SharedDefault x))) ∧
  (∀ w, step (WeakReset w) m =
        and_then (step (WeakDestroy w) m) (step (WeakDefault w))).
Proof.
  split.
  - intros x. cbn [step]. unfold update_shared, with_shared, exec.
    destruct (shareds m !! x) as [this|]; [|done].
    unfold shared_ptr_reset, shared_ptr_swap. rewrite run_bind.
    destruct (shared_ptr_dtor this (mem m)) as [[] s'|f]; [|done].
    cbn. unfold declare_shared. cbn [shareds]. rewrite lookup_delete_eq.
    cbn. by rewrite insert_delete_eq.
  - intros w. cbn [step]. unfold update_weak, with_weak, exec.
    destruct (weaks m !! w) as [this|]; [|done].
    unfold weak_ptr_reset, weak_ptr_swap. rewrite run_bind.
    destruct (weak_ptr_dtor this (mem m)) as [[] s'|f]; [|done].
    cbn. unfold declare_weak. cbn [weaks]. rewrite lookup_delete_eq.
    cbn. by rewrite insert_delete_eq.
Qed.

(** ** What the counters mean in a guarded program *)

Lemma reached_Inv (prog : list op) (m : Machine) :
  guarded_run prog boot = true → run prog boot = Running m → Inv m.
Proof.
  intros Hguard Hrun. pose proof (run_Inv prog boot Inv_boot Hguard) as H.
  by rewrite Hrun in H.
Qed.

Lemma Inv_counts (m : Machine) (a : loc) :
  Inv m → (0 < refs shared_pi (shareds m) a + refs weak_pi (weaks m) a)%nat →
  ∃ r, heap (mem m) !! a = Some r ∧
       block_ok (Some r) (refs shared_pi (shareds m) a) (refs weak_pi (weaks m) a).
Proof. intros HInv Hpos. by apply (good_live _ _ _ a HInv). Qed.

(** X11.  In a guarded program, [use_count()] of a shared pointer with a block is
    the number of shared pointers that reference the block, between 1 and
    65535, and [unique()] holds exactly when that number is 1. *)
Theorem use_count_counts_owners
    (prog : list op) (m : Machine) (x : string) (sp : shared_ptr.t) (a : loc) :
  guarded_run prog boot = true →
  run prog boot = Running m →
  shareds m !! x = Some sp →
  shared_pi sp = Some a →
  let n := refs shared_pi (shareds m) a in
  (1 ≤ n)%nat ∧
  Z.of_nat n ≤ 65535 ∧
  shared_ptr_use_count sp (mem m) = Ok (Z.of_nat n) (mem m) ∧
  shared_ptr_unique sp (mem m) = Ok (bool_decide (n = 1%nat)) (mem m).
Proof.
  intros Hguard Hrun Hx Hpi n.
  pose proof (reached_Inv prog m Hguard Hrun) as HInv.
  pose proof (shared_held m x sp a Hx Hpi) as Hheld. fold n in Hheld.
  destruct (Inv_counts m a HInv) as (r & Hr & Hu & _ & _ & Humax & _); [fold n; lia|].
  fold n in Hu.
  assert (Hcount : shared_ptr_use_count sp (mem m) = Ok (Z.of_nat n) (mem m)).
  { unfold shared_ptr_use_count, SharedCount_use_count. unfold shared_pi in Hpi.
    rewrite Hpi, (use_count_run _ a r Hr). by rewrite Hu. }
  split_and!; [lia | lia | done |].
  unfold shared_ptr_unique, SharedCount_unique. rewrite run_bind.
  unfold shared_ptr_use_count in Hcount. rewrite Hcount. rewrite run_ret. f_equal.
  destruct (decide (n = 1%nat)) as [E|E].
  - rewrite bool_decide_eq_true_2 by done. rewrite E. reflexivity.
  - rewrite bool_decide_eq_false_2 by done. apply Z.eqb_neq. lia.
Qed.

Lemma use_count_counts_owners_witness :
  shared_ptr_use_count (shared_ptr.mk (SharedCount.mk (Some 1%positive)) 5)
    (mkState {[1%positive := ReferenceCount.mk 5 2 1]} 2%positive [StrongAdd 1%positive 1]) =
    Ok 2 (mkState {[1%positive := ReferenceCount.mk 5 2 1]} 2%positive [StrongAdd 1%positive 1]).
Proof.
  destruct (use_count_counts_owners (take 2 (scenario 5))
              (mkMachine
                 (mkState {[1%positive := ReferenceCount.mk 5 2 1]} 2%positive
                    [StrongAdd 1%positive 1])
                 (<["B" := shared_ptr.mk (SharedCount.mk (Some 1%positive)) 5]>
                    {["A" := shared_ptr.mk (SharedCount.mk (Some 1%positive)) 5]}) ∅)
              "A" (shared_ptr.mk (SharedCount.mk (Some 1%positive)) 5) 1%positive)
    as (_ & _ & H & _).
  - vm_compute. reflexivity.
  - vm_compute. reflexivity.
  - vm_compute. reflexivity.
  - reflexivity.
  - exact H.
Defined.

(** X12.  In a guarded program, [use_count()] of a weak pointer with a block is
    the number of shared pointers that reference the block, [expired()]
    holds exactly when there is none, [lock()] then returns the empty
    pointer, and otherwise returns an owner of the block with the weak
    pointer's cached observer and, with fewer than 65535 owners, raises the
    strong count by one. *)
Theorem expired_iff_no_owner
    (prog : list op) (m : Machine) (w : string) (wp : weak_ptr.t) (a : loc) :
  guarded_run prog boot = true →
  run prog boot = Running m →
  weaks m !! w = Some wp →
  weak_pi wp = Some a →
  let n := refs shared_pi (shareds m) a in
  weak_ptr_use_count wp (mem m) = Ok (Z.of_nat n) (mem m) ∧
  weak_ptr_expired wp (mem m) = Ok (bool_decide (n = 0%nat)) (mem m) ∧
  (n = 0%nat → weak_ptr_lock wp (mem m) = Ok shared_ptr_default (mem m)) ∧
  (n ≠ 0%nat →
     ∃ s', weak_ptr_lock wp (mem m) =
             Ok (shared_ptr.mk (SharedCount.mk (Some a)) (weak_ptr.m_ptr wp)) s' ∧
           (Z.of_nat n < 65535 → fst <$> counts s' a = Some (Z.of_nat n + 1))).
Proof.
  intros Hguard Hrun Hw Hpi n.
  pose proof (reached_Inv prog m Hguard Hrun) as HInv.
  pose proof (weak_held m w wp a Hw Hpi) as Hheld.
  destruct (Inv_counts m a HInv) as (r & Hr & Hu & _ & _ & Humax & _); [lia|].
  fold n in Hu. unfold weak_pi in Hpi.
  assert (Heqb : (ReferenceCount.m_use_count r =? 0) = bool_decide (n = 0%nat)).
  { destruct (decide (n = 0%nat)) as [E|E].
    - rewrite bool_decide_eq_true_2 by done. apply Z.eqb_eq. lia.
    - rewrite bool_decide_eq_false_2 by done. apply Z.eqb_neq. lia. }
  split_and!.
  - unfold weak_ptr_use_count, WeakCount_use_count, deref. rewrite Hpi.
    rewrite run_bind, run_ret, (use_count_run _ a r Hr). by rewrite Hu.
  - rewrite (weak_ptr_expired_run _ wp a r Hpi Hr). by rewrite Heqb.
  - intros E. rewrite (weak_ptr_lock_run _ wp a r Hpi Hr), Heqb.
    by rewrite bool_decide_eq_true_2.
  - intros E. rewrite (weak_ptr_lock_run _ wp a r Hpi Hr), Heqb.
    rewrite bool_decide_eq_false_2 by done. eexists. split; [reflexivity|].
    intros Hroom. unfold counts. cbn [heap]. rewrite lookup_insert_eq. cbn.
    rewrite wrap16_small by lia. by rewrite Hu.
Qed.

Lemma expired_iff_no_owner_witness :
  weak_ptr_expired (weak_ptr.mk (WeakCount.mk (Some 1%positive)) 5)
    (mkState {[1%positive := ReferenceCount.mk 5 0 1]} 2%positive
       [StrongAdd 1%positive 1; WeakAdd 1%positive 1; StrongSub 1%positive 2;
        StrongSub 1%positive 1; Dispose 1%positive 5; WeakSub 1%positive 2]) =
    Ok true
      (mkState {[1%positive := ReferenceCount.mk 5 0 1]} 2%positive
         [StrongAdd 1%positive 1; WeakAdd 1%positive 1; StrongSub 1%positive 2;
          StrongSub 1%positive 1; Dispose 1%positive 5; WeakSub 1%positive 2]).
Proof.
  destruct (expired_iff_no_owner (scenario 5)
              (mkMachine
                 (mkState {[1%positive := ReferenceCount.mk 5 0 1]} 2%positive
                    [StrongAdd 1%positive 1; WeakAdd 1%positive 1; StrongSub 1%positive 2;
                     StrongSub 1%positive 1; Dispose 1%positive 5; WeakSub 1%positive 2])
                 ∅ {["W" := weak_ptr.mk (WeakCount.mk (Some 1%positive)) 5]})
              "W" (weak_ptr.mk (WeakCount.mk (Some 1%positive)) 5) 1%positive)
    as (_ & H & _).
  - vm_compute. reflexivity.
  - vm_compute. reflexivity.
  - vm_compute. reflexivity.
  - reflexivity.
  - exact H.
Defined.

(** ** Pointer casts that succeed *)

(** X13.  [static_pointer_cast], and [dynamic_pointer_cast] when the runtime type
    check succeeds, return a pointer that observes the converted address and
    shares the source's control block: on a live block the strong count is
    incremented once and nothing else changes; a source without a block
    gives a pointer without a block that still observes the converted
    address. *)
Theorem pointer_cast_shares_ownership
    (dynamic_cast static_cast : pointer → pointer) (sp : shared_ptr.t) (s : State) :
  dynamic_cast (shared_ptr_get sp) ≠ nullptr →
  dynamic_pointer_cast dynamic_cast sp s =
    shared_ptr_alias sp (dynamic_cast (shared_ptr_get sp)) s ∧
  (∀ a r, shared_pi sp = Some a → heap s !! a = Some r →
     let s' := mkState
                 (<[a := set_use_count r (wrap16 (ReferenceCount.m_use_count r + 1))]> (heap s))
                 (next s) (trace s ++ [StrongAdd a (ReferenceCount.m_use_count r)]) in
     dynamic_pointer_cast dynamic_cast sp s =
       Ok (shared_ptr.mk (SharedCount.mk (Some a)) (dynamic_cast (shared_ptr_get sp))) s' ∧
     static_pointer_cast static_cast sp s =
       Ok (shared_ptr.mk (SharedCount.mk (Some a)) (static_cast (shared_ptr_get sp))) s') ∧
  (shared_pi sp = None →
     dynamic_pointer_cast dynamic_cast sp s =
       Ok (shared_ptr.mk (SharedCount.mk None) (dynamic_cast (shared_ptr_get sp))) s ∧
     static_pointer_cast static_cast sp s =
       Ok (shared_ptr.mk (SharedCount.mk None) (static_cast (shared_ptr_get sp))) s).
Proof.
  intros Hok.
  assert (Hdyn : dynamic_pointer_cast dynamic_cast sp s =
                 shared_ptr_alias sp (dynamic_cast (shared_ptr_get sp)) s).
  { unfold dynamic_pointer_cast.
    destruct (Z.eqb_spec (dynamic_cast (shared_ptr_get sp)) 0) as [E|E]; [|done].
    by destruct Hok. }
  split; [exact Hdyn|]. rewrite Hdyn. unfold static_pointer_cast.
  destruct sp as [[pi] q]. unfold shared_pi. fields. split.
  - intros a r -> Hlive. unfold shared_ptr_alias, SharedCount_copy. fields. mrun.
    rewrite (add_copied_reference_run s a r Hlive). mrun. by split.
  - intros ->. by split.
Qed.

Lemma pointer_cast_shares_ownership_witness :
  dynamic_pointer_cast (λ p, p + 4) (shared_ptr.mk (SharedCount.mk (Some 1%positive)) 5)
    (mkState {[1%positive := ReferenceCount.mk 5 1 1]} 2%positive []) =
  shared_ptr_alias (shared_ptr.mk (SharedCount.mk (Some 1%positive)) 5) 9
    (mkState {[1%positive := ReferenceCount.mk 5 1 1]} 2%positive []).
Proof.
  destruct (pointer_cast_shares_ownership (λ p, p + 4) (λ p, p)
              (shared_ptr.mk (SharedCount.mk (Some 1%positive)) 5)
              (mkState {[1%positive := ReferenceCount.mk 5 1 1]} 2%positive []))
    as (H & _).
  - vm_compute. discriminate.
  - exact H.
Defined.

(** ** Assignment between blocks *)

(** X14.  Assigning a shared pointer of one live block to a shared pointer of
    another: the source's block gains an owner first, then the target's
    old block is released exactly as by the target's destructor, and the
    target ends with the source's block and observer. *)
Theorem shared_ptr_assign_other_block
    (this sp : shared_ptr.t) (s : State) (a b : loc) (ra rb : ReferenceCount.t) :
  shared_pi sp = Some a →
  shared_pi this = Some b →
  a ≠ b →
  heap s !! a = Some ra →
  heap s !! b = Some rb →
  ∃ s1 s',
    shared_ptr_copy sp s = Ok sp s1 ∧
    shared_ptr_dtor this s1 = Ok () s' ∧
    shared_ptr_assign this sp s = Ok sp s' ∧
    trace s1 = trace s ++ [StrongAdd a (ReferenceCount.m_use_count ra)] ∧
    (∃ evs, trace s' = trace s1 ++ StrongSub b (ReferenceCount.m_use_count rb) :: evs) ∧
    heap s' !! a = Some (set_use_count ra (wrap16 (ReferenceCount.m_use_count ra + 1))) ∧
    (ReferenceCount.m_use_count rb = 1 ↔
       count_events (is_dispose b) (trace s') = S (count_events (is_dispose b) (trace s))) ∧
    (ReferenceCount.m_use_count rb ≠ 1 →
       heap s' !! b = Some (set_use_count rb (wrap16 (ReferenceCount.m_use_count rb - 1)))).
Proof.
  intros Hsp Hthis Hab Ha Hb.
  destruct sp as [[pa] p], this as [[pb] q]. unfold shared_pi in *. fields. subst pa pb.
  pose (s1 := mkState
          (<[a := set_use_count ra (wrap16 (ReferenceCount.m_use_count ra + 1))]> (heap s))
          (next s) (trace s ++ [StrongAdd a (ReferenceCount.m_use_count ra)])).
  assert (Hb1 : heap s1 !! b = Some rb).
  { unfold s1. cbn [heap]. by rewrite lookup_insert_ne. }
  assert (Hcopy : shared_ptr_copy (shared_ptr.mk (SharedCount.mk (Some a)) p) s =
                  Ok (shared_ptr.mk (SharedCount.mk (Some a)) p) s1).
  { by rewrite (shared_ptr_copy_run s (shared_ptr.mk (SharedCount.mk (Some a)) p) a ra eq_refl Ha). }
  assert (Hassign : shared_ptr_assign (shared_ptr.mk (SharedCount.mk (Some b)) q)
                      (shared_ptr.mk (SharedCount.mk (Some a)) p) s =
                    match ReferenceCount_release b s1 with
                    | Ok _ s2 => Ok (shared_ptr.mk (SharedCount.mk (Some a)) p) s2
                    | Fault f => Fault f
                    end).
  { unfold shared_ptr_assign, shared_ptr_assign_observer, shared_ptr_assign_handle,
      SharedCount_assign. mrun. fields.
    rewrite decide_True by congruence. mrun.
    rewrite (add_copied_reference_run s a ra Ha). mrun. fold s1.
    destruct (ReferenceCount_release b s1) as [[] s2|f]; reflexivity. }
  exists s1. unfold shared_ptr_dtor, SharedCount_dtor. fields.
  rewrite Hassign, (release_run s1 b rb Hb1).
  eexists. split; [exact Hcopy|]. split; [reflexivity|]. split; [reflexivity|].
  split; [reflexivity|].
  destruct (Z.eqb_spec (ReferenceCount.m_use_count rb) 1) as [E1|E1];
    [destruct (Z.eqb_spec (ReferenceCount.m_weak_count rb) 1) as [E2|E2]|];
    cbn [heap trace].
  - split; [eexists; by rewrite E1|]. split.
    { rewrite lookup_delete_ne by done. unfold s1. cbn [heap]. by rewrite lookup_insert_eq. }
    split; [|done]. split; [intros _|done].
    unfold s1. cbn [trace]. rewrite !count_events_app, !count_events_cons. cbn.
    rewrite bool_decide_eq_true_2 by done. lia.
  - split; [eexists; by rewrite E1|]. split.
    { rewrite lookup_insert_ne by done. unfold s1. cbn [heap]. by rewrite lookup_insert_eq. }
    split; [|done]. split; [intros _|done].
    unfold s1. cbn [trace]. rewrite !count_events_app, !count_events_cons. cbn.
    rewrite bool_decide_eq_true_2 by done. lia.
  - split; [by eexists|]. split.
    { rewrite lookup_insert_ne by done. unfold s1. cbn [heap]. by rewrite lookup_insert_eq. }
    split.
    + split; [done|]. unfold s1. cbn [trace].
      rewrite !count_events_app, !count_events_cons. cbn. lia.
    + intros _. by rewrite lookup_insert_eq.
Qed.

Lemma shared_ptr_assign_other_block_witness :
  ∃ s',
    shared_ptr_assign (shared_ptr.mk (SharedCount.mk (Some 2%positive)) 7)
      (shared_ptr.mk (SharedCount.mk (Some 1%positive)) 5)
      (mkState (<[2%positive := ReferenceCount.mk 7 1 1]> {[1%positive := ReferenceCount.mk 5 1 1]})
         3%positive []) =
      Ok (shared_ptr.mk (SharedCount.mk (Some 1%positive)) 5) s' ∧
    heap s' !! 1%positive = Some (ReferenceCount.mk 5 2 1).
Proof.
  destruct (shared_ptr_assign_other_block
              (shared_ptr.mk (SharedCount.mk (Some 2%positive)) 7)
              (shared_ptr.mk (SharedCount.mk (Some 1%positive)) 5)
              (mkState (<[2%positive := ReferenceCount.mk 7 1 1]>
                          {[1%positive := ReferenceCount.mk 5 1 1]}) 3%positive [])
              1%positive 2%positive (ReferenceCount.mk 5 1 1) (ReferenceCount.mk 7 1 1))
    as (s1 & s' & _ & _ & H1 & _ & _ & H2 & _).
  - reflexivity.
  - reflexivity.
  - lia.
  - vm_compute. reflexivity.
  - vm_compute. reflexivity.
  - exists s'. split; [exact H1 | exact H2].
Defined.

(** ** Resetting to a new pointee *)

(** X15.  [reset(p)] on a pointer whose block, if it has one, is live ends in
    the state reached by destroying the pointer and constructing one from
    [p] afterwards; the result is the only owner of a new block with counts
    (1,1) and observes [p]. *)
Theorem shared_ptr_reset_to_spec
    (this : shared_ptr.t) (p : pointer) (s : State) :
  heap s !! next s = None →
  (∀ b, shared_pi this = Some b → is_Some (heap s !! b)) →
  ∃ s1 s',
    shared_ptr_dtor this s = Ok () s1 ∧
    shared_ptr_new p s1 = Ok (shared_ptr.mk (SharedCount.mk (Some (next s))) p) s' ∧
    shared_ptr_reset_to this p s = Ok (shared_ptr.mk (SharedCount.mk (Some (next s))) p) s' ∧
    counts s' (next s) = Some (1, 1) ∧
    shared_ptr_unique (shared_ptr.mk (SharedCount.mk (Some (next s))) p) s' = Ok true s'.
Proof.
  intros Hfresh Hlive. destruct this as [[pi] q]. unfold shared_pi in Hlive. fields.
  assert (Hres : ∀ s1, next s1 = next s →
            shared_ptr_new p s1 =
              Ok (shared_ptr.mk (SharedCount.mk (Some (next s))) p)
                 (mkState (<[next s := ReferenceCount_new p]> (heap s1)) (Pos.succ (next s))
                    (trace s1))).
  { intros s1 Hn. unfold shared_ptr_new, SharedCount_new. mrun. by rewrite Hn. }
  assert (Hq : ∀ h n tr,
            counts (mkState (<[next s := ReferenceCount_new p]> h) n tr) (next s) = Some (1, 1) ∧
            shared_ptr_unique (shared_ptr.mk (SharedCount.mk (Some (next s))) p)
              (mkState (<[next s := ReferenceCount_new p]> h) n tr) =
              Ok true (mkState (<[next s := ReferenceCount_new p]> h) n tr)).
  { intros h n tr. split.
    - unfold counts. cbn [heap]. by rewrite lookup_insert_eq.
    - unfold shared_ptr_unique, SharedCount_unique, SharedCount_use_count. fields.
      rewrite run_bind. erewrite use_count_run by (cbn [heap]; apply lookup_insert_eq).
      reflexivity. }
  unfold shared_ptr_reset_to, shared_ptr_swap, shared_ptr_dtor, SharedCount_dtor. fields.
  rewrite run_bind, (Hres s eq_refl).
  destruct pi as [b|].
  - destruct (Hlive b eq_refl) as [rb Hb].
    assert (Hne : b ≠ next s) by (intros ->; congruence).
    rewrite run_bind. fields.
    rewrite (release_run
               (mkState (<[next s := ReferenceCount_new p]> (heap s)) (Pos.succ (next s))
                  (trace s)) b rb)
      by (cbn [heap]; by rewrite lookup_insert_ne).
    rewrite (release_run s b rb Hb). mrun.
    destruct (Z.eqb_spec (ReferenceCount.m_use_count rb) 1) as [E1|E1];
      [destruct (Z.eqb_spec (ReferenceCount.m_weak_count rb) 1) as [E2|E2]|];
      eexists _, _; (split; [reflexivity|]); rewrite Hres by reflexivity;
      cbn [heap next trace].
    + rewrite delete_insert_ne by done. split; [reflexivity|]. split; [reflexivity|]. apply Hq.
    + rewrite (insert_insert_ne _ b (next s)) by done.
      split; [reflexivity|]. split; [reflexivity|]. apply Hq.
    + rewrite (insert_insert_ne _ b (next s)) by done.
      split; [reflexivity|]. split; [reflexivity|]. apply Hq.
  - mrun. eexists _, _. split; [reflexivity|]. rewrite Hres by reflexivity.
    split; [reflexivity|]. split; [reflexivity|]. apply Hq.
Qed.

Lemma shared_ptr_reset_to_spec_witness :
  ∃ s',
    shared_ptr_reset_to (shared_ptr.mk (SharedCount.mk (Some 1%positive)) 5) 7
      (mkState {[1%positive := ReferenceCount.mk 5 1 1]} 2%positive []) =
      Ok (shared_ptr.mk (SharedCount.mk (Some 2%positive)) 7) s' ∧
    counts s' 2%positive = Some (1, 1).
Proof.
  destruct (shared_ptr_reset_to_spec (shared_ptr.mk (SharedCount.mk (Some 1%positive)) 5) 7
              (mkState {[1%positive := ReferenceCount.mk 5 1 1]} 2%positive []))
    as (s1 & s' & _ & _ & H1 & H2 & _).
  - vm_compute. reflexivity.
  - intros b Hb. cbn in Hb. injection Hb as <-. vm_compute. eexists. reflexivity.
  - exists s'. split; [exact H1 | exact H2].
Defined.


(** * The life of a block

    The invariant of the engine, for any predicate [G] on states and ledgers
    that implies the ledger and that the methods of the control block keep. *)

Section engine.
Variable G : State → (loc → nat) → (loc → nat) → Prop.

Hypothesis G_good : ∀ s cs cw, G s cs cw → good s cs cw.
Hypothesis G_ext : ∀ s cs cw cs' cw',
  (∀ a, cs a = cs' a) → (∀ a, cw a = cw' a) → G s cs cw → G s cs' cw'.
Hypothesis G_create : ∀ s cs cw p,
  G s cs cw →
  post (create (ReferenceCount_new p)) s (λ b s', G s' (gain (Some b) cs) cw).
Hypothesis G_add_copied : ∀ s cs cw a,
  G s cs cw → (0 < cs a)%nat → Z.of_nat (cs a) < 65535 →
  post (ReferenceCount_add_copied_reference a) s (λ _ s', G s' (gain (Some a) cs) cw).
Hypothesis G_add_locked : ∀ s cs cw a,
  G s cs cw → (0 < cs a)%nat → Z.of_nat (cs a) < 65535 →
  post (ReferenceCount_add_locked_reference a) s (λ _ s', G s' (gain (Some a) cs) cw).
Hypothesis G_release : ∀ s cs cw a,
  G s cs cw → (0 < cs a)%nat →
  post (ReferenceCount_release a) s (λ _ s', G s' (lose (Some a) cs) cw).
Hypothesis G_add_weak : ∀ s cs cw a,
  G s cs cw → (0 < cs a + cw a)%nat →
  Z.of_nat (cw a) + (if decide (cs a = 0%nat) then 0 else 1) < 65535 →
  post (ReferenceCount_add_weak_reference a) s (λ _ s', G s' cs (gain (Some a) cw)).
Hypothesis G_weak_release : ∀ s cs cw a,
  G s cs cw → (0 < cw a)%nat →
  post (ReferenceCount_weak_release a) s (λ _ s', G s' cs (lose (Some a) cw)).

Let IG (m : Machine) : Prop :=
  G (mem m) (refs shared_pi (shareds m)) (refs weak_pi (weaks m)).

Let same_G (m m1 : Machine) : Prop :=
  IG m1 ∧
  (∀ z, shared_pi <$> shareds m1 !! z = shared_pi <$> shareds m !! z) ∧
  (∀ z, weak_pi <$> weaks m1 !! z = weak_pi <$> weaks m !! z) ∧
  (∀ a, refs shared_pi (shareds m1) a = refs shared_pi (shareds m) a) ∧
  (∀ a, refs weak_pi (weaks m1) a = refs weak_pi (weaks m) a).

Section handles_G.
Variables (s : State) (cs cw : loc → nat).
Hypothesis Hgood : G s cs cw.

Lemma G_gain_none : G s (gain None cs) cw.
Proof. eapply G_ext; [| |exact Hgood]; intros; ledger. Qed.

Lemma G_lose_none : G s (lose None cs) cw.
Proof. eapply G_ext; [| |exact Hgood]; intros; ledger. Qed.

Lemma G_weak_gain_none : G s cs (gain None cw).
Proof. eapply G_ext; [| |exact Hgood]; intros; ledger. Qed.

Lemma G_weak_lose_none : G s cs (lose None cw).
Proof. eapply G_ext; [| |exact Hgood]; intros; ledger. Qed.

Lemma SharedCount_new_keeps p :
  post (SharedCount_new p) s
    (λ res s', ∃ a, SharedCount.m_pi res = Some a ∧ G s' (gain (Some a) cs) cw).
Proof.
  unfold SharedCount_new. apply post_bind.
  eapply post_mono; [apply (G_create s cs cw p Hgood)|].
  intros a s' Hg. apply post_ret. by exists a.
Qed.

Lemma SharedCount_copy_keeps sc :
  (∀ a, SharedCount.m_pi sc = Some a → (0 < cs a)%nat ∧ Z.of_nat (cs a) < 65535) →
  post (SharedCount_copy sc) s
    (λ res s', SharedCount.m_pi res = SharedCount.m_pi sc ∧
               G s' (gain (SharedCount.m_pi sc) cs) cw).
Proof.
  intros Hroom. unfold SharedCount_copy. apply post_bind.
  destruct (SharedCount.m_pi sc) as [a|].
  - destruct (Hroom a eq_refl). eapply post_mono; [by apply (G_add_copied s cs cw a Hgood)|].
    intros [] s' Hg. by apply post_ret.
  - apply post_ret, post_ret. split; [done | apply G_gain_none].
Qed.

Lemma SharedCount_of_weak_keeps wc :
  (∀ a, WeakCount.m_pi wc = Some a → (0 < cs a)%nat ∧ Z.of_nat (cs a) < 65535) →
  post (SharedCount_of_weak wc) s
    (λ res s', SharedCount.m_pi res = WeakCount.m_pi wc ∧
               G s' (gain (WeakCount.m_pi wc) cs) cw).
Proof.
  intros Hroom. unfold SharedCount_of_weak, deref.
  destruct (WeakCount.m_pi wc) as [a|]; [|done].
  apply post_bind, post_ret, post_bind. destruct (Hroom a eq_refl).
  eapply post_mono; [by apply (G_add_locked s cs cw a Hgood)|].
  intros [] s' Hg. by apply post_ret.
Qed.

Lemma SharedCount_dtor_keeps this :
  (∀ a, SharedCount.m_pi this = Some a → (0 < cs a)%nat) →
  post (SharedCount_dtor this) s
    (λ _ s', G s' (lose (SharedCount.m_pi this) cs) cw).
Proof.
  intros Hheld. unfold SharedCount_dtor.
  destruct (SharedCount.m_pi this) as [a|].
  - apply G_release; auto.
  - apply post_ret, G_lose_none.
Qed.

Lemma WeakCount_add_keeps (pi : option loc) :
  (∀ a, pi = Some a →
        (0 < cs a + cw a)%nat ∧
        Z.of_nat (cw a) + (if decide (cs a = 0%nat) then 0 else 1) < 65535) →
  post (match pi with
        | Some a => ReferenceCount_add_weak_reference a
        | None => mret ()
        end) s (λ _ s', G s' cs (gain pi cw)).
Proof.
  intros Hroom. destruct pi as [a|].
  - destruct (Hroom a eq_refl). by apply G_add_weak.
  - apply post_ret, G_weak_gain_none.
Qed.

Lemma WeakCount_dtor_keeps this :
  (∀ a, WeakCount.m_pi this = Some a → (0 < cw a)%nat) →
  post (WeakCount_dtor this) s
    (λ _ s', G s' cs (lose (WeakCount.m_pi this) cw)).
Proof.
  intros Hheld. unfold WeakCount_dtor.
  destruct (WeakCount.m_pi this) as [a|].
  - apply G_weak_release; auto.
  - apply post_ret, G_weak_lose_none.
Qed.

End handles_G.

Lemma SharedCount_assign_keeps s cs cw this sc :
  G s cs cw →
  (∀ a, SharedCount.m_pi this = Some a → (0 < cs a)%nat) →
  (∀ a, SharedCount.m_pi sc = Some a → (0 < cs a)%nat) →
  (SharedCount.m_pi this ≠ SharedCount.m_pi sc →
   ∀ a, SharedCount.m_pi sc = Some a → Z.of_nat (cs a) < 65535) →
  post (SharedCount_assign this sc) s
    (λ res s', SharedCount.m_pi res = SharedCount.m_pi sc ∧
               ∃ cs', G s' cs' cw ∧
                      ∀ b, (cs' b + ind (SharedCount.m_pi this) b =
                            cs b + ind (SharedCount.m_pi sc) b)%nat).
Proof.
  intros Hgood Hthis Hsc Hroom. unfold SharedCount_assign.
  destruct (decide (SharedCount.m_pi sc ≠ SharedCount.m_pi this)) as [Hne|Heq].
  - apply post_bind.
    assert (Hadd : post (match SharedCount.m_pi sc with
                         | Some a => ReferenceCount_add_copied_reference a
                         | None => mret ()
                         end) s (λ _ s', G s' (gain (SharedCount.m_pi sc) cs) cw)).
    { destruct (SharedCount.m_pi sc) as [a|].
      - apply G_add_copied; auto.
      - by apply post_ret, G_gain_none. }
    eapply post_mono; [exact Hadd|]. intros [] s1 Hg1. apply post_bind.
    eapply post_mono.
    { apply (SharedCount_dtor_keeps s1 _ cw Hg1 this).
      intros a Ha. specialize (Hthis a Ha). ledger. }
    intros [] s2 Hg2. apply post_ret. split; [done|].
    eexists. split; [exact Hg2|]. intros b.
    pose proof (Hthis b). pose proof (Hsc b). ledger.
  - apply post_ret. apply dec_stable in Heq. split; [done|].
    exists cs. split; [done|]. intros b. by rewrite Heq.
Qed.

Lemma WeakCount_assign_pi_keeps s cs cw this tmp :
  G s cs cw →
  (∀ a, WeakCount.m_pi this = Some a → (0 < cw a)%nat) →
  (∀ a, tmp = Some a →
        (0 < cs a + cw a)%nat ∧
        Z.of_nat (cw a) + (if decide (cs a = 0%nat) then 0 else 1) < 65535) →
  post (WeakCount_assign_pi this tmp) s
    (λ res s', WeakCount.m_pi res = tmp ∧
               ∃ cw', G s' cs cw' ∧
                      ∀ b, (cw' b + ind (WeakCount.m_pi this) b = cw b + ind tmp b)%nat).
Proof.
  intros Hgood Hthis Hroom. unfold WeakCount_assign_pi. apply post_bind.
  eapply post_mono; [by apply (WeakCount_add_keeps s cs cw Hgood)|].
  intros [] s1 Hg1. apply post_bind. eapply post_mono.
  { apply (WeakCount_dtor_keeps s1 cs _ Hg1 this).
    intros a Ha. specialize (Hthis a Ha). ledger. }
  intros [] s2 Hg2. apply post_ret. split; [done|].
  eexists. split; [exact Hg2|]. intros b. pose proof (Hthis b). ledger.
Qed.


Section facades_G.
Variables (s : State) (cs cw : loc → nat).
Hypothesis Hgood : G s cs cw.

Lemma shared_ptr_new_keeps p :
  post (shared_ptr_new p) s (λ res s', G s' (gain (shared_pi res) cs) cw).
Proof.
  unfold shared_ptr_new. apply post_bind.
  eapply post_mono; [apply (SharedCount_new_keeps s cs cw Hgood)|].
  intros rc s' (a & Ha & Hg). apply post_ret. unfold shared_pi. cbn. by rewrite Ha.
Qed.

Lemma shared_ptr_alias_keeps sp p :
  (∀ a, shared_pi sp = Some a → (0 < cs a)%nat ∧ Z.of_nat (cs a) < 65535) →
  post (shared_ptr_alias sp p) s (λ res s', G s' (gain (shared_pi res) cs) cw).
Proof.
  intros Hroom. unfold shared_ptr_alias. apply post_bind.
  eapply post_mono; [by apply (SharedCount_copy_keeps s cs cw Hgood)|].
  intros rc s' [Hpi Hg]. apply post_ret. unfold shared_pi. cbn. by rewrite Hpi.
Qed.

Lemma shared_ptr_copy_keeps sp :
  (∀ a, shared_pi sp = Some a → (0 < cs a)%nat ∧ Z.of_nat (cs a) < 65535) →
  post (shared_ptr_copy sp) s (λ res s', G s' (gain (shared_pi res) cs) cw).
Proof. apply shared_ptr_alias_keeps. Qed.

Lemma shared_ptr_of_weak_keeps wp :
  (∀ a, weak_pi wp = Some a → (0 < cs a)%nat ∧ Z.of_nat (cs a) < 65535) →
  post (shared_ptr_of_weak wp) s (λ res s', G s' (gain (shared_pi res) cs) cw).
Proof.
  intros Hroom. unfold shared_ptr_of_weak. apply post_bind.
  eapply post_mono; [by apply (SharedCount_of_weak_keeps s cs cw Hgood)|].
  intros rc s' [Hpi Hg]. apply post_ret. unfold shared_pi. cbn. by rewrite Hpi.
Qed.

Lemma weak_ptr_lock_keeps wp :
  (∀ a, weak_pi wp = Some a → (0 < cw a)%nat ∧ Z.of_nat (cs a) < 65535) →
  post (weak_ptr_lock wp) s (λ res s', G s' (gain (shared_pi res) cs) cw).
Proof.
  intros Hroom. unfold weak_ptr_lock. apply post_bind.
  eapply post_mono.
  { apply (weak_ptr_expired_good s cs cw (G_good _ _ _ Hgood)). intros a Ha. destruct (Hroom a Ha). lia. }
  intros e s' (-> & a & Ha & ->). destruct (Hroom a Ha) as [Hw Hs].
  destruct (Z.eqb_spec (Z.of_nat (cs a)) 0) as [E|E].
  - apply post_ret. by apply G_gain_none.
  - apply shared_ptr_of_weak_keeps. intros b Hb.
    assert (b = a) by congruence. subst b. split; [lia | done].
Qed.

Lemma shared_ptr_dtor_keeps this :
  (∀ a, shared_pi this = Some a → (0 < cs a)%nat) →
  post (shared_ptr_dtor this) s (λ _ s', G s' (lose (shared_pi this) cs) cw).
Proof. intros Hheld. by apply (SharedCount_dtor_keeps s cs cw Hgood). Qed.

Lemma weak_ptr_of_shared_keeps sp :
  (∀ a, shared_pi sp = Some a →
        (0 < cs a + cw a)%nat ∧
        Z.of_nat (cw a) + (if decide (cs a = 0%nat) then 0 else 1) < 65535) →
  post (weak_ptr_of_shared sp) s (λ res s', G s' cs (gain (weak_pi res) cw)).
Proof.
  intros Hroom. unfold weak_ptr_of_shared, WeakCount_of_shared.
  apply post_bind, post_bind.
  eapply post_mono; [by apply (WeakCount_add_keeps s cs cw Hgood)|].
  intros [] s' Hg. by apply post_ret, post_ret.
Qed.

Lemma weak_ptr_copy_keeps wp :
  (∀ a, weak_pi wp = Some a →
        (0 < cs a + cw a)%nat ∧
        Z.of_nat (cw a) + (if decide (cs a = 0%nat) then 0 else 1) < 65535) →
  post (weak_ptr_copy wp) s (λ res s', G s' cs (gain (weak_pi res) cw)).
Proof.
  intros Hroom. unfold weak_ptr_copy, WeakCount_copy.
  apply post_bind, post_bind.
  eapply post_mono; [by apply (WeakCount_add_keeps s cs cw Hgood)|].
  intros [] s' Hg. by apply post_ret, post_ret.
Qed.

Lemma weak_ptr_dtor_keeps this :
  (∀ a, weak_pi this = Some a → (0 < cw a)%nat) →
  post (weak_ptr_dtor this) s (λ _ s', G s' cs (lose (weak_pi this) cw)).
Proof. intros Hheld. by apply (WeakCount_dtor_keeps s cs cw Hgood). Qed.
End facades_G.

Lemma weak_ptr_of_weak_keeps s cs cw wp :
  G s cs cw →
  (∀ a, weak_pi wp = Some a →
        (0 < cw a)%nat ∧ Z.of_nat (cs a) < 65535 ∧
        Z.of_nat (cw a) + (if decide (cs a = 0%nat) then 0 else 1) < 65535) →
  post (weak_ptr_of_weak wp) s (λ res s', G s' cs (gain (weak_pi res) cw)).
Proof.
  intros Hgood Hroom. unfold weak_ptr_of_weak, WeakCount_copy.
  apply post_bind, post_bind. eapply post_mono.
  { apply (WeakCount_add_keeps s cs cw Hgood). intros a Ha.
    destruct (Hroom a Ha) as (? & ? & ?). split; [lia | done]. }
  intros [] s1 Hg1. apply post_ret. apply post_bind. eapply post_mono.
  { apply (weak_ptr_lock_keeps s1 cs _ Hg1). intros a Ha.
    destruct (Hroom a Ha) as (? & ? & ?). split; [ledger | done]. }
  intros tmp s2 Hg2. apply post_bind. eapply post_mono.
  { apply (shared_ptr_dtor_keeps s2 _ _ Hg2). intros a Ha. ledger. }
  intros [] s3 Hg3. apply post_ret. unfold weak_pi at 1. cbn.
  eapply G_ext; [| |exact Hg3]; intros; ledger.
Qed.

Lemma weak_ptr_assign_weak_observer_keeps s cs cw this wp :
  G s cs cw →
  (∀ a, weak_pi wp = Some a → (0 < cw a)%nat ∧ Z.of_nat (cs a) < 65535) →
  post (weak_ptr_assign_weak_observer this wp) s
    (λ res s', weak_pi res = weak_pi this ∧ G s' cs cw).
Proof.
  intros Hgood Hroom. unfold weak_ptr_assign_weak_observer. apply post_bind.
  eapply post_mono; [by apply (weak_ptr_lock_keeps s cs cw Hgood)|].
  intros tmp s1 Hg1. apply post_bind. eapply post_mono.
  { apply (shared_ptr_dtor_keeps s1 _ cw Hg1). intros a Ha. ledger. }
  intros [] s2 Hg2. apply post_ret. split; [done|].
  eapply G_ext; [| |exact Hg2]; intros; ledger.
Qed.

Lemma weak_ptr_assign_handle_keeps s cs cw this tmp :
  G s cs cw →
  (∀ a, weak_pi this = Some a → (0 < cw a)%nat) →
  (∀ a, tmp = Some a →
        (0 < cs a + cw a)%nat ∧
        Z.of_nat (cw a) + (if decide (cs a = 0%nat) then 0 else 1) < 65535) →
  post (rc ← WeakCount_assign_pi (weak_ptr.m_refcount this) tmp;
        mret (weak_ptr.mk rc (weak_ptr.m_ptr this))) s
    (λ res s', ∃ cw', G s' cs cw' ∧
                      ∀ b, (cw' b + ind (weak_pi this) b = cw b + ind (weak_pi res) b)%nat).
Proof.
  intros Hgood Hthis Hroom. apply post_bind.
  eapply post_mono; [by apply (WeakCount_assign_pi_keeps s cs cw)|].
  intros rc s' (Hpi & cw' & Hg & Heq). apply post_ret.
  exists cw'. split; [done|]. unfold weak_pi at 2. cbn. by rewrite Hpi.
Qed.

Lemma shared_ptr_assign_handle_keeps s cs cw this sp :
  G s cs cw →
  (∀ a, shared_pi this = Some a → (0 < cs a)%nat) →
  (∀ a, shared_pi sp = Some a → (0 < cs a)%nat) →
  (shared_pi this ≠ shared_pi sp →
   ∀ a, shared_pi sp = Some a → Z.of_nat (cs a) < 65535) →
  post (shared_ptr_assign_handle this sp) s
    (λ res s', ∃ cs', G s' cs' cw ∧
                      ∀ b, (cs' b + ind (shared_pi this) b = cs b + ind (shared_pi res) b)%nat).
Proof.
  intros Hgood Hthis Hsp Hroom. unfold shared_ptr_assign_handle. apply post_bind.
  eapply post_mono; [by apply (SharedCount_assign_keeps s cs cw)|].
  intros rc s' (Hpi & cs' & Hg & Heq). apply post_ret.
  exists cs'. split; [done|]. unfold shared_pi at 2. cbn. by rewrite Hpi.
Qed.

Lemma shared_ptr_reset_keeps s cs cw this :
  G s cs cw →
  (∀ a, shared_pi this = Some a → (0 < cs a)%nat) →
  post (shared_ptr_reset this) s
    (λ res s', ∃ cs', G s' cs' cw ∧
                      ∀ b, (cs' b + ind (shared_pi this) b = cs b + ind (shared_pi res) b)%nat).
Proof.
  intros Hgood Hthis. unfold shared_ptr_reset, shared_ptr_swap. apply post_bind.
  eapply post_mono; [by apply (shared_ptr_dtor_keeps s cs cw Hgood)|].
  intros [] s' Hg. apply post_ret. eexists. split; [exact Hg|].
  intros b. pose proof (Hthis b). unfold shared_pi at 3. cbn. ledger.
Qed.

Lemma shared_ptr_reset_to_keeps s cs cw this p :
  G s cs cw →
  (∀ a, shared_pi this = Some a → (0 < cs a)%nat) →
  post (shared_ptr_reset_to this p) s
    (λ res s', ∃ cs', G s' cs' cw ∧
                      ∀ b, (cs' b + ind (shared_pi this) b = cs b + ind (shared_pi res) b)%nat).
Proof.
  intros Hgood Hthis. unfold shared_ptr_reset_to, shared_ptr_swap. apply post_bind.
  eapply post_mono; [apply (shared_ptr_new_keeps s cs cw Hgood)|].
  intros fresh s1 Hg1. apply post_bind. eapply post_mono.
  { apply (shared_ptr_dtor_keeps s1 _ cw Hg1). intros a Ha. specialize (Hthis a Ha). ledger. }
  intros [] s2 Hg2. apply post_ret. eexists. split; [exact Hg2|].
  intros b. pose proof (Hthis b). ledger.
Qed.

Lemma weak_ptr_reset_keeps s cs cw this :
  G s cs cw →
  (∀ a, weak_pi this = Some a → (0 < cw a)%nat) →
  post (weak_ptr_reset this) s
    (λ res s', ∃ cw', G s' cs cw' ∧
                      ∀ b, (cw' b + ind (weak_pi this) b = cw b + ind (weak_pi res) b)%nat).
Proof.
  intros Hgood Hthis. unfold weak_ptr_reset, weak_ptr_swap. apply post_bind.
  eapply post_mono; [by apply (weak_ptr_dtor_keeps s cs cw Hgood)|].
  intros [] s' Hg. apply post_ret. eexists. split; [exact Hg|].
  intros b. pose proof (Hthis b). unfold weak_pi at 3. cbn. ledger.
Qed.


Section store_G.
Variable m : Machine.
Hypothesis HInv : IG m.

Let CS := refs shared_pi (shareds m).
Let CW := refs weak_pi (weaks m).

Lemma rpost_declare_shared_G x c :
  post c (mem m) (λ sp s', G s' (gain (shared_pi sp) CS) CW) →
  rpost (declare_shared x c m) IG.
Proof.
  intros Hc. unfold declare_shared. destruct (shareds m !! x) eqn:Hx; [done|].
  apply rpost_exec. eapply post_mono; [exact Hc|].
  intros sp s' Hg. cbn. unfold IG. cbn [mem shareds weaks].
  eapply G_ext; [| |exact Hg]; [|done].
  intros a. subst CS. unfold gain. by rewrite refs_insert_fresh.
Qed.

Lemma rpost_declare_weak_G w c :
  post c (mem m) (λ wp s', G s' CS (gain (weak_pi wp) CW)) →
  rpost (declare_weak w c m) IG.
Proof.
  intros Hc. unfold declare_weak. destruct (weaks m !! w) eqn:Hw; [done|].
  apply rpost_exec. eapply post_mono; [exact Hc|].
  intros wp s' Hg. cbn. unfold IG. cbn [mem shareds weaks].
  eapply G_ext; [| |exact Hg]; [done|].
  intros a. subst CW. unfold gain. by rewrite refs_insert_fresh.
Qed.

Lemma rpost_update_shared_G x c :
  (∀ this, shareds m !! x = Some this →
     post (c this) (mem m)
       (λ sp s', ∃ cs', G s' cs' CW ∧
                        ∀ b, (cs' b + ind (shared_pi this) b = CS b + ind (shared_pi sp) b)%nat)) →
  rpost (update_shared x c m) IG.
Proof.
  intros Hc. unfold update_shared. destruct (shareds m !! x) as [this|] eqn:Hx; [|done].
  apply rpost_exec. eapply post_mono; [exact (Hc this eq_refl)|].
  intros sp s' (cs' & Hg & Heq). cbn. unfold IG. cbn [mem shareds weaks].
  eapply G_ext; [| |exact Hg]; [|done].
  intros a. specialize (Heq a). subst CS.
  pose proof (refs_insert shared_pi (shareds m) x this sp a Hx). lia.
Qed.

Lemma rpost_update_weak_G w c :
  (∀ this, weaks m !! w = Some this →
     post (c this) (mem m)
       (λ wp s', ∃ cw', G s' CS cw' ∧
                        ∀ b, (cw' b + ind (weak_pi this) b = CW b + ind (weak_pi wp) b)%nat)) →
  rpost (update_weak w c m) IG.
Proof.
  intros Hc. unfold update_weak. destruct (weaks m !! w) as [this|] eqn:Hw; [|done].
  apply rpost_exec. eapply post_mono; [exact (Hc this eq_refl)|].
  intros wp s' (cw' & Hg & Heq). cbn. unfold IG. cbn [mem shareds weaks].
  eapply G_ext; [| |exact Hg]; [done|].
  intros a. specialize (Heq a). subst CW.
  pose proof (refs_insert weak_pi (weaks m) w this wp a Hw). lia.
Qed.

Lemma rpost_destroy_shared_G x :
  rpost (step (SharedDestroy x) m) IG.
Proof.
  cbn [step]. apply rpost_with_shared. intros this Hx. apply rpost_exec.
  eapply post_mono.
  { apply (shared_ptr_dtor_keeps (mem m) CS CW HInv). intros a. apply (shared_held m x this a Hx). }
  intros [] s' Hg. cbn. unfold IG. cbn [mem shareds weaks].
  eapply G_ext; [| |exact Hg]; [|done].
  intros a. pose proof (refs_delete shared_pi (shareds m) x this a Hx).
  subst CS. unfold lose. lia.
Qed.

Lemma rpost_destroy_weak_G w :
  rpost (step (WeakDestroy w) m) IG.
Proof.
  cbn [step]. apply rpost_with_weak. intros this Hw. apply rpost_exec.
  eapply post_mono.
  { apply (weak_ptr_dtor_keeps (mem m) CS CW HInv). intros a. apply (weak_held m w this a Hw). }
  intros [] s' Hg. cbn. unfold IG. cbn [mem shareds weaks].
  eapply G_ext; [| |exact Hg]; [done|].
  intros a. pose proof (refs_delete weak_pi (weaks m) w this a Hw).
  subst CW. unfold lose. lia.
Qed.
End store_G.

Lemma rpost_update_shared_same_G m x c :
  IG m →
  (∀ this, shareds m !! x = Some this →
     post (c this) (mem m)
       (λ sp s', shared_pi sp = shared_pi this ∧
                 G s' (refs shared_pi (shareds m)) (refs weak_pi (weaks m)))) →
  rpost (update_shared x c m) (same_G m).
Proof.
  intros HInv Hc. unfold update_shared.
  destruct (shareds m !! x) as [this|] eqn:Hx; [|done].
  apply rpost_exec. eapply post_mono; [exact (Hc this eq_refl)|].
  intros sp s' (Hpi & Hg). cbn.
  assert (Hrefs : ∀ a, refs shared_pi (<[x := sp]> (shareds m)) a
                       = refs shared_pi (shareds m) a).
  { intros a. pose proof (refs_insert shared_pi (shareds m) x this sp a Hx).
    rewrite Hpi in H. lia. }
  unfold same_G, IG. cbn [mem shareds weaks]. split_and!; try done.
  - eapply G_ext; [| |exact Hg]; [|done]. intros a. by rewrite Hrefs.
  - intros z. rewrite lookup_insert. case_decide; [|done]. subst z.
    rewrite Hx. cbn. by rewrite Hpi.
Qed.

Lemma rpost_update_weak_same_G m w c :
  IG m →
  (∀ this, weaks m !! w = Some this →
     post (c this) (mem m)
       (λ wp s', weak_pi wp = weak_pi this ∧
                 G s' (refs shared_pi (shareds m)) (refs weak_pi (weaks m)))) →
  rpost (update_weak w c m) (same_G m).
Proof.
  intros HInv Hc. unfold update_weak.
  destruct (weaks m !! w) as [this|] eqn:Hw; [|done].
  apply rpost_exec. eapply post_mono; [exact (Hc this eq_refl)|].
  intros wp s' (Hpi & Hg). cbn.
  assert (Hrefs : ∀ a, refs weak_pi (<[w := wp]> (weaks m)) a
                       = refs weak_pi (weaks m) a).
  { intros a. pose proof (refs_insert weak_pi (weaks m) w this wp a Hw).
    rewrite Hpi in H. lia. }
  unfold same_G, IG. cbn [mem shareds weaks]. split_and!; try done.
  - eapply G_ext; [| |exact Hg]; [done|]. intros a. by rewrite Hrefs.
  - intros z. rewrite lookup_insert. case_decide; [|done]. subst z.
    rewrite Hw. cbn. by rewrite Hpi.
Qed.

Lemma same_shared_G m m1 z sp1 :
  same_G m m1 → shareds m1 !! z = Some sp1 →
  ∃ sp, shareds m !! z = Some sp ∧ shared_pi sp1 = shared_pi sp.
Proof.
  intros (_ & Hs & _) Hz. specialize (Hs z). rewrite Hz in Hs. cbn in Hs.
  destruct (shareds m !! z) as [sp|]; [|done]. exists sp. split; [done|].
  cbn in Hs. congruence.
Qed.

Lemma same_weak_G m m1 z wp1 :
  same_G m m1 → weaks m1 !! z = Some wp1 →
  ∃ wp, weaks m !! z = Some wp ∧ weak_pi wp1 = weak_pi wp.
Proof.
  intros (_ & _ & Hw & _) Hz. specialize (Hw z). rewrite Hz in Hw. cbn in Hw.
  destruct (weaks m !! z) as [wp|]; [|done]. exists wp. split; [done|].
  cbn in Hw. congruence.
Qed.

Lemma step_Inv_G (o : op) (m : Machine) :
  IG m → guarded o m = true → rpost (step o m) IG.
Proof.
  intros HInv Hguard.
  pose proof (strong_room_ledger _ _ _ (G_good _ _ _ HInv)) as Hsr.
  pose proof (weak_room_ledger _ _ _ (G_good _ _ _ HInv)) as Hwr.
  pose proof (unexpired_ledger _ _ _ (G_good _ _ _ HInv)) as Hun.
  destruct o as [x|x p|x y|x y p|x w|x w|x y|x|x p|x y|x
                |w|w x|w v|w v|w v|w x|w v|w|w v|w]; cbn [step guarded] in *.
  - (* SharedDefault *)
    apply rpost_declare_shared_G. apply post_ret. by apply G_gain_none.
  - (* SharedNew *)
    apply rpost_declare_shared_G. by apply shared_ptr_new_keeps.
  - (* SharedCopy *)
    apply rpost_with_shared. intros sp Hy. rewrite Hy in Hguard.
    apply rpost_declare_shared_G. apply shared_ptr_copy_keeps; [done|].
    intros a Ha. split; [exact (shared_held m y sp a Hy Ha) | by eapply Hsr].
  - (* SharedAlias *)
    apply rpost_with_shared. intros sp Hy. rewrite Hy in Hguard.
    apply rpost_declare_shared_G. apply shared_ptr_alias_keeps; [done|].
    intros a Ha. split; [exact (shared_held m y sp a Hy Ha) | by eapply Hsr].
  - (* SharedOfWeak *)
    apply rpost_with_weak. intros wp Hw. rewrite Hw in Hguard.
    apply andb_true_iff in Hguard as [Hroom Hlive].
    apply rpost_declare_shared_G. apply shared_ptr_of_weak_keeps; [done|].
    intros a Ha. split; [|by eapply Hsr].
    eapply Hun; [done..|]. pose proof (weak_held m w wp a Hw Ha). lia.
  - (* SharedLock *)
    apply rpost_with_weak. intros wp Hw. rewrite Hw in Hguard.
    apply rpost_declare_shared_G. apply weak_ptr_lock_keeps; [done|].
    intros a Ha. split; [exact (weak_held m w wp a Hw Ha) | by eapply Hsr].
  - (* SharedAssign *)
    eapply rpost_and_then.
    + apply rpost_with_shared. intros sp Hy.
      apply rpost_update_shared_same_G; [done|]. intros this Hx.
      apply post_ret. by split.
    + intros m1 Hsame. pose proof Hsame as (HInv1 & _ & _ & Hrs & Hrw).
      apply rpost_with_shared. intros sp1 Hy1.
      destruct (same_shared_G m m1 y sp1 Hsame Hy1) as (sp & Hy & Hpiy).
      apply rpost_update_shared_G. intros this1 Hx1.
      destruct (same_shared_G m m1 x this1 Hsame Hx1) as (this & Hx & Hpix).
      rewrite Hx, Hy in Hguard.
      assert (Hg1 : G (mem m1) (refs shared_pi (shareds m)) (refs weak_pi (weaks m)))
        by (eapply G_ext; [exact Hrs | exact Hrw | exact HInv1]).
      eapply post_mono.
      { apply (shared_ptr_assign_handle_keeps _ _ _ this1 sp1 Hg1).
        - intros a Ha. rewrite Hpix in Ha. exact (shared_held m x this a Hx Ha).
        - intros a Ha. rewrite Hpiy in Ha. exact (shared_held m y sp a Hy Ha).
        - intros Hne a Ha. rewrite Hpix, Hpiy in Hne. rewrite Hpiy in Ha.
          apply orb_true_iff in Hguard as [Heq|Hroom].
          + by apply bool_decide_eq_true in Heq.
          + by eapply Hsr. }
      intros res s' (cs' & Hg & Heq). exists cs'. split.
      * eapply G_ext; [| |exact Hg]; [done|]. intros a. by rewrite Hrw.
      * intros b. rewrite Hrs. apply Heq.
  - (* SharedReset *)
    apply rpost_update_shared_G. intros this Hx.
    apply shared_ptr_reset_keeps; [done|]. intros a Ha. exact (shared_held m x this a Hx Ha).
  - (* SharedResetTo *)
    apply rpost_update_shared_G. intros this Hx.
    apply shared_ptr_reset_to_keeps; [done|]. intros a Ha. exact (shared_held m x this a Hx Ha).
  - (* SharedSwap *)
    destruct (shareds m !! x) as [this|] eqn:Hx; [|done].
    destruct (shareds m !! y) as [sp|] eqn:Hy; [|done].
    cbn. unfold IG. cbn [mem shareds weaks].
    eapply G_ext; [| |exact HInv]; [|done].
    intros a. symmetry. by apply refs_swap.
  - (* SharedDestroy *)
    by apply rpost_destroy_shared_G.
  - (* WeakDefault *)
    apply rpost_declare_weak_G. apply post_ret. by apply G_weak_gain_none.
  - (* WeakOfShared *)
    apply rpost_with_shared. intros sp Hx. rewrite Hx in Hguard.
    apply rpost_declare_weak_G. apply weak_ptr_of_shared_keeps; [done|].
    intros a Ha. split; [|by eapply Hwr].
    pose proof (shared_held m x sp a Hx Ha). lia.
  - (* WeakCopy *)
    apply rpost_with_weak. intros wp Hv. rewrite Hv in Hguard.
    apply rpost_declare_weak_G. apply weak_ptr_copy_keeps; [done|].
    intros a Ha. split; [|by eapply Hwr].
    pose proof (weak_held m v wp a Hv Ha). lia.
  - (* WeakOfWeak *)
    apply rpost_with_weak. intros wp Hv. rewrite Hv in Hguard.
    apply andb_true_iff in Hguard as [Hroomw Hrooms].
    apply rpost_declare_weak_G. apply weak_ptr_of_weak_keeps; [done|].
    intros a Ha. split_and!; [exact (weak_held m v wp a Hv Ha) | by eapply Hsr | by eapply Hwr].
  - (* WeakAssign *)
    eapply rpost_and_then.
    + apply rpost_with_weak. intros wp Hv. rewrite Hv in Hguard.
      apply rpost_update_weak_G. intros this Hw.
      apply weak_ptr_assign_handle_keeps; [done| |].
      * intros a Ha. exact (weak_held m w this a Hw Ha).
      * intros a Ha. split; [|by eapply Hwr].
        pose proof (weak_held m v wp a Hv Ha). lia.
    + intros m1 HInv1. apply rpost_with_weak. intros wp1 Hv1.
      eapply rpost_mono; [apply (rpost_update_weak_same_G m1 w _ HInv1)|].
      * intros this1 Hw1. apply post_ret. by split.
      * by intros m2 (HInv2 & _).
  - (* WeakAssignShared *)
    eapply rpost_and_then.
    + apply rpost_with_shared. intros sp Hx.
      apply rpost_update_weak_same_G; [done|]. intros this Hw.
      apply post_ret. by split.
    + intros m1 Hsame. pose proof Hsame as (HInv1 & _ & _ & Hrs & Hrw).
      apply rpost_with_shared. intros sp1 Hx1.
      destruct (same_shared_G m m1 x sp1 Hsame Hx1) as (sp & Hx & Hpix).
      apply rpost_update_weak_G. intros this1 Hw1.
      destruct (same_weak_G m m1 w this1 Hsame Hw1) as (this & Hw & Hpiw).
      rewrite Hx in Hguard.
      assert (Hg1 : G (mem m1) (refs shared_pi (shareds m)) (refs weak_pi (weaks m)))
        by (eapply G_ext; [exact Hrs | exact Hrw | exact HInv1]).
      eapply post_mono.
      { apply (weak_ptr_assign_handle_keeps _ _ _ this1 (shared_pi sp1) Hg1).
        - intros a Ha. rewrite Hpiw in Ha. exact (weak_held m w this a Hw Ha).
        - intros a Ha. rewrite Hpix in Ha. split; [|by eapply Hwr].
          pose proof (shared_held m x sp a Hx Ha). lia. }
      intros res s' (cw' & Hg & Heq). exists cw'. split.
      * eapply G_ext; [| |exact Hg]; [|done]. intros a. by rewrite Hrs.
      * intros b. rewrite Hrw. apply Heq.
  - (* WeakAssignWeak *)
    eapply rpost_and_then.
    + apply rpost_with_weak. intros wp Hv. rewrite Hv in Hguard.
      apply andb_true_iff in Hguard as [Hroomw Hrooms].
      apply rpost_update_weak_same_G; [done|]. intros this Hw.
      apply weak_ptr_assign_weak_observer_keeps; [done|].
      intros a Ha. split; [exact (weak_held m v wp a Hv Ha) | by eapply Hsr].
    + intros m1 Hsame. pose proof Hsame as (HInv1 & _ & _ & Hrs & Hrw).
      apply rpost_with_weak. intros wp1 Hv1.
      destruct (same_weak_G m m1 v wp1 Hsame Hv1) as (wp & Hv & Hpiv).
      apply rpost_update_weak_G. intros this1 Hw1.
      destruct (same_weak_G m m1 w this1 Hsame Hw1) as (this & Hw & Hpiw).
      rewrite Hv in Hguard.
      apply andb_true_iff in Hguard as [Hroomw Hrooms].
      assert (Hg1 : G (mem m1) (refs shared_pi (shareds m)) (refs weak_pi (weaks m)))
        by (eapply G_ext; [exact Hrs | exact Hrw | exact HInv1]).
      eapply post_mono.
      { apply (weak_ptr_assign_handle_keeps _ _ _ this1 (weak_pi wp1) Hg1).
        - intros a Ha. rewrite Hpiw in Ha. exact (weak_held m w this a Hw Ha).
        - intros a Ha. rewrite Hpiv in Ha. split; [|by eapply Hwr].
          pose proof (weak_held m v wp a Hv Ha). lia. }
      intros res s' (cw' & Hg & Heq). exists cw'. split.
      * eapply G_ext; [| |exact Hg]; [|done]. intros a. by rewrite Hrs.
      * intros b. rewrite Hrw. apply Heq.
  - (* WeakReset *)
    apply rpost_update_weak_G. intros this Hw.
    apply weak_ptr_reset_keeps; [done|]. intros a Ha. exact (weak_held m w this a Hw Ha).
  - (* WeakSwap *)
    destruct (weaks m !! w) as [this|] eqn:Hw; [|done].
    destruct (weaks m !! v) as [wp|] eqn:Hv; [|done].
    cbn. unfold IG. cbn [mem shareds weaks].
    eapply G_ext; [| |exact HInv]; [done|].
    intros a. symmetry. by apply refs_swap.
  - (* WeakDestroy *)
    by apply rpost_destroy_weak_G.
Qed.

Lemma run_Inv_G (prog : list op) : ∀ m,
  IG m → guarded_run prog m = true → rpost (run prog m) IG.
Proof.
  induction prog as [|o prog IH]; intros m HInv Hguard; [done|].
  cbn [run guarded_run] in *. apply andb_true_iff in Hguard as [Hg Hrest].
  pose proof (step_Inv_G o m HInv Hg) as Hstep.
  destruct (step o m) as [m'| |]; cbn in *; auto.
Qed.
End engine.

(** ** The methods of the control block keep the life of every block *)

Ltac tally :=
  unfold disposals, frees; cbn [trace];
  rewrite ?count_events_app, ?count_events_cons, ?count_events_nil;
  cbn [is_dispose is_destroy];
  repeat case_bool_decide; simplify_eq;
  repeat match goal with |- context [(?x =? ?y)%Z] => destruct (Z.eqb_spec x y) end;
  try lia.

(** A state that differs from one with a sound life in the block at [a]
    and in the events [evs], which concern no other block. *)
Lemma lifecycle_update (s : State) (a : loc) r r' evs :
  lifecycle s →
  heap s !! a = Some r →
  (∀ b, b ≠ a → count_events (is_dispose b) evs = 0%nat ∧
                count_events (is_destroy b) evs = 0%nat) →
  (count_events (is_dispose a) evs +
     (if (ReferenceCount.m_use_count r =? 0)%Z then 1 else 0))%nat
  = (if ReferenceCount.m_use_count r' =? 0 then 1%nat else 0%nat) →
  count_events (is_destroy a) evs = 0%nat →
  lifecycle (mkState (<[a := r']> (heap s)) (next s) (trace s ++ evs)).
Proof.
  intros Hl Hr Hother Hd Hf b. specialize (Hl b). cbn [heap next].
  unfold disposals, frees in *. cbn [trace]. rewrite !count_events_app.
  destruct (decide (b = a)) as [->|Hne].
  - rewrite lookup_insert_eq. rewrite Hr in Hl. destruct Hl as [Hl1 Hl2]. lia.
  - rewrite lookup_insert_ne by done. destruct (Hother b Hne) as [-> ->].
    rewrite !Nat.add_0_r. exact Hl.
Qed.

Lemma lifecycle_remove (s : State) (a : loc) r evs :
  lifecycle s →
  heap s !! a = Some r →
  (a < next s)%positive →
  (∀ b, b ≠ a → count_events (is_dispose b) evs = 0%nat ∧
                count_events (is_destroy b) evs = 0%nat) →
  (count_events (is_dispose a) evs +
     (if (ReferenceCount.m_use_count r =? 0)%Z then 1 else 0))%nat = 1%nat →
  count_events (is_destroy a) evs = 1%nat →
  lifecycle (mkState (delete a (heap s)) (next s) (trace s ++ evs)).
Proof.
  intros Hl Hr Hlt Hother Hd Hf b. specialize (Hl b). cbn [heap next].
  unfold disposals, frees in *. cbn [trace]. rewrite !count_events_app.
  destruct (decide (b = a)) as [->|Hne].
  - rewrite lookup_delete_eq. rewrite Hr in Hl. destruct Hl as [Hl1 Hl2].
    rewrite bool_decide_eq_true_2 by done. lia.
  - rewrite lookup_delete_ne by done. destruct (Hother b Hne) as [-> ->].
    rewrite !Nat.add_0_r. exact Hl.
Qed.

Lemma sound_ext s cs cw cs' cw' :
  (∀ a, cs a = cs' a) → (∀ a, cw a = cw' a) → sound s cs cw → sound s cs' cw'.
Proof. intros Hs Hw [Hg Hl]. split; [by eapply good_ext | done]. Qed.

Lemma sound_good s cs cw : sound s cs cw → good s cs cw.
Proof. by intros [? ?]. Qed.

Section life.
Variables (s : State) (cs cw : loc → nat) (a : loc).
Hypothesis Hsound : sound s cs cw.

Lemma create_sound p :
  post (create (ReferenceCount_new p)) s (λ b s', sound s' (gain (Some b) cs) cw).
Proof.
  destruct Hsound as [Hgood Hlife].
  pose proof (create_good s cs cw Hgood p) as Hg. unfold post in *.
  rewrite run_create in *. destruct Hg as [Hg _]. split; [done|].
  destruct Hgood as (Hb & Hn & _).
  assert (Hfresh : heap s !! next s = None).
  { destruct (heap s !! next s) eqn:E; [|done].
    assert (next s < next s)%positive by (apply (Hn (next s)); eexists; exact E). lia. }
  intros b. specialize (Hlife b). cbn [heap next]. unfold disposals, frees in *.
  cbn [trace]. destruct (decide (b = next s)) as [->|Hne].
  - rewrite lookup_insert_eq. rewrite Hfresh in Hlife. cbn.
    rewrite bool_decide_eq_false_2 in Hlife by lia. done.
  - rewrite lookup_insert_ne by done. destruct (heap s !! b); [done|].
    destruct (decide (b < next s)%positive).
    + rewrite bool_decide_eq_true_2 in Hlife by done.
      rewrite bool_decide_eq_true_2 by lia. done.
    + rewrite bool_decide_eq_false_2 in Hlife by done.
      rewrite bool_decide_eq_false_2 by lia. done.
Qed.

Lemma add_copied_sound :
  (0 < cs a)%nat → Z.of_nat (cs a) < 65535 →
  post (ReferenceCount_add_copied_reference a) s
    (λ _ s', sound s' (gain (Some a) cs) cw).
Proof.
  intros Hc Hroom. destruct Hsound as [Hgood Hlife].
  pose proof (add_copied_good s cs cw a Hgood Hc Hroom) as Hg.
  destruct (good_live s cs cw a Hgood) as (r & Hr & Hu & _); [lia|].
  unfold post in *. rewrite (add_copied_reference_run s a r Hr) in *.
  split; [done|].
  apply (lifecycle_update s a r);
    [done | done | intros b Hb; split; tally | | tally].
  cbn [set_use_count set_weak_count ReferenceCount.m_use_count]. rewrite Hu, wrap16_small by lia.
  destruct (Z.eqb_spec (Z.of_nat (cs a)) 0), (Z.eqb_spec (Z.of_nat (cs a) + 1) 0); tally.
Qed.

Lemma add_locked_sound :
  (0 < cs a)%nat → Z.of_nat (cs a) < 65535 →
  post (ReferenceCount_add_locked_reference a) s
    (λ _ s', sound s' (gain (Some a) cs) cw).
Proof.
  intros Hc Hroom. destruct Hsound as [Hgood Hlife].
  pose proof (add_locked_good s cs cw a Hgood Hc Hroom) as Hg.
  destruct (good_live s cs cw a Hgood) as (r & Hr & Hu & _); [lia|].
  unfold post in *. rewrite (add_locked_reference_run s a r Hr) in *.
  split; [done|].
  destruct (Z.eqb_spec (ReferenceCount.m_use_count r) 0) as [E|E]; [lia|].
  apply (lifecycle_update s a r);
    [done | done | intros b Hb; split; tally | | tally].
  cbn [set_use_count set_weak_count ReferenceCount.m_use_count]. rewrite Hu, wrap16_small by lia.
  destruct (Z.eqb_spec (Z.of_nat (cs a)) 0), (Z.eqb_spec (Z.of_nat (cs a) + 1) 0); tally.
Qed.

Lemma release_sound :
  (0 < cs a)%nat →
  post (ReferenceCount_release a) s (λ _ s', sound s' (lose (Some a) cs) cw).
Proof.
  intros Hc. destruct Hsound as [Hgood Hlife].
  pose proof (release_good s cs cw a Hgood Hc) as Hg.
  destruct (good_live s cs cw a Hgood) as (r & Hr & Hu & Hw & _ & Humax & _); [lia|].
  assert (Hlt : (a < next s)%positive).
  { destruct Hgood as (_ & Hn & _). apply Hn. by eexists. }
  unfold post in *. rewrite (release_run s a r Hr) in *.
  destruct (Z.eqb_spec (ReferenceCount.m_use_count r) 1) as [E1|E1];
    [destruct (Z.eqb_spec (ReferenceCount.m_weak_count r) 1) as [E2|E2]|];
    (split; [done|]).
  - apply (lifecycle_remove s a r);
      [done | done | done | intros b Hb; split; tally | rewrite E1; tally | tally].
  - apply (lifecycle_update s a r);
      [done | done | intros b Hb; split; tally | rewrite E1; cbn [set_use_count set_weak_count ReferenceCount.m_use_count]; tally | tally].
  - apply (lifecycle_update s a r);
      [done | done | intros b Hb; split; tally | | tally].
    cbn [set_use_count set_weak_count ReferenceCount.m_use_count]. rewrite wrap16_small by lia.
    destruct (Z.eqb_spec (ReferenceCount.m_use_count r) 0),
      (Z.eqb_spec (ReferenceCount.m_use_count r - 1) 0); tally.
Qed.

Lemma add_weak_sound :
  (0 < cs a + cw a)%nat →
  Z.of_nat (cw a) + (if decide (cs a = 0%nat) then 0 else 1) < 65535 →
  post (ReferenceCount_add_weak_reference a) s
    (λ _ s', sound s' cs (gain (Some a) cw)).
Proof.
  intros Hpos Hroom. destruct Hsound as [Hgood Hlife].
  pose proof (add_weak_good s cs cw a Hgood Hpos Hroom) as Hg.
  destruct (good_live s cs cw a Hgood Hpos) as (r & Hr & _).
  unfold post in *. rewrite (add_weak_reference_run s a r Hr) in *.
  split; [done|].
  apply (lifecycle_update s a r);
    [done | done | intros b Hb; split; tally | cbn [set_use_count set_weak_count ReferenceCount.m_use_count]; tally | tally].
Qed.

Lemma weak_release_sound :
  (0 < cw a)%nat →
  post (ReferenceCount_weak_release a) s (λ _ s', sound s' cs (lose (Some a) cw)).
Proof.
  intros Hc. destruct Hsound as [Hgood Hlife].
  pose proof (weak_release_good s cs cw a Hgood Hc) as Hg.
  destruct (good_live s cs cw a Hgood) as (r & Hr & Hu & Hw & _); [lia|].
  assert (Hlt : (a < next s)%positive).
  { destruct Hgood as (_ & Hn & _). apply Hn. by eexists. }
  unfold post in *. rewrite (weak_release_run s a r Hr) in *.
  destruct (Z.eqb_spec (ReferenceCount.m_weak_count r) 1) as [E|E];
    (split; [done|]).
  - assert (Hz : cs a = 0%nat) by (destruct (decide (cs a = 0%nat)); lia).
    apply (lifecycle_remove s a r);
      [done | done | done | intros b Hb; split; tally | rewrite Hu, Hz; tally | tally].
  - apply (lifecycle_update s a r);
      [done | done | intros b Hb; split; tally | cbn [set_use_count set_weak_count ReferenceCount.m_use_count]; tally | tally].
Qed.
End life.

(** ** Every block is disposed once and freed once *)

Lemma sound_boot :
  sound (mem boot) (refs shared_pi (shareds boot)) (refs weak_pi (weaks boot)).
Proof.
  split; [exact Inv_boot|]. intros a. cbn. rewrite lookup_empty.
  rewrite bool_decide_eq_false_2 by lia. done.
Qed.

Lemma reached_sound (prog : list op) (m : Machine) :
  guarded_run prog boot = true → run prog boot = Running m →
  sound (mem m) (refs shared_pi (shareds m)) (refs weak_pi (weaks m)).
Proof.
  intros Hguard Hrun.
  pose proof (run_Inv_G sound sound_good sound_ext
                (λ s cs cw p H, create_sound s cs cw H p)
                add_copied_sound add_locked_sound release_sound
                add_weak_sound weak_release_sound prog boot sound_boot Hguard) as H.
  by rewrite Hrun in H.
Qed.

Lemma sound_disposals s cs cw a :
  sound s cs cw →
  disposals s a =
    (if bool_decide (a < next s)%positive && bool_decide (cs a = 0%nat) then 1 else 0)%nat.
Proof.
  intros [(Hb & Hn & _) Hl]. specialize (Hb a). specialize (Hl a).
  destruct (heap s !! a) as [r|] eqn:Hr.
  - destruct Hl as [-> _]. destruct Hb as (Hu & _).
    rewrite bool_decide_eq_true_2 by (apply Hn; by eexists). cbn [andb].
    destruct (Z.eqb_spec (ReferenceCount.m_use_count r) 0);
      case_bool_decide; try done; lia.
  - destruct Hl as [-> _]. destruct Hb as [-> _].
    rewrite (bool_decide_eq_true_2 (0 = 0)%nat) by done. by rewrite andb_true_r.
Qed.

Lemma sound_frees s cs cw a :
  sound s cs cw →
  frees s a =
    (if bool_decide (a < next s)%positive && bool_decide (cs a + cw a = 0)%nat
     then 1 else 0)%nat ∧
  (heap s !! a = None ↔ (cs a + cw a = 0)%nat).
Proof.
  intros [(Hb & Hn & _) Hl]. specialize (Hb a). specialize (Hl a).
  destruct (heap s !! a) as [r|] eqn:Hr.
  - destruct Hl as [_ ->]. destruct Hb as (_ & _ & Hpos & _).
    rewrite (bool_decide_eq_false_2 (_ = 0)%nat) by lia. rewrite andb_false_r.
    split; [done|]. split; [done | lia].
  - destruct Hl as [_ ->]. destruct Hb as [-> ->].
    rewrite (bool_decide_eq_true_2 (0 + 0 = 0)%nat) by done. by rewrite andb_true_r.
Qed.

(** X16.  In a guarded program the pointee of a block is disposed at most once:
    once every shared pointer referencing the block is gone, and not while
    one of them is left, however many weak pointers reference the block. *)
Theorem pointee_disposed_once_when_unowned (prog : list op) (m : Machine) (a : loc) :
  guarded_run prog boot = true →
  run prog boot = Running m →
  (disposals (mem m) a ≤ 1)%nat ∧
  (disposals (mem m) a = 1%nat ↔
     (a < next (mem m))%positive ∧ refs shared_pi (shareds m) a = 0%nat) ∧
  (∀ x sp, shareds m !! x = Some sp → shared_pi sp = Some a →
           disposals (mem m) a = 0%nat).
Proof.
  intros Hguard Hrun. pose proof (reached_sound prog m Hguard Hrun) as Hs.
  pose proof (sound_disposals _ _ _ a Hs) as Hd.
  split_and!.
  - rewrite Hd. destruct (_ && _); lia.
  - rewrite Hd. destruct (decide (a < next (mem m))%positive) as [E1|E1],
      (decide (refs shared_pi (shareds m) a = 0%nat)) as [E2|E2];
      rewrite ?(bool_decide_eq_true_2 _ E1), ?(bool_decide_eq_false_2 _ E1),
        ?(bool_decide_eq_true_2 _ E2), ?(bool_decide_eq_false_2 _ E2); cbn [andb];
      split; try done; intros [? ?]; done.
  - intros x sp Hx Hpi. pose proof (shared_held m x sp a Hx Hpi) as Hheld.
    rewrite Hd, (bool_decide_eq_false_2 (_ = 0%nat)) by lia. by rewrite andb_false_r.
Qed.

Lemma pointee_disposed_once_when_unowned_witness :
  disposals
    (mkState {[1%positive := ReferenceCount.mk 5 0 1]} 2%positive
       [StrongAdd 1%positive 1; WeakAdd 1%positive 1; StrongSub 1%positive 2;
        StrongSub 1%positive 1; Dispose 1%positive 5; WeakSub 1%positive 2])
    1%positive = 1%nat.
Proof.
  destruct (pointee_disposed_once_when_unowned (scenario 5)
              (mkMachine
                 (mkState {[1%positive := ReferenceCount.mk 5 0 1]} 2%positive
                    [StrongAdd 1%positive 1; WeakAdd 1%positive 1; StrongSub 1%positive 2;
                     StrongSub 1%positive 1; Dispose 1%positive 5; WeakSub 1%positive 2])
                 ∅ {["W" := weak_ptr.mk (WeakCount.mk (Some 1%positive)) 5]})
              1%positive)
    as (_ & H & _).
  - vm_compute. reflexivity.
  - vm_compute. reflexivity.
  - apply H. split; [reflexivity | vm_compute; reflexivity].
Defined.

(** X17.  In a guarded program a control block is freed at most once: once every
    shared and weak pointer referencing it is gone, and not while one of
    them is left; a freed block has had its pointee disposed; and when no
    pointer at all is left, the heap is empty and every block ever
    allocated has been disposed once and freed once. *)
Theorem block_freed_once_when_unreferenced (prog : list op) (m : Machine) :
  guarded_run prog boot = true →
  run prog boot = Running m →
  (∀ a,
     (frees (mem m) a ≤ 1)%nat ∧
     (frees (mem m) a = 1%nat ↔
        (a < next (mem m))%positive ∧
        refs shared_pi (shareds m) a = 0%nat ∧ refs weak_pi (weaks m) a = 0%nat) ∧
     (frees (mem m) a = 1%nat ↔ (a < next (mem m))%positive ∧ heap (mem m) !! a = None) ∧
     (frees (mem m) a = 1%nat → disposals (mem m) a = 1%nat)) ∧
  (shareds m = ∅ → weaks m = ∅ →
     heap (mem m) = ∅ ∧
     ∀ a, (a < next (mem m))%positive →
          disposals (mem m) a = 1%nat ∧ frees (mem m) a = 1%nat).
Proof.
  intros Hguard Hrun. pose proof (reached_sound prog m Hguard Hrun) as Hs.
  assert (Hall : ∀ a,
     (frees (mem m) a ≤ 1)%nat ∧
     (frees (mem m) a = 1%nat ↔
        (a < next (mem m))%positive ∧
        refs shared_pi (shareds m) a = 0%nat ∧ refs weak_pi (weaks m) a = 0%nat) ∧
     (frees (mem m) a = 1%nat ↔ (a < next (mem m))%positive ∧ heap (mem m) !! a = None) ∧
     (frees (mem m) a = 1%nat → disposals (mem m) a = 1%nat)).
  { intros a. pose proof (sound_disposals _ _ _ a Hs) as Hd.
    destruct (sound_frees _ _ _ a Hs) as [Hf Hheap].
    rewrite Hheap, Hd, Hf.
    destruct (decide (a < next (mem m))%positive) as [E1|E1];
      rewrite ?(bool_decide_eq_true_2 _ E1), ?(bool_decide_eq_false_2 _ E1); cbn [andb];
      repeat case_bool_decide; split_and!; try done; try lia;
      split; try done; try lia; intros (? & ?); try done; lia. }
  split; [exact Hall|]. intros Hsh Hwk.
  assert (Hnone : ∀ a, refs shared_pi (shareds m) a = 0%nat ∧
                       refs weak_pi (weaks m) a = 0%nat).
  { intros a. by rewrite Hsh, Hwk, !refs_empty. }
  split.
  - apply map_eq. intros a. rewrite lookup_empty.
    destruct (sound_frees _ _ _ a Hs) as [_ Hheap]. apply Hheap.
    destruct (Hnone a) as [-> ->]. done.
  - intros a Hlt. destruct (Hall a) as (_ & Hf & _ & Hd). destruct (Hnone a).
    assert (frees (mem m) a = 1%nat) by (apply Hf; done). split; [by apply Hd | done].
Qed.

Lemma block_freed_once_when_unreferenced_witness :
  heap
    (mkState ∅ 2%positive
       [StrongAdd 1%positive 1; WeakAdd 1%positive 1; StrongSub 1%positive 2;
        StrongSub 1%positive 1; Dispose 1%positive 5; WeakSub 1%positive 2;
        WeakSub 1%positive 1; Destroy 1%positive]) = ∅ ∧
  frees
    (mkState ∅ 2%positive
       [StrongAdd 1%positive 1; WeakAdd 1%positive 1; StrongSub 1%positive 2;
        StrongSub 1%positive 1; Dispose 1%positive 5; WeakSub 1%positive 2;
        WeakSub 1%positive 1; Destroy 1%positive]) 1%positive = 1%nat.
Proof.
  destruct (block_freed_once_when_unreferenced (scenario 5 ++ [WeakDestroy "W"])
              (mkMachine
                 (mkState ∅ 2%positive
                    [StrongAdd 1%positive 1; WeakAdd 1%positive 1; StrongSub 1%positive 2;
                     StrongSub 1%positive 1; Dispose 1%positive 5; WeakSub 1%positive 2;
                     WeakSub 1%positive 1; Destroy 1%positive])
                 ∅ ∅))
    as (_ & H).
  - vm_compute. reflexivity.
  - vm_compute. reflexivity.
  - destruct H as [Hheap Hall]; [reflexivity | reflexivity |].
    split; [exact Hheap|]. apply (Hall 1%positive). reflexivity.
Defined.


(** * Static strings *)

Lemma MIN_min a b : MIN a b = Z.min a b.
Proof. unfold MIN. destruct (Z.ltb_spec a b); lia. Qed.

Lemma size_cast_small size_bits z : 0 ≤ z < 2 ^ size_bits → size_cast size_bits z = z.
Proof. intros H. unfold size_cast. by apply Z.mod_small. Qed.

Lemma chars_0 buf n : chars buf 0 n = take (Z.to_nat n) buf.
Proof. unfold chars. by rewrite drop_0. Qed.

Lemma length_chars buf from n :
  0 ≤ from → 0 ≤ n → from + n ≤ Z.of_nat (length buf) →
  length (chars buf from n) = Z.to_nat n.
Proof.
  intros Hf Hn Hle. unfold chars. rewrite length_take, length_drop. lia.
Qed.

Lemma memcpy_Some dst off src from n :
  0 ≤ off → 0 ≤ from → 0 ≤ n →
  off + n ≤ Z.of_nat (length dst) → from + n ≤ Z.of_nat (length src) →
  memcpy dst off src from n =
    Some (take (Z.to_nat off) dst ++ chars src from n ++ drop (Z.to_nat (off + n)) dst).
Proof. intros. unfold memcpy. by rewrite bool_decide_eq_true_2. Qed.

Lemma length_memcpy dst off src from n buf :
  memcpy dst off src from n = Some buf → length buf = length dst.
Proof.
  unfold memcpy. case_bool_decide as H; [|done]. intros [= <-].
  destruct H as (? & ? & ? & ? & ?).
  rewrite !length_app, length_take, length_chars, length_drop by done. lia.
Qed.

Lemma poke_Some buf i c :
  0 ≤ i < Z.of_nat (length buf) → poke buf i c = Some (<[Z.to_nat i := c]> buf).
Proof. intros. unfold poke. by rewrite bool_decide_eq_true_2. Qed.

Lemma peek_poke buf i c :
  0 ≤ i < Z.of_nat (length buf) → peek (<[Z.to_nat i := c]> buf) i = Some c.
Proof.
  intros H. unfold peek. rewrite bool_decide_eq_true_2 by lia.
  apply list_lookup_insert_eq. lia.
Qed.

Lemma chars_poke buf i c n :
  0 ≤ n ≤ i → chars (<[Z.to_nat i := c]> buf) 0 n = chars buf 0 n.
Proof. intros H. rewrite !chars_0. apply take_insert_ge. lia. Qed.

Lemma peek_lookup buf i : 0 ≤ i → peek buf i = buf !! Z.to_nat i.
Proof. intros. unfold peek. by rewrite bool_decide_eq_true_2. Qed.

(** The characters of a buffer after [memcpy] to the position [off]: those
    before [off] stay, the copied ones follow. *)
Lemma chars_memcpy dst off src n :
  0 ≤ off → 0 ≤ n →
  off + n ≤ Z.of_nat (length dst) → n ≤ Z.of_nat (length src) →
  chars (take (Z.to_nat off) dst ++ chars src 0 n ++ drop (Z.to_nat (off + n)) dst)
    0 (off + n) =
  take (Z.to_nat off) dst ++ take (Z.to_nat n) src.
Proof.
  intros Hoff Hn Hd Hs. rewrite !chars_0. rewrite app_assoc.
  rewrite take_app_length'; [done|].
  rewrite length_app, !length_take. lia.
Qed.

Lemma chars_memcpy_total dst off src n t :
  t = off + n → 0 ≤ off → 0 ≤ n →
  off + n ≤ Z.of_nat (length dst) → n ≤ Z.of_nat (length src) →
  chars (take (Z.to_nat off) dst ++ chars src 0 n ++ drop (Z.to_nat (off + n)) dst) 0 t =
  take (Z.to_nat off) dst ++ take (Z.to_nat n) src.
Proof. intros ->. apply chars_memcpy. Qed.

(** [strlen] finds the first terminator. *)
Lemma strlen_Some str n :
  strlen str = Some n ↔
  0 ≤ n ∧ str !! Z.to_nat n = Some 0 ∧
  ∀ i c, (i < Z.to_nat n)%nat → str !! i = Some c → c ≠ 0.
Proof.
  revert n. induction str as [|c str IH]; intros n; cbn [strlen].
  - split; [done|]. by intros (_ & H & _).
  - destruct (Z.eqb_spec c 0) as [->|Hc].
    + split.
      * intros [= <-]. split; [done|]. split; [done|]. intros i c Hi. cbn in Hi. lia.
      * intros (Hn & Hz & Hfirst). f_equal.
        destruct (decide (n = 0)) as [|Hne]; [done|].
        destruct (Hfirst 0%nat 0); [lia|done|done].
    + split.
      * intros H. destruct (strlen str) as [k|]; [|done]. cbn in H. injection H as <-.
        destruct (proj1 (IH k) eq_refl) as (Hk0 & Hkz & Hkf).
        split; [lia|]. split.
        -- replace (Z.to_nat (Z.succ k)) with (S (Z.to_nat k)) by lia. done.
        -- intros i c' Hi Hl. destruct i as [|i]; cbn in Hl; [congruence|].
           apply (Hkf i c'); [lia|done].
      * intros (Hn & Hz & Hfirst).
        assert (Hn0 : n ≠ 0).
        { intros ->. change (Z.to_nat 0) with 0%nat in Hz. cbn in Hz. congruence. }
        rewrite (proj2 (IH (n - 1))).
        -- cbn. f_equal. lia.
        -- split; [lia|]. split.
           ++ replace (Z.to_nat n) with (S (Z.to_nat (n - 1))) in Hz by lia. done.
           ++ intros i c' Hi Hl. apply (Hfirst (S i) c'); [lia|done].
Qed.

Lemma strlen_lt str n : strlen str = Some n → 0 ≤ n < Z.of_nat (length str).
Proof.
  intros (Hn & Hz & _)%strlen_Some. apply lookup_lt_Some in Hz. lia.
Qed.

Lemma strlen_None str : (∀ i c, str !! i = Some c → c ≠ 0) → strlen str = None.
Proof.
  intros Hall. destruct (strlen str) as [n|] eqn:E; [|done].
  apply strlen_Some in E as (_ & Hz & _). by destruct (Hall _ _ Hz).
Qed.

Lemma strlen_exists str k :
  str !! k = Some 0 → ∃ n, strlen str = Some n ∧ 0 ≤ n ≤ Z.of_nat k.
Proof.
  revert k. induction str as [|c str IH]; intros k Hk; [done|]. cbn [strlen].
  destruct (Z.eqb_spec c 0) as [->|Hc]; [exists 0; split; [done|lia]|].
  destruct k as [|k]; cbn in Hk; [congruence|].
  destruct (IH k Hk) as (n & -> & Hn). exists (Z.succ n). split; [done|lia].
Qed.


Lemma terminated_length tSize s : terminated tSize s → length (contents s) = Z.to_nat (static_string.m_len s).
Proof.
  intros (Hl & Hm & _). unfold contents. rewrite length_chars; lia.
Qed.

Lemma static_string_of_run (tSize : Z) raw str len :
  0 ≤ tSize →
  Z.of_nat (length raw) = tSize + 1 → 0 ≤ len → MIN len tSize ≤ Z.of_nat (length str) →
  ∃ s, static_string_of tSize raw str len = Some s ∧
       terminated tSize s ∧
       static_string.m_len s = MIN len tSize ∧
       contents s = take (Z.to_nat (MIN len tSize)) str.
Proof.
  intros HtSize.
  intros Hraw Hlen Hstr. unfold static_string_of. rewrite MIN_min in *.
  rewrite memcpy_Some by lia. cbn.
  set (buf := take _ raw ++ _).
  assert (Hbuf : length buf = length raw).
  { eapply (length_memcpy raw 0 str 0 (Z.min len tSize)). by rewrite memcpy_Some by lia. }
  rewrite poke_Some by lia. cbn. eexists. split; [reflexivity|].
  unfold terminated, contents. cbn [static_string.m_buffer static_string.m_len].
  rewrite length_insert, peek_poke, chars_poke by lia.
  split_and!; try lia; try done.
  unfold buf. rewrite chars_0. change (Z.to_nat 0) with 0%nat. rewrite take_0, app_nil_l.
  rewrite take_app_length'; [apply chars_0|]. rewrite length_chars; lia.
Qed.

Lemma static_string_append_run (size_bits tSize : Z) this str len :
  0 ≤ tSize →
  tSize + 1 < 2 ^ size_bits →
  terminated tSize this → 0 ≤ len → len ≤ Z.of_nat (length str) →
  static_string.m_len this + len < 2 ^ size_bits →
  ∃ s, static_string_append size_bits tSize this str len = Some s ∧
       terminated tSize s ∧
       static_string.m_len s = Z.min tSize (static_string.m_len this + len) ∧
       contents s = take (Z.to_nat tSize) (contents this ++ take (Z.to_nat len) str).
Proof.
  intros HtSize Hsize.
  intros (Hl & Hm & Ht) Hlen Hstr Hno. destruct this as [buf m]. cbn in *.
  unfold static_string_append. cbn [static_string.m_buffer static_string.m_len].
  rewrite MIN_min, (size_cast_small _ (m + len)) by lia.
  set (new_len := Z.min tSize (m + len)).
  rewrite (size_cast_small _ (new_len - m)) by lia.
  rewrite memcpy_Some by lia. cbn.
  set (buf1 := take _ buf ++ _).
  assert (Hbuf : length buf1 = length buf).
  { eapply (length_memcpy buf m str 0 (new_len - m)). by rewrite memcpy_Some by lia. }
  rewrite poke_Some by lia. cbn. eexists. split; [reflexivity|].
  unfold terminated, contents. cbn [static_string.m_buffer static_string.m_len].
  rewrite length_insert, peek_poke, chars_poke by lia.
  split_and!; try lia; try done.
  unfold buf1. rewrite (chars_memcpy_total buf m str (new_len - m) new_len) by lia.
  rewrite chars_0.
  rewrite take_app_ge by (rewrite length_take; lia).
  rewrite length_take, take_take. f_equal. f_equal. lia.
Qed.

Lemma static_string_erase_run (size_bits tSize : Z) this pos :
  0 ≤ tSize →
  tSize + 1 < 2 ^ size_bits →
  terminated tSize this → 0 ≤ pos →
  ∃ s, static_string_erase size_bits this pos = Some s ∧
       terminated tSize s ∧
       contents s = delete (Z.to_nat pos) (contents this).
Proof.
  intros HtSize Hsize.
  intros (Hl & Hm & Ht) Hpos. destruct this as [buf m]. cbn in *.
  unfold static_string_erase. cbn [static_string.m_buffer static_string.m_len].
  destruct (Z.eqb_spec m 0) as [E|E]; cbn [orb].
  { eexists. split; [reflexivity|]. split; [done|].
    unfold contents. cbn. rewrite E, chars_0. by destruct (Z.to_nat pos). }
  destruct (Z.leb_spec m pos) as [E'|E'].
  { eexists. split; [reflexivity|]. split; [done|].
    unfold contents. cbn. rewrite chars_0.
    assert (Hlen : (length (take (Z.to_nat m) buf) ≤ Z.to_nat pos)%nat)
      by (rewrite length_take; lia).
    rewrite delete_take_drop, (take_ge _ (Z.to_nat pos)), drop_ge, app_nil_r by lia.
    done. }
  rewrite (size_cast_small _ (m - 1)), (size_cast_small _ (pos + 1)),
    (size_cast_small _ (m - 1 - pos)) by lia.
  unfold memmove. rewrite memcpy_Some by lia. cbn.
  set (buf1 := take _ buf ++ _).
  assert (Hbuf : length buf1 = length buf).
  { eapply (length_memcpy buf pos buf (pos + 1) (m - 1 - pos)). by rewrite memcpy_Some by lia. }
  rewrite poke_Some by lia. cbn. eexists. split; [reflexivity|].
  unfold terminated, contents. cbn [static_string.m_buffer static_string.m_len].
  rewrite length_insert, peek_poke, chars_poke by lia.
  split_and!; try lia; try done.
  unfold buf1. rewrite !chars_0, app_assoc.
  rewrite take_app_length' by (rewrite length_app, length_take, length_chars; lia).
  rewrite delete_take_drop, take_take. unfold chars.
  replace (Z.to_nat pos `min` Z.to_nat m)%nat with (Z.to_nat pos) by lia.
  f_equal. rewrite take_drop_commute. f_equal.
  - lia.
  - f_equal. lia.
Qed.

Lemma static_string_pop_back_run (size_bits tSize : Z) this :
  0 ≤ tSize →
  tSize + 1 < 2 ^ size_bits →
  terminated tSize this →
  ∃ s, static_string_pop_back size_bits this = Some s ∧
       terminated tSize s ∧
       contents s = take (Z.to_nat (static_string.m_len this - 1)) (contents this).
Proof.
  intros HtSize Hsize.
  intros (Hl & Hm & Ht). destruct this as [buf m]. cbn in *.
  unfold static_string_pop_back. cbn [static_string.m_buffer static_string.m_len].
  destruct (Z.eqb_spec m 0) as [E|E].
  { eexists. split; [reflexivity|]. split; [done|].
    unfold contents. cbn. by rewrite E. }
  rewrite (size_cast_small _ (m - 1)) by lia.
  rewrite poke_Some by lia. cbn. eexists. split; [reflexivity|].
  unfold terminated, contents. cbn [static_string.m_buffer static_string.m_len].
  rewrite length_insert, peek_poke, chars_poke by lia.
  split_and!; try lia; try done.
  rewrite !chars_0, take_take. f_equal. lia.
Qed.

Lemma static_string_concat_run (size_bits tSize : Z) raw str1 str2 len1 len2 :
  0 ≤ tSize →
  tSize + 1 < 2 ^ size_bits →
  Z.of_nat (length raw) = tSize + 1 →
  0 ≤ len1 ≤ Z.of_nat (length str1) → 0 ≤ len2 ≤ Z.of_nat (length str2) →
  len1 + len2 < 2 ^ size_bits →
  ∃ s, static_string_concat size_bits tSize raw str1 str2 len1 len2 = Some s ∧
       terminated tSize s ∧
       static_string.m_len s = Z.min tSize (len1 + len2) ∧
       contents s =
         take (Z.to_nat tSize) (take (Z.to_nat len1) str1 ++ take (Z.to_nat len2) str2).
Proof.
  intros HtSize Hsize.
  intros Hraw H1 H2 Hno. unfold static_string_concat.
  rewrite !MIN_min, (size_cast_small _ (len1 + len2)) by lia.
  set (m := Z.min (len1 + len2) tSize). set (k := Z.min m len1).
  rewrite (size_cast_small _ (m - k)) by lia.
  rewrite memcpy_Some by lia. cbn.
  set (buf1 := take _ raw ++ _).
  assert (Hbuf1 : length buf1 = length raw).
  { eapply (length_memcpy raw 0 str1 0 k). by rewrite memcpy_Some by lia. }
  rewrite memcpy_Some by lia. cbn.
  set (buf2 := take _ buf1 ++ _).
  assert (Hbuf2 : length buf2 = length buf1).
  { eapply (length_memcpy buf1 k str2 0 (m - k)). by rewrite memcpy_Some by lia. }
  rewrite poke_Some by lia. cbn. eexists. split; [reflexivity|].
  unfold terminated, contents. cbn [static_string.m_buffer static_string.m_len].
  rewrite length_insert, peek_poke, chars_poke by lia.
  split_and!; try lia; try done.
  unfold buf2. rewrite (chars_memcpy_total buf1 k str2 (m - k) m) by lia.
  assert (Hk : take (Z.to_nat k) buf1 = take (Z.to_nat k) str1).
  { unfold buf1. change (Z.to_nat 0) with 0%nat. rewrite take_0, app_nil_l.
    rewrite take_app_length' by (rewrite length_chars; lia). apply chars_0. }
  rewrite Hk.
  destruct (Z.le_gt_cases len1 tSize) as [Hfit|Hfit].
  - replace k with len1 by lia.
    rewrite take_app_ge by (rewrite length_take; lia).
    rewrite length_take, take_take. f_equal. f_equal. lia.
  - replace (m - k) with 0 by lia. replace k with tSize by lia.
    change (Z.to_nat 0) with 0%nat. rewrite take_0, app_nil_r.
    rewrite take_app_le by (rewrite length_take; lia).
    rewrite take_take. f_equal. lia.
Qed.

Lemma static_string_assign_cstr_run (size_bits tSize : Z) this str len :
  0 ≤ tSize →
  tSize + 1 < 2 ^ size_bits →
  Z.of_nat (length (static_string.m_buffer this)) = tSize + 1 →
  strlen str = Some len →
  ∃ s, static_string_assign_cstr size_bits tSize this str = Some s ∧
       Z.of_nat (length (static_string.m_buffer s)) = tSize + 1 ∧
       static_string.m_len s = Z.min len tSize ∧
       contents s = take (Z.to_nat (Z.min len tSize)) str ∧
       peek (static_string.m_buffer s) (static_string.m_len s) =
         str !! Z.to_nat (Z.min len tSize) ∧
       static_string.m_buffer s =
         take (Z.to_nat (Z.min len tSize + 1)) str ++
         drop (Z.to_nat (Z.min len tSize + 1)) (static_string.m_buffer this).
Proof.
  intros HtSize Hsize.
  intros Hl Hlen. pose proof (strlen_lt str len Hlen) as Hlt.
  unfold static_string_assign_cstr. rewrite Hlen. cbn. rewrite MIN_min.
  set (m := Z.min len tSize).
  rewrite (size_cast_small _ (m + 1)) by lia.
  rewrite memcpy_Some by lia. cbn. eexists. split; [reflexivity|].
  unfold contents. cbn [static_string.m_buffer static_string.m_len].
  change (Z.to_nat 0) with 0%nat. rewrite take_0, app_nil_l.
  assert (Hc : length (chars str 0 (m + 1)) = Z.to_nat (m + 1)) by (apply length_chars; lia).
  split_and!.
  - rewrite length_app, Hc, length_drop. lia.
  - done.
  - rewrite !chars_0. rewrite take_app_le by (rewrite length_take; lia).
    rewrite take_take. f_equal. lia.
  - rewrite peek_lookup by lia. rewrite lookup_app_l by lia.
    rewrite chars_0. apply lookup_take_lt. lia.
  - by rewrite chars_0.
Qed.

Lemma static_string_back_run (size_bits tSize : Z) this :
  0 ≤ tSize →
  tSize + 1 < 2 ^ size_bits →
  terminated tSize this →
  static_string_back size_bits this =
    if static_string.m_len this =? 0 then Some 0 else last (contents this).
Proof.
  intros HtSize Hsize.
  intros (Hl & Hm & Ht). destruct this as [buf m]. cbn in *.
  unfold static_string_back, static_string_empty, contents.
  cbn [static_string.m_buffer static_string.m_len].
  destruct (Z.eqb_spec m 0) as [->|E]; [done|].
  rewrite (size_cast_small _ (m - 1)), peek_lookup, chars_0 by lia.
  rewrite last_lookup, length_take.
  replace (Init.Nat.pred (Z.to_nat m `min` length buf)) with (Z.to_nat (m - 1)) by lia.
  symmetry. apply lookup_take_lt. lia.
Qed.

Lemma static_string_at_run (size_bits tSize : Z) this pos :
  terminated tSize this → 0 ≤ pos →
  static_string_at size_bits this pos =
    if static_string.m_len this <=? pos then static_string_back size_bits this
    else contents this !! Z.to_nat pos.
Proof.
  intros (Hl & Hm & Ht) Hpos. unfold static_string_at.
  destruct (Z.leb_spec (static_string.m_len this) pos) as [E|E]; [done|].
  unfold contents. rewrite peek_lookup, chars_0 by lia.
  symmetry. apply lookup_take_lt. lia.
Qed.

(** ** Construction *)

(** X18.  The constructor from a character array and a length keeps the first
    [len] characters, cut at the capacity, and terminates them; the
    constructor from a C string is this constructor at [strlen(str)]. *)
Theorem static_string_of_spec (tSize : Z) (raw str : list Z) (len : Z) :
  0 ≤ tSize →
  Z.of_nat (length raw) = tSize + 1 →
  0 ≤ len ≤ Z.of_nat (length str) →
  ∃ s, static_string_of tSize raw str len = Some s ∧
       terminated tSize s ∧
       static_string_length s = Z.min len tSize ∧
       contents s = take (Z.to_nat tSize) (take (Z.to_nat len) str) ∧
       (strlen str = Some len → static_string_of_cstr tSize raw str = Some s).
Proof.
  intros HtSize Hraw Hlen.
  destruct (static_string_of_run tSize raw str len) as (s & Hs & Ht & Hm & Hc);
    [done | done | lia | rewrite MIN_min; lia |].
  exists s. rewrite MIN_min in *. split_and!; try done.
  - rewrite Hc, take_take. f_equal. lia.
  - intros Hstr. unfold static_string_of_cstr. by rewrite Hstr.
Qed.

Lemma static_string_of_spec_witness :
  ∃ s, static_string_of 2 [9; 9; 9] [104; 101; 108; 108; 111; 0] 5 = Some s ∧
       contents s = [104; 101].
Proof.
  destruct (static_string_of_spec 2 [9; 9; 9] [104; 101; 108; 108; 111; 0] 5)
    as (s & Hs & _ & _ & Hc & _).
  - lia.
  - reflexivity.
  - cbn. lia.
  - exists s. split; [exact Hs | exact Hc].
Defined.

(** X19.  The copy constructor goes through [c_str()]: it copies the characters
    before the first ['\0'] only, so a string that holds a ['\0'] among its
    characters is cut there, while the copy assignment copies all [m_len]
    characters. *)
Theorem static_string_copy_spec (size_bits tSize : Z) (raw : list Z) (this str : static_string.t) :
  0 ≤ tSize → tSize + 1 < 2 ^ size_bits →
  Z.of_nat (length raw) = tSize + 1 →
  Z.of_nat (length (static_string.m_buffer this)) = tSize + 1 →
  terminated tSize str →
  ∃ s a n,
    static_string_copy tSize raw str = Some s ∧
    static_string_assign size_bits this str = Some a ∧
    strlen (static_string_c_str str) = Some n ∧
    terminated tSize s ∧ terminated tSize a ∧
    contents s = take (Z.to_nat n) (contents str) ∧
    contents a = contents str ∧
    (0 ∉ contents str → contents s = contents str).
Proof.
  intros HtSize Hsize Hraw Hthis (Hl & Hm & Ht). destruct str as [buf m]. cbn in *.
  rewrite peek_lookup in Ht by lia.
  destruct (strlen_exists buf (Z.to_nat m) Ht) as (n & Hn & Hle).
  destruct (static_string_of_run tSize raw buf n) as (s & Hs & Hts & Hms & Hc);
    [done | done | lia | rewrite MIN_min; lia |].
  rewrite MIN_min in *. replace (Z.min n tSize) with n in * by lia.
  exists s. eexists. exists n.
  unfold static_string_copy, static_string_of_cstr, static_string_assign, static_string_c_str.
  cbn [static_string.m_buffer static_string.m_len]. rewrite Hn. cbn.
  rewrite (size_cast_small _ (m + 1)), memcpy_Some by lia. cbn.
  split; [done|]. split; [reflexivity|]. split; [done|]. split; [done|].
  change (Z.to_nat 0) with 0%nat. rewrite take_0, app_nil_l.
  assert (Hch : length (chars buf 0 (m + 1)) = Z.to_nat (m + 1)) by (apply length_chars; lia).
  assert (Hcont : ∀ j, 0 ≤ j ≤ m →
            take (Z.to_nat j) (chars buf 0 (m + 1) ++
                               drop (Z.to_nat (0 + (m + 1))) (static_string.m_buffer this)) =
            take (Z.to_nat j) buf).
  { intros j Hj. rewrite take_app_le by lia. rewrite chars_0, take_take. f_equal. lia. }
  split_and!.
  - unfold terminated. cbn [static_string.m_buffer static_string.m_len].
    rewrite length_app, Hch, length_drop. split; [lia|]. split; [lia|].
    rewrite peek_lookup, lookup_app_l by lia. rewrite chars_0.
    rewrite lookup_take_lt by lia. done.
  - unfold contents in *. cbn [static_string.m_buffer static_string.m_len].
    rewrite Hc, !chars_0, take_take. f_equal. lia.
  - unfold contents. cbn [static_string.m_buffer static_string.m_len].
    rewrite !chars_0. apply Hcont. lia.
  - intros Hnz. unfold contents in *. cbn [static_string.m_buffer static_string.m_len] in *.
    rewrite Hc. rewrite chars_0 in *. f_equal.
    destruct (decide (n = m)) as [->|Hne]; [done|]. destruct Hnz.
    apply strlen_Some in Hn as (_ & Hz & _).
    apply list_elem_of_lookup. exists (Z.to_nat n). rewrite lookup_take_lt by lia. done.
Qed.

Lemma static_string_copy_spec_witness :
  ∃ s a,
    static_string_copy 3 [9; 9; 9; 9] (static_string.mk [97; 0; 98; 0] 3) = Some s ∧
    static_string_assign 16 (static_string.mk [0; 9; 9; 9] 0)
      (static_string.mk [97; 0; 98; 0] 3) = Some a ∧
    contents s = take 1 (contents (static_string.mk [97; 0; 98; 0] 3)) ∧
    contents a = contents (static_string.mk [97; 0; 98; 0] 3).
Proof.
  destruct (static_string_copy_spec 16 3 [9; 9; 9; 9] (static_string.mk [0; 9; 9; 9] 0)
              (static_string.mk [97; 0; 98; 0] 3))
    as (s & a & n & Hs & Ha & Hn & _ & _ & Hc & Hca & _).
  - lia.
  - reflexivity.
  - reflexivity.
  - reflexivity.
  - unfold terminated. cbn. split; [lia|]. split; [lia|reflexivity].
  - exists s, a. injection Hn as <-. split; [exact Hs|]. split; [exact Ha|].
    split; [exact Hc | exact Hca].
Defined.

(** ** Assignment from a C string *)

(** X20.  [operator=] from a C string copies [m_len + 1] characters: a C string
    that fits is copied with its terminator, but of a longer one the
    character at position [tSize] is copied where the terminator belongs,
    and the buffer then holds no ['\0'] at all, whereas the constructor
    from the same C string terminates what it keeps. *)
Theorem static_string_assign_cstr_spec
    (size_bits tSize : Z) (this : static_string.t) (str : list Z) (len : Z) :
  0 ≤ tSize → tSize + 1 < 2 ^ size_bits →
  Z.of_nat (length (static_string.m_buffer this)) = tSize + 1 →
  strlen str = Some len →
  ∃ s c,
    static_string_assign_cstr size_bits tSize this str = Some s ∧
    static_string_of_cstr tSize (static_string.m_buffer this) str = Some c ∧
    terminated tSize c ∧
    static_string_length s = Z.min len tSize ∧
    contents s = contents c ∧
    contents s = take (Z.to_nat tSize) (take (Z.to_nat len) str) ∧
    (len ≤ tSize → terminated tSize s) ∧
    (tSize < len → ¬ terminated tSize s ∧ strlen (static_string_c_str s) = None).
Proof.
  intros HtSize Hsize Hthis Hlen. pose proof (strlen_lt str len Hlen) as Hlt.
  destruct (static_string_assign_cstr_run size_bits tSize this str len HtSize Hsize Hthis Hlen)
    as (s & Hs & Hl & Hm & Hc & Hp & Hbuf).
  destruct (static_string_of_run tSize (static_string.m_buffer this) str len)
    as (c & Hcs & Hct & Hcm & Hcc); [done | done | lia | rewrite MIN_min; lia |].
  rewrite MIN_min in *.
  exists s, c. unfold static_string_of_cstr. rewrite Hlen. cbn.
  apply strlen_Some in Hlen as (_ & Hz & Hfirst).
  split_and!; try done.
  - by rewrite Hc, Hcc.
  - rewrite Hc, take_take. f_equal. lia.
  - intros Hfit. unfold terminated. split; [done|]. split; [lia|].
    rewrite Hp. by replace (Z.min len tSize) with len by lia.
  - intros Hlong. replace (Z.min len tSize) with tSize in * by lia.
    assert (Hnz : ∀ i c', static_string.m_buffer s !! i = Some c' → c' ≠ 0).
    { intros i c' Hi. rewrite Hbuf in Hi.
      rewrite drop_ge, app_nil_r in Hi by lia.
      apply lookup_take_Some in Hi as [Hi Hilt]. apply (Hfirst i c'); [lia|done]. }
    split.
    + intros (_ & _ & Hterm). rewrite peek_lookup in Hterm by lia.
      by apply (Hnz _ _ Hterm).
    + by apply strlen_None.
Qed.

Lemma static_string_assign_cstr_spec_witness :
  ∃ s,
    static_string_assign_cstr 16 2 (static_string.mk [0; 9; 9] 0) [104; 105; 33; 0] = Some s ∧
    ¬ terminated 2 s ∧ strlen (static_string_c_str s) = None.
Proof.
  destruct (static_string_assign_cstr_spec 16 2 (static_string.mk [0; 9; 9] 0)
              [104; 105; 33; 0] 3)
    as (s & c & Hs & _ & _ & _ & _ & _ & _ & Hlong).
  - lia.
  - reflexivity.
  - reflexivity.
  - reflexivity.
  - exists s. split; [exact Hs|]. apply Hlong. lia.
Defined.

(** ** Appending and concatenating *)

(** X21.  [append] adds the first [len] characters of the array after the
    characters of the string, keeps what fits into the capacity and drops
    the rest, and leaves the string terminated; a full string is left as it
    was; appending a string appends its characters. *)
Theorem static_string_append_spec
    (size_bits tSize : Z) (this : static_string.t) (str : list Z) (len : Z) :
  0 ≤ tSize → tSize + 1 < 2 ^ size_bits →
  terminated tSize this →
  0 ≤ len ≤ Z.of_nat (length str) →
  static_string.m_len this + len < 2 ^ size_bits →
  ∃ s, static_string_append size_bits tSize this str len = Some s ∧
       terminated tSize s ∧
       static_string_length s = Z.min tSize (static_string_length this + len) ∧
       contents s = take (Z.to_nat tSize) (contents this ++ take (Z.to_nat len) str) ∧
       (static_string_length this = tSize → contents s = contents this) ∧
       (∀ other, terminated tSize other → str = static_string_c_str other →
          len = static_string_length other →
          static_string_append_string size_bits tSize this other = Some s ∧
          contents s = take (Z.to_nat tSize) (contents this ++ contents other)).
Proof.
  intros HtSize Hsize Ht Hlen Hno.
  destruct (static_string_append_run size_bits tSize this str len) as (s & Hs & Hts & Hm & Hc);
    [done | done | done | lia | lia | done |].
  exists s. split_and!; try done.
  - intros Hfull. rewrite Hc. pose proof (terminated_length tSize this Ht) as Hl.
    unfold static_string_length in Hfull.
    rewrite take_app_le by lia. apply take_ge. lia.
  - intros other Hto -> ->. unfold static_string_append_string. split; [done|].
    rewrite Hc. unfold contents at 3. by rewrite chars_0.
Qed.

Lemma static_string_append_spec_witness :
  ∃ s, static_string_append 16 3 (static_string.mk [97; 98; 0; 9] 2) [99; 100; 101] 3 = Some s ∧
       contents s = take 3 (contents (static_string.mk [97; 98; 0; 9] 2) ++ take 3 [99; 100; 101]).
Proof.
  destruct (static_string_append_spec 16 3 (static_string.mk [97; 98; 0; 9] 2) [99; 100; 101] 3)
    as (s & Hs & _ & _ & Hc & _).
  - lia.
  - reflexivity.
  - unfold terminated. cbn. split; [lia|]. split; [lia|reflexivity].
  - cbn. lia.
  - reflexivity.
  - exists s. split; [exact Hs | exact Hc].
Defined.

(** X22.  [operator+] of two strings gives a terminated string with the
    characters of the first followed by those of the second, cut at the
    capacity: the characters that [append] leaves in the first string. *)
Theorem static_string_plus_spec
    (size_bits tSize : Z) (raw : list Z) (this str : static_string.t) :
  0 ≤ tSize → tSize + 1 < 2 ^ size_bits →
  Z.of_nat (length raw) = tSize + 1 →
  terminated tSize this → terminated tSize str →
  static_string.m_len this + static_string.m_len str < 2 ^ size_bits →
  ∃ s a,
    static_string_plus size_bits tSize raw this str = Some s ∧
    static_string_append_string size_bits tSize this str = Some a ∧
    terminated tSize s ∧
    contents s = take (Z.to_nat tSize) (contents this ++ contents str) ∧
    contents s = contents a ∧
    static_string_length s = static_string_length a.
Proof.
  intros HtSize Hsize Hraw Ht Hs Hno.
  pose proof Ht as (Hl1 & Hm1 & _). pose proof Hs as (Hl2 & Hm2 & _).
  destruct (static_string_concat_run size_bits tSize raw
              (static_string.m_buffer this) (static_string.m_buffer str)
              (static_string.m_len this) (static_string.m_len str))
    as (s & Hplus & Hts & Hms & Hcs); [done | done | done | lia | lia | done |].
  destruct (static_string_append_run size_bits tSize this
              (static_string.m_buffer str) (static_string.m_len str))
    as (a & Happ & Hta & Hma & Hca); [done | done | done | lia | lia | done |].
  exists s, a. unfold static_string_plus, static_string_append_string,
    static_string_c_str, static_string_length.
  split_and!.
  - exact Hplus.
  - exact Happ.
  - exact Hts.
  - rewrite Hcs. unfold contents. by rewrite !chars_0.
  - rewrite Hcs, Hca. unfold contents. by rewrite !chars_0.
  - by rewrite Hms, Hma.
Qed.

Lemma static_string_plus_spec_witness :
  ∃ s, static_string_plus 16 3 [9; 9; 9; 9] (static_string.mk [97; 98; 0; 9] 2)
         (static_string.mk [99; 100; 0; 9] 2) = Some s ∧
       contents s = take 3 (contents (static_string.mk [97; 98; 0; 9] 2) ++
                            contents (static_string.mk [99; 100; 0; 9] 2)).
Proof.
  destruct (static_string_plus_spec 16 3 [9; 9; 9; 9] (static_string.mk [97; 98; 0; 9] 2)
              (static_string.mk [99; 100; 0; 9] 2))
    as (s & a & Hs & _ & _ & Hc & _).
  - lia.
  - reflexivity.
  - reflexivity.
  - unfold terminated. cbn. split; [lia|]. split; [lia|reflexivity].
  - unfold terminated. cbn. split; [lia|]. split; [lia|reflexivity].
  - reflexivity.
  - exists s. split; [exact Hs | exact Hc].
Defined.

(** ** Erasing *)

(** X23.  [erase(pos)] removes the character at [pos] and nothing else, does
    nothing when [pos] is not a position of the string, and leaves the
    string terminated; [pop_back()] is [erase] at the last position. *)
Theorem static_string_erase_spec
    (size_bits tSize : Z) (this : static_string.t) (pos : Z) :
  0 ≤ tSize → tSize + 1 < 2 ^ size_bits →
  terminated tSize this →
  0 ≤ pos →
  ∃ s p,
    static_string_erase size_bits this pos = Some s ∧
    static_string_pop_back size_bits this = Some p ∧
    terminated tSize s ∧ terminated tSize p ∧
    contents s = delete (Z.to_nat pos) (contents this) ∧
    (static_string_length this ≤ pos → s = this) ∧
    (pos < static_string_length this →
       static_string_length s = static_string_length this - 1) ∧
    (pos = static_string_length this - 1 → contents p = contents s).
Proof.
  intros HtSize Hsize Ht Hpos. pose proof (terminated_length tSize this Ht) as Hlen.
  destruct (static_string_erase_run size_bits tSize this pos) as (s & Hs & Hts & Hc);
    [done..|].
  destruct (static_string_pop_back_run size_bits tSize this) as (p & Hp & Htp & Hcp);
    [done..|].
  exists s, p. split_and!; try done.
  - intros Hout. unfold static_string_erase in Hs. unfold static_string_length in Hout.
    destruct (Z.leb_spec (static_string.m_len this) pos) as [_|]; [|lia].
    rewrite orb_true_r in Hs. congruence.
  - intros Hin. unfold static_string_length in *.
    pose proof (terminated_length tSize s Hts) as Hls.
    pose proof Hts as (_ & Hms & _). pose proof Ht as (_ & Hm & _).
    rewrite Hc, length_delete in Hls; [lia|]. apply lookup_lt_is_Some. lia.
  - intros ->. rewrite Hcp, Hc. unfold static_string_length.
    rewrite delete_take_drop, drop_ge, app_nil_r by lia. done.
Qed.

Lemma static_string_erase_spec_witness :
  ∃ s, static_string_erase 16 (static_string.mk [97; 98; 99; 0] 3) 1 = Some s ∧
       contents s = delete 1%nat (contents (static_string.mk [97; 98; 99; 0] 3)).
Proof.
  destruct (static_string_erase_spec 16 3 (static_string.mk [97; 98; 99; 0] 3) 1)
    as (s & p & Hs & _ & _ & _ & Hc & _).
  - lia.
  - reflexivity.
  - unfold terminated. cbn. split; [lia|]. split; [lia|reflexivity].
  - lia.
  - exists s. split; [exact Hs | exact Hc].
Defined.

(** ** Access *)

(** X24.  [at(pos)] never reads outside the buffer: at a position of the string
    it gives the character there; at any other position it gives [back()],
    which is the last character, or the terminator when the string is
    empty; dereferencing the iterator [end()] therefore gives [back()]
    too. *)
Theorem static_string_at_spec (size_bits tSize : Z) (this : static_string.t) (pos : Z) :
  0 ≤ tSize → tSize + 1 < 2 ^ size_bits →
  terminated tSize this →
  0 ≤ pos →
  (pos < static_string_length this →
     static_string_at size_bits this pos = contents this !! Z.to_nat pos ∧
     is_Some (static_string_at size_bits this pos)) ∧
  (static_string_length this ≤ pos →
     static_string_at size_bits this pos = static_string_back size_bits this) ∧
  static_string_back size_bits this =
    (if static_string_empty this then Some 0 else last (contents this)) ∧
  is_Some (static_string_back size_bits this) ∧
  StringIterator_deref size_bits this (static_string_end this) =
    static_string_back size_bits this.
Proof.
  intros HtSize Hsize Ht Hpos. pose proof (terminated_length tSize this Ht) as Hlen.
  pose proof Ht as (Hl & Hm & _).
  pose proof (static_string_back_run size_bits tSize this HtSize Hsize Ht) as Hback.
  assert (Hsome : is_Some (static_string_back size_bits this)).
  { rewrite Hback. destruct (Z.eqb_spec (static_string.m_len this) 0); [by eexists|].
    rewrite last_lookup. apply lookup_lt_is_Some. lia. }
  unfold static_string_length, static_string_empty. split_and!; try done.
  - intros Hin. rewrite (static_string_at_run size_bits tSize) by done.
    destruct (Z.leb_spec (static_string.m_len this) pos); [lia|].
    split; [done|]. apply lookup_lt_is_Some. lia.
  - intros Hout. rewrite (static_string_at_run size_bits tSize) by done.
    destruct (Z.leb_spec (static_string.m_len this) pos); [done|lia].
  - unfold StringIterator_deref, static_string_end, StringIterator_new,
      StringIterator_check_bounds, static_string_length. cbn.
    rewrite Z.ltb_irrefl. cbn. rewrite (static_string_at_run size_bits tSize) by (done || lia).
    by rewrite Z.leb_refl.
Qed.

Lemma static_string_at_spec_witness :
  static_string_at 16 (static_string.mk [97; 98; 0; 9] 2) 7 =
  static_string_back 16 (static_string.mk [97; 98; 0; 9] 2).
Proof.
  destruct (static_string_at_spec 16 3 (static_string.mk [97; 98; 0; 9] 2) 7)
    as (_ & H & _).
  - lia.
  - reflexivity.
  - unfold terminated. cbn. split; [lia|]. split; [lia|reflexivity].
  - lia.
  - apply H. cbn. lia.
Defined.

(** ** Comparison with a character *)

(** X25.  [compare(c)] is 0 exactly when the string consists of the single
    character [c], which is when [operator==] with [c] holds; it is -1 for
    the empty string, 1 for a longer string that starts with [c], and the
    difference of the first character and [c] otherwise. *)
Theorem static_string_compare_char_spec
    (size_bits tSize : Z) (this : static_string.t) (c : Z) :
  0 ≤ tSize → tSize + 1 < 2 ^ size_bits →
  terminated tSize this →
  ∃ r,
    static_string_compare_char this c = Some r ∧
    (r = 0 ↔ contents this = [c]) ∧
    static_string_eq_char size_bits this c = Some (bool_decide (r = 0)) ∧
    (contents this = [] → r = -1) ∧
    (∀ rest, contents this = c :: rest → rest ≠ [] → r = 1) ∧
    (∀ b rest, contents this = b :: rest → b ≠ c → r = b - c).
Proof.
  intros HtSize Hsize Ht. pose proof (terminated_length tSize this Ht) as Hlen.
  pose proof Ht as (Hl & Hm & _). destruct this as [buf m]. cbn in *.
  unfold static_string_compare_char, static_string_eq_char, static_string_length,
    static_string_at, static_string_back, static_string_empty, contents in *.
  cbn [static_string.m_buffer static_string.m_len] in *. rewrite chars_0 in *.
  destruct (Z.eqb_spec m 0) as [->|Hm0].
  { exists (-1). cbn. by split_and!. }
  destruct buf as [|b buf]; [cbn in Hl; lia|].
  replace (Z.to_nat m) with (S (Z.to_nat (m - 1))) in * by lia.
  cbn [take] in *. change (peek (b :: buf) 0) with (Some b). cbn [mbind option_bind].
  assert (Hrest : take (Z.to_nat (m - 1)) buf = [] ↔ m = 1).
  { split.
    - intros Hnil. rewrite Hnil in Hlen. cbn in Hlen. lia.
    - intros ->. done. }
  destruct (Z.eqb_spec (b - c) 0) as [E|E].
  - assert (b = c) as -> by lia.
    destruct (Z.ltb_spec 1 m) as [Hlong|Hshort].
    + exists 1. destruct (Z.eqb_spec m 1) as [|_]; [lia|].
      split; [done|]. split.
      { split; [done|]. intros [= Hnil]. apply Hrest in Hnil. lia. }
      split; [done|]. split; [done|]. split; [done|].
      intros b rest [= <- _] Hne. done.
    + exists 0. assert (m = 1) as -> by lia. cbn.
      rewrite Z.eqb_refl. split; [done|]. split; [done|]. split; [done|].
      split; [done|]. split.
      * intros rest [= <-] Hne. done.
      * intros b rest [= <- _] Hne. done.
  - exists (b - c). split; [done|]. split.
    { split; [done|]. intros [= -> _]. lia. }
    split.
    { rewrite (bool_decide_eq_false_2 _ E).
      destruct (Z.eqb_spec m 1) as [->|_]; [|done]. cbn.
      destruct (Z.eqb_spec b c); [lia|done]. }
    split; [done|]. split.
    + intros rest [= ->]. lia.
    + by intros b' rest [= <- _] _.
Qed.

Lemma static_string_compare_char_spec_witness :
  ∃ r, static_string_compare_char (static_string.mk [97; 0; 9; 9] 1) 97 = Some r ∧
       (r = 0 ↔ contents (static_string.mk [97; 0; 9; 9] 1) = [97]).
Proof.
  destruct (static_string_compare_char_spec 16 3 (static_string.mk [97; 0; 9; 9] 1) 97)
    as (r & Hr & Hiff & _).
  - lia.
  - reflexivity.
  - unfold terminated. cbn. split; [lia|]. split; [lia|reflexivity].
  - exists r. split; [exact Hr | exact Hiff].
Defined.

(** ** Iterators *)

(** X26.  An iterator stays within the string: from a position between 0 and the
    length, construction, increment, decrement, [+], [-], [+=] and [-=] all
    end at a position between 0 and the length; decrement undoes an
    increment that moved and increment undoes a decrement that moved. *)
Theorem StringIterator_in_bounds (size_bits len : Z) (this : StringIterator.t) (d : Z) :
  0 ≤ len < 2 ^ size_bits →
  0 ≤ StringIterator.m_i this ≤ len →
  0 ≤ d →
  let within (it : StringIterator.t) := 0 ≤ StringIterator.m_i it ≤ len in
  within (StringIterator_new len d) ∧
  within (StringIterator_incr size_bits len this) ∧
  within (StringIterator_decr size_bits this) ∧
  within (StringIterator_plus size_bits len this d) ∧
  within (StringIterator_minus size_bits len this d) ∧
  within (StringIterator_add size_bits len this d) ∧
  within (StringIterator_sub size_bits this d) ∧
  (StringIterator.m_i this < len →
     StringIterator_decr size_bits (StringIterator_incr size_bits len this) = this) ∧
  (0 < StringIterator.m_i this →
     StringIterator_incr size_bits len (StringIterator_decr size_bits this) = this).
Proof.
  intros Hlen Hi Hd within. destruct this as [i]. cbn in Hi.
  assert (Hpos : 0 < 2 ^ size_bits) by lia.
  assert (Hcast : ∀ z, 0 ≤ size_cast size_bits z) by (intros z; apply Z.mod_pos_bound; lia).
  assert (Hclamp : ∀ z, 0 ≤ z → within (StringIterator_new len z)).
  { intros z Hz. unfold within, StringIterator_new, StringIterator_check_bounds. cbn.
    destruct (Z.ltb_spec len z); cbn; lia. }
  unfold StringIterator_plus, StringIterator_minus, StringIterator_add.
  fold (StringIterator_new len (size_cast size_bits (StringIterator.m_i (StringIterator.mk i) + d))).
  split_and!; try (apply Hclamp; done).
  - unfold within, StringIterator_incr. cbn. destruct (Z.ltb_spec i len); cbn; [|lia].
    rewrite size_cast_small; lia.
  - unfold within, StringIterator_decr. cbn. destruct (Z.ltb_spec 0 i); cbn; [|lia].
    rewrite size_cast_small; lia.
  - unfold within, StringIterator_sub. cbn. destruct (Z.leb_spec i d); cbn; [lia|].
    rewrite size_cast_small; lia.
  - intros Hlt. cbn in Hlt. unfold StringIterator_incr, StringIterator_decr. cbn.
    destruct (Z.ltb_spec i len); [|lia]. cbn. rewrite (size_cast_small _ (i + 1)) by lia.
    destruct (Z.ltb_spec 0 (i + 1)); [|lia]. rewrite size_cast_small by lia.
    f_equal. lia.
  - intros Hlt. cbn in Hlt. unfold StringIterator_incr, StringIterator_decr. cbn.
    destruct (Z.ltb_spec 0 i); [|lia]. cbn. rewrite (size_cast_small _ (i - 1)) by lia.
    destruct (Z.ltb_spec (i - 1) len); [|lia]. rewrite size_cast_small by lia.
    f_equal. lia.
Qed.

Lemma StringIterator_in_bounds_witness :
  0 ≤ StringIterator.m_i (StringIterator_plus 16 5 (StringIterator.mk 3) 65535) ≤ 5.
Proof.
  destruct (StringIterator_in_bounds 16 5 (StringIterator.mk 3) 65535)
    as (_ & _ & _ & H & _).
  - lia.
  - cbn. lia.
  - lia.
  - exact H.
Defined.



(** ** Comparison with a C string *)

Lemma strcmp_refl str n : strlen str = Some n → strcmp str str = Some 0.
Proof.
  revert n. induction str as [|c str IH]; intros n; cbn; [done|].
  rewrite Z.eqb_refl. destruct (Z.eqb_spec c 0) as [|Hc]; [done|].
  destruct (strlen str) as [k|]; [|done]. intros _. by apply (IH k).
Qed.

(** X28.  With the character array on the left, the ordering operators answer
    the wrong question: [lhs > rhs] holds exactly when [rhs <= lhs] does,
    and [lhs >= rhs] exactly when [rhs < lhs] does, and likewise for [<]
    and [<=]; so a string compared with its own characters is reported both
    greater and less than them, and neither [>=] nor [<=]. *)
Theorem cstr_comparison_inverted (tSize : Z) (lhs : list Z) (rhs : static_string.t) :
  0 ≤ tSize →
  terminated tSize rhs →
  cstr_gt_static_string lhs rhs = static_string_le_cstr rhs lhs ∧
  cstr_ge_static_string lhs rhs = static_string_lt_cstr rhs lhs ∧
  cstr_lt_static_string lhs rhs = static_string_ge_cstr rhs lhs ∧
  cstr_le_static_string lhs rhs = static_string_gt_cstr rhs lhs ∧
  (lhs = static_string_c_str rhs →
     cstr_eq_static_string lhs rhs = Some true ∧
     cstr_gt_static_string lhs rhs = Some true ∧
     cstr_lt_static_string lhs rhs = Some true ∧
     cstr_ge_static_string lhs rhs = Some false ∧
     cstr_le_static_string lhs rhs = Some false ∧
     static_string_ge_cstr rhs lhs = Some true ∧
     static_string_gt_cstr rhs lhs = Some false).
Proof.
  intros HtSize (Hl & Hm & Ht). split_and!; try reflexivity.
  intros ->. rewrite peek_lookup in Ht by lia.
  destruct (strlen_exists _ _ Ht) as (n & Hn & _).
  unfold cstr_eq_static_string, cstr_gt_static_string, cstr_lt_static_string,
    cstr_ge_static_string, cstr_le_static_string, static_string_ge_cstr,
    static_string_gt_cstr, static_string_compare_cstr, static_string_c_str.
  rewrite (strcmp_refl _ n Hn). by split_and!.
Qed.

Lemma cstr_comparison_inverted_witness :
  cstr_gt_static_string [97; 0; 9] (static_string.mk [97; 0; 9] 1) = Some true ∧
  cstr_ge_static_string [97; 0; 9] (static_string.mk [97; 0; 9] 1) = Some false.
Proof.
  destruct (cstr_comparison_inverted 2 [97; 0; 9] (static_string.mk [97; 0; 9] 1))
    as (_ & _ & _ & _ & H).
  - lia.
  - unfold terminated. cbn. split; [lia|]. split; [lia|reflexivity].
  - destruct H as (_ & H1 & _ & H2 & _); [reflexivity|]. split; [exact H1 | exact H2].
Defined.
